(** * CodeCollector: file collection, the selection tree and the run

    Shallow embedding of [src/codecollector/models.py] ([TreeNode],
    [ProjectSettings]), [src/codecollector/selector.py]
    ([InteractiveSelector]), [src/codecollector/collector.py]
    ([CodeCollector]), [src/codecollector/config.py] ([ConfigManager]),
    [CodeCollectorApp.run] from [src/codecollector/main.py], and of
    [GitignoreHandler], [KeyboardHandler] and [FileFilters] from
    [src/utils.py]. *)

From Stdlib Require Import String Ascii.
From Stdlib Require Import List Bool Arith Lia Sorted Permutation.
Import ListNotations.

#[local] Set Warnings "-register-all".

(* ------------------------------------------------------------------ *)
(** ** Paths *)

(** A [pathlib.Path] is modelled by the list of its segments. *)
Definition path := list string.

(** [Path.name]: the last segment ([""] for the filesystem root). *)
Definition name (p : path) : string := last p ""%string.

Fixpoint path_eqb (p q : path) : bool :=
  match p, q with
  | [], [] => true
  | a :: p', b :: q' => String.eqb a b && path_eqb p' q'
  | _, _ => false
  end.

(** Python's [x in s] for a set (or list) of paths. *)
Definition path_mem (p : path) (s : list path) : bool :=
  existsb (path_eqb p) s.

(* ------------------------------------------------------------------ *)
(** ** TreeNode *)

(** [TreeNode] is a tagged union on [is_file]. A file carries its
    [selected] flag; a directory carries [expanded] and [children].
    The [selected] attribute of a directory and the [expanded] attribute
    of a file are never read or written past [__init__] (every write is
    guarded by [is_file]), so they are left out; [parent] and [visible]
    are never used by the selection logic. *)
Inductive node : Type :=
| File (fpath : path) (selected : bool)
| Dir (dpath : path) (expanded : bool) (children : list node).

Definition node_path (n : node) : path :=
  match n with File p _ => p | Dir p _ _ => p end.

Definition is_file (n : node) : bool :=
  match n with File _ _ => true | Dir _ _ _ => false end.

(** Induction on nodes with the hypothesis on every child. *)
Section NodeInd.
Variable P : node -> Prop.
Hypothesis HFile : forall p s, P (File p s).
Hypothesis HDir : forall p e cs, Forall P cs -> P (Dir p e cs).

Fixpoint node_ind' (n : node) : P n :=
  match n with
  | File p s => HFile p s
  | Dir p e cs =>
      HDir p e cs
        ((fix go (l : list node) : Forall P l :=
            match l with
            | [] => Forall_nil P
            | c :: r => Forall_cons c (node_ind' c) (go r)
            end) cs)
  end.
End NodeInd.

(** Result of [get_selection_state]. *)
Inductive sel_state : Type := SAll | SNone | SPartial.

Definition sel_state_eqb (a b : sel_state) : bool :=
  match a, b with
  | SAll, SAll | SNone, SNone | SPartial, SPartial => true
  | _, _ => false
  end.

(** [child.get_selection_state() in ['all', 'partial']] *)
Definition contributing (s : sel_state) : bool :=
  match s with SAll | SPartial => true | SNone => false end.

(** [TreeNode.get_selection_state] *)
Fixpoint get_selection_state (n : node) : sel_state :=
  match n with
  | File _ s => if s then SAll else SNone
  | Dir _ _ cs =>
      match cs with
      | [] => SNone
      | _ :: _ =>
          let selected_count :=
            length (filter (fun c => contributing (get_selection_state c)) cs) in
          if selected_count =? 0 then SNone
          else if selected_count =? length cs then SAll
          else SPartial
      end
  end.

(** [TreeNode.set_selected_recursive] *)
Fixpoint set_selected_recursive (b : bool) (n : node) : node :=
  match n with
  | File p _ => File p b
  | Dir p e cs => Dir p e (map (set_selected_recursive b) cs)
  end.

(** [TreeNode.get_file_count] *)
Fixpoint get_file_count (n : node) : nat :=
  match n with
  | File _ _ => 1
  | Dir _ _ cs => list_sum (map get_file_count cs)
  end.

(** [TreeNode.get_selected_files] *)
Fixpoint get_selected_files (n : node) : list path :=
  match n with
  | File p s => if s then [p] else []
  | Dir _ _ cs => concat (map get_selected_files cs)
  end.

(** Specification-side views: the files below a node in pre-order. *)
Fixpoint files_preorder (n : node) : list (path * bool) :=
  match n with
  | File p s => [(p, s)]
  | Dir _ _ cs => concat (map files_preorder cs)
  end.

Definition all_files_selected (n : node) : bool :=
  forallb snd (files_preorder n).

Definition no_file_selected (n : node) : bool :=
  forallb (fun f => negb (snd f)) (files_preorder n).

(* ------------------------------------------------------------------ *)
(** ** Building and sorting the tree ([_build_file_tree], [_sort_tree_children]) *)

(** [str.lower()] on the ASCII range. *)
Definition lower_ascii (c : ascii) : ascii :=
  let n := nat_of_ascii c in
  if (65 <=? n) && (n <=? 90) then ascii_of_nat (n + 32) else c.

Fixpoint lower (s : string) : string :=
  match s with
  | EmptyString => EmptyString
  | String c r => String (lower_ascii c) (lower r)
  end.

(** Python's [<] on strings: lexicographic on code points. *)
Fixpoint str_ltb (s1 s2 : string) : bool :=
  match s1, s2 with
  | EmptyString, EmptyString => false
  | EmptyString, String _ _ => true
  | String _ _, EmptyString => false
  | String a r1, String b r2 =>
      if nat_of_ascii a <? nat_of_ascii b then true
      else if nat_of_ascii b <? nat_of_ascii a then false
      else str_ltb r1 r2
  end.

(** [<] on the sort key [(x.is_file, x.path.name.lower())]; [False < True]. *)
Definition key_lt (a b : node) : bool :=
  match is_file a, is_file b with
  | false, true => true
  | true, false => false
  | _, _ => str_ltb (lower (name (node_path a))) (lower (name (node_path b)))
  end.

(** [list.sort(key=...)] is a stable sort that compares with [<] only.
    Any stable sort gives the same result; insertion sort is used here:
    an element is placed before the first element it is not greater than. *)
Fixpoint insert_sorted (x : node) (l : list node) : list node :=
  match l with
  | [] => [x]
  | y :: r => if key_lt y x then y :: insert_sorted x r else x :: y :: r
  end.

Fixpoint sort_children (l : list node) : list node :=
  match l with
  | [] => []
  | x :: r => insert_sorted x (sort_children r)
  end.

(** [_sort_tree_children]: sort [node.children], then recurse into every
    child. The children are sorted here after their own subtrees: the sort
    key of a node does not depend on its children, so the order of the two
    steps does not matter. *)
Fixpoint sort_tree (n : node) : node :=
  match n with
  | File _ _ => n
  | Dir p e cs => Dir p e (sort_children (map sort_tree cs))
  end.

(** The inner [for child in current_node.children] search: find the first
    directory child named [d] and rebuild its children with [k]. *)
Fixpoint descend_into (d : string) (k : list node -> list node) (cs : list node)
  : option (list node) :=
  match cs with
  | [] => None
  | Dir p e ccs :: r =>
      if String.eqb (name p) d then Some (Dir p e (k ccs) :: r)
      else option_map (cons (Dir p e ccs)) (descend_into d k r)
  | (File _ _ as c) :: r => option_map (cons c) (descend_into d k r)
  end.

(** One iteration of the loop of [_build_file_tree]: walk the directory
    parts [dirs] below [current_path], creating missing directory nodes
    (a new [TreeNode] directory starts with [expanded = not is_file = True]),
    then append the file node. *)
Fixpoint insert_parts (current_path : path) (dirs : list string) (file_path : path)
         (cs : list node) : list node :=
  match dirs with
  | [] => cs ++ [File file_path false]
  | d :: ds =>
      let cp := current_path ++ [d] in
      match descend_into d (insert_parts cp ds file_path) cs with
      | Some cs' => cs'
      | None => cs ++ [Dir cp true (insert_parts cp ds file_path [])]
      end
  end.

(** [Path.relative_to]: [None] stands for the [ValueError]. *)
Fixpoint relative_to (p root : path) : option path :=
  match root, p with
  | [], _ => Some p
  | r :: root', a :: p' => if String.eqb r a then relative_to p' root' else None
  | _ :: _, [] => None
  end.

Fixpoint build_children (root_path : path) (files : list path) (cs : list node)
  : option (list node) :=
  match files with
  | [] => Some cs
  | f :: fs =>
      match relative_to f root_path with
      | None => None
      | Some parts =>
          build_children root_path fs
            (insert_parts root_path (removelast parts) f cs)
      end
  end.

(** [_build_file_tree]; [None] when a file is not below [root_path]
    (the uncaught [ValueError]). *)
Definition build_file_tree (root_path : path) (files : list path) : option node :=
  match build_children root_path files [] with
  | Some cs => Some (sort_tree (Dir root_path true cs))
  | None => None
  end.

(* ------------------------------------------------------------------ *)
(** ** Saved selection, expansion *)

(** [_apply_saved_selection] (its local [mark_selected]). *)
Fixpoint mark_selected (saved_files saved_folders : list path) (n : node) : node :=
  match n with
  | File p s => if path_mem p saved_files then File p true else File p s
  | Dir p e cs =>
      if path_mem p saved_folders then set_selected_recursive true (Dir p e cs)
      else Dir p e (map (mark_selected saved_files saved_folders) cs)
  end.

Definition apply_saved_selection (saved_files saved_folders : list path) (root : node)
  : node :=
  mark_selected saved_files saved_folders root.

(** [_expand_all] *)
Fixpoint expand_all (n : node) : node :=
  match n with
  | File _ _ => n
  | Dir p _ cs => Dir p true (map expand_all cs)
  end.

(** [_collapse_all(node, depth)] *)
Fixpoint collapse_all (depth : nat) (n : node) : node :=
  match n with
  | File _ _ => n
  | Dir p _ cs => Dir p (depth =? 0) (map (collapse_all (S depth)) cs)
  end.

(* ------------------------------------------------------------------ *)
(** ** Visible nodes ([_get_visible_nodes]) *)

(** The local [traverse] of [_get_visible_nodes], listing every node it
    visits (the root is dropped in [get_visible_nodes]). *)
Fixpoint traverse (depth : nat) (n : node) : list (node * nat) :=
  (n, depth) ::
  match n with
  | File _ _ => []
  | Dir _ e cs => if e then concat (map (traverse (S depth)) cs) else []
  end.

(** [_get_visible_nodes]: [traverse(self.tree_root)] with the root itself
    skipped by the [node != self.tree_root] test. *)
Definition get_visible_nodes (root : node) : list (node * nat) :=
  match root with
  | File _ _ => []
  | Dir _ e cs => if e then concat (map (traverse 1) cs) else []
  end.

Definition vcount (n : node) : nat := length (traverse 0 n).

(** In-place mutation of the node at index [i] of [traverse _ n]: the
    Python code mutates the object [visible_nodes[i]], which (the tree
    having no sharing) is the node reached by this walk. *)
Fixpoint upd_at (f : node -> node) (i : nat) (n : node) {struct n} : node :=
  match i, n with
  | 0, _ => f n
  | S j, Dir p true cs =>
      Dir p true
        ((fix go (j : nat) (l : list node) : list node :=
            match l with
            | [] => []
            | c :: r =>
                if j <? vcount c then upd_at f j c :: r
                else c :: go (j - vcount c) r
            end) j cs)
  | S _, _ => n
  end.

(** Mutation of [visible_nodes[pos]]: the root is index 0 of [traverse]. *)
Definition upd_visible (f : node -> node) (pos : nat) (root : node) : node :=
  upd_at f (S pos) root.

(* ------------------------------------------------------------------ *)
(** ** InteractiveSelector *)

(** Logical keys returned by [KeyboardHandler.get_key]. [KReset] is the raw
    ['r'] or ['R']; [KFind s] carries the line read by [input().strip()];
    [KOther] is every other key (['PAGEUP'], ['PAGEDOWN'], unknown keys). *)
Inductive key : Type :=
| KUp | KDown | KSpace | KRight | KLeft | KExpand | KCollapse
| KEnter | KQuit | KEsc | KAll | KNone | KReset
| KFind (input : string)
| KOther (k : string).

Definition page_size : nat := 15.

Record selector : Type := mkSelector {
  files : list path;
  root_path : path;
  tree_root : node;
  current_pos : nat;
  current_page : nat;
  search_term : string
}.

Definition set_tree (t : node) (st : selector) : selector :=
  mkSelector (files st) (root_path st) t (current_pos st) (current_page st)
             (search_term st).

Definition set_cursor (pos page : nat) (st : selector) : selector :=
  mkSelector (files st) (root_path st) (tree_root st) pos page (search_term st).

Definition set_search (s : string) (st : selector) : selector :=
  mkSelector (files st) (root_path st) (tree_root st) (current_pos st)
             (current_page st) s.

(** [(len(visible_nodes) - 1) // self.page_size + 1 if visible_nodes else 1] *)
Definition total_pages (len : nat) : nat :=
  match len with
  | 0 => 1
  | S m => m / page_size + 1
  end.

(** The SPACE branch on the node under the cursor. *)
Definition activate (n : node) : node :=
  match n with
  | File p s => File p (negb s)
  | Dir _ _ _ =>
      let state := get_selection_state n in
      let new_state := negb (sel_state_eqb state SAll) in
      set_selected_recursive new_state n
  end.

(** The RIGHT / LEFT branches: only a directory is changed. *)
Definition set_expanded (b : bool) (n : node) : node :=
  match n with
  | File _ _ => n
  | Dir p _ cs => Dir p b cs
  end.

Definition is_empty_string (s : string) : bool :=
  match s with EmptyString => true | _ => false end.

(** [_handle_key]: the boolean says whether the loop goes on. *)
Definition handle_key (k : key) (st : selector) : bool * selector :=
  let visible_nodes := get_visible_nodes (tree_root st) in
  let len := length visible_nodes in
  let tp := total_pages len in
  let pos := current_pos st in
  let page := current_page st in
  match k with
  | KUp =>
      if 0 <? pos then
        let pos' := pos - 1 in
        (* max(0, page - 1) is the truncated subtraction *)
        let page' := if pos' <? page * page_size then page - 1 else page in
        (true, set_cursor pos' page' st)
      else (true, st)
  | KDown =>
      (* [len - 1] is [-1] in Python when [len = 0]; no [pos] is below it,
         as no [pos] is below the truncated [0] *)
      if pos <? len - 1 then
        let pos' := pos + 1 in
        let page' := if (page + 1) * page_size <=? pos'
                     then Nat.min (tp - 1) (page + 1) else page in
        (true, set_cursor pos' page' st)
      else (true, st)
  | KSpace =>
      if pos <? len then (true, set_tree (upd_visible activate pos (tree_root st)) st)
      else (true, st)
  | KRight =>
      if pos <? len
      then (true, set_tree (upd_visible (set_expanded true) pos (tree_root st)) st)
      else (true, st)
  | KLeft =>
      if pos <? len
      then (true, set_tree (upd_visible (set_expanded false) pos (tree_root st)) st)
      else (true, st)
  | KExpand => (true, set_tree (expand_all (tree_root st)) st)
  | KCollapse => (true, set_tree (collapse_all 0 (tree_root st)) st)
  | KEnter => (false, st)
  | KQuit => (false, set_tree (set_selected_recursive false (tree_root st)) st)
  | KEsc =>
      if negb (is_empty_string (search_term st)) then (true, set_search ""%string st)
      else (false, set_tree (set_selected_recursive false (tree_root st)) st)
  | KAll => (true, set_tree (set_selected_recursive true (tree_root st)) st)
  | KNone => (true, set_tree (set_selected_recursive false (tree_root st)) st)
  | KReset => (true, set_tree (set_selected_recursive false (tree_root st)) st)
  | KFind s => (true, set_search s st)
  | KOther _ => (true, st)
  end.

(** The [while True] loop of [run] fed with a finite key sequence
    ([_display_tree] only prints). [None]: still waiting for a key. *)
Fixpoint run_loop (keys : list key) (st : selector) : option (list path * selector) :=
  match keys with
  | [] => None
  | k :: ks =>
      let (go_on, st') := handle_key k st in
      if go_on then run_loop ks st'
      else Some (get_selected_files (tree_root st'), st')
  end.

(** [run] *)
Definition run (keys : list key) (st : selector) : option (list path * selector) :=
  match files st with
  | [] => Some ([], st)
  | _ :: _ => run_loop keys st
  end.

(** The state after a key sequence (the last state if the loop stopped). *)
Fixpoint steps (keys : list key) (st : selector) : selector :=
  match keys with
  | [] => st
  | k :: ks =>
      let (go_on, st') := handle_key k st in
      if go_on then steps ks st' else st'
  end.

(** [__init__]; [None] for the [ValueError] of [_build_file_tree]. *)
Definition init (fs : list path) (rp : path) (saved_files saved_folders : list path)
  : option selector :=
  match build_file_tree rp fs with
  | None => None
  | Some t =>
      let t' := match saved_files, saved_folders with
                | [], [] => t
                | _, _ => apply_saved_selection saved_files saved_folders t
                end in
      Some (mkSelector fs rp t' 0 0 ""%string)
  end.

(* ------------------------------------------------------------------ *)
(** ** [fnmatch.fnmatch] and [GitignoreHandler.is_ignored_by_gitignore] *)

(** Tokens of [fnmatch.translate]: [*], [?], a bracket class (negated with
    [!], made of single characters and ranges), a literal character. *)
Inductive gtok : Type :=
| GStar
| GAny
| GClass (neg : bool) (items : list (ascii * ascii))
| GLit (c : ascii).

(** Split at the first [']']. *)
Fixpoint split_close (l : list ascii) : option (list ascii * list ascii) :=
  match l with
  | [] => None
  | c :: r =>
      if Ascii.eqb c "]"%char then Some ([], r)
      else option_map (fun '(b, rest) => (c :: b, rest)) (split_close r)
  end.

(** The scan after ['[']: optional ['!'], then a [']'] taken literally,
    then everything up to the closing [']']. [None]: no closing bracket,
    and the ['['] is a literal. *)
Definition class_scan (l : list ascii) : option (bool * list ascii * list ascii) :=
  let '(neg, l1) :=
    match l with
    | c :: t => if Ascii.eqb c "!"%char then (true, t) else (false, l)
    | [] => (false, l)
    end in
  match l1 with
  | c :: t =>
      if Ascii.eqb c "]"%char
      then option_map (fun '(b, rest) => (neg, c :: b, rest)) (split_close t)
      else option_map (fun '(b, rest) => (neg, b, rest)) (split_close l1)
  | [] => None
  end.

(** Class body: [c-d] is a range, every other character stands for itself
    (a range whose ends are reversed matches nothing, as the empty ranges
    that [translate] removes). *)
Fixpoint parse_items (l : list ascii) : list (ascii * ascii) :=
  match l with
  | c :: ((m :: ((d :: r) as t2)) as t1) =>
      if Ascii.eqb m "-"%char then (c, d) :: parse_items r
      else (c, c) :: parse_items t1
  | c :: r => (c, c) :: parse_items r
  | [] => []
  end.

Fixpoint tokenize (fuel : nat) (l : list ascii) : list gtok :=
  match fuel with
  | 0 => []
  | S f =>
      match l with
      | [] => []
      | c :: r =>
          if Ascii.eqb c "*"%char then GStar :: tokenize f r
          else if Ascii.eqb c "?"%char then GAny :: tokenize f r
          else if Ascii.eqb c "["%char then
            match class_scan r with
            | Some (neg, body, rest) => GClass neg (parse_items body) :: tokenize f rest
            | None => GLit c :: tokenize f r
            end
          else GLit c :: tokenize f r
      end
  end.

Definition in_items (c : ascii) (items : list (ascii * ascii)) : bool :=
  existsb (fun '(lo, hi) =>
             (nat_of_ascii lo <=? nat_of_ascii c) && (nat_of_ascii c <=? nat_of_ascii hi))
          items.

(** Full match of the translated regular expression ([(?s:...)\Z]):
    [*] matches any sequence, ['/'] and newlines included. *)
Fixpoint glob_match (toks : list gtok) (s : list ascii) : bool :=
  match toks with
  | [] => match s with [] => true | _ => false end
  | GStar :: r =>
      (fix try (s : list ascii) : bool :=
         glob_match r s || match s with [] => false | _ :: s' => try s' end) s
  | GAny :: r => match s with [] => false | _ :: s' => glob_match r s' end
  | GClass neg items :: r =>
      match s with
      | [] => false
      | c :: s' => xorb neg (in_items c items) && glob_match r s'
      end
  | GLit c :: r =>
      match s with
      | [] => false
      | c' :: s' => Ascii.eqb c c' && glob_match r s'
      end
  end.

(** [fnmatch.fnmatch(name, pat)] on POSIX ([os.path.normcase] is the identity). *)
Definition fnmatch (nm pat : string) : bool :=
  let p := list_ascii_of_string pat in
  glob_match (tokenize (S (length p)) p) (list_ascii_of_string nm).

(** ['/'.join(parts)] *)
Definition join_slash (parts : list string) : string := String.concat "/" parts.

Definition starts_with_slash (s : string) : bool :=
  match s with String c _ => Ascii.eqb c "/"%char | EmptyString => false end.

Definition ends_with_slash (s : string) : bool :=
  match list_ascii_of_string s with
  | [] => false
  | l => Ascii.eqb (last l "a"%char) "/"%char
  end.

(** [s[1:]] and [s[:-1]] *)
Definition drop_first (s : string) : string :=
  match s with String _ r => r | EmptyString => EmptyString end.

Definition drop_last (s : string) : string :=
  string_of_list_ascii (removelast (list_ascii_of_string s)).

(** The body of the [for pattern in gitignore_patterns] loop: [true] when
    one of its [return True] is reached. *)
Definition pattern_matches (rel_path_str : string) (path_parts : list string)
           (pattern0 : string) : bool :=
  let pattern := if starts_with_slash pattern0 then drop_first pattern0 else pattern0 in
  String.eqb rel_path_str pattern
  || fnmatch rel_path_str pattern
  || existsb (fun i => fnmatch (join_slash (skipn i path_parts)) pattern
                       || fnmatch (nth i path_parts ""%string) pattern)
             (seq 0 (length path_parts))
  || (ends_with_slash pattern
      && existsb (fun part => fnmatch part (drop_last pattern)) path_parts).

(** [GitignoreHandler.is_ignored_by_gitignore] *)
Definition is_ignored_by_gitignore (file_path root_path : path)
           (gitignore_patterns : list string) : bool :=
  match gitignore_patterns with
  | [] => false
  | _ :: _ =>
      match relative_to file_path root_path with
      | None => false
      | Some rel_parts =>
          existsb (pattern_matches (join_slash rel_parts) rel_parts) gitignore_patterns
      end
  end.

(** ** [GitignoreHandler.parse_gitignore] *)

(** [str.isspace()] on ASCII: tab to carriage return, the separators
    [\x1c] to [\x1f], and the space. *)
Definition is_space (c : ascii) : bool :=
  let n := nat_of_ascii c in
  ((9 <=? n) && (n <=? 13)) || ((28 <=? n) && (n <=? 32)).

Fixpoint lstrip (l : list ascii) : list ascii :=
  match l with
  | c :: r => if is_space c then lstrip r else l
  | [] => []
  end.

(** [str.strip()] *)
Definition strip (l : list ascii) : list ascii := rev (lstrip (rev (lstrip l))).

(** Reading a file in text mode ([newline=None]): ["\r\n"] and a lone
    ["\r"] are read as ["\n"]. *)
Fixpoint universal_newlines (l : list ascii) : list ascii :=
  match l with
  | [] => []
  | c :: r =>
      if Ascii.eqb c "013"%char then
        "010"%char :: match r with
                      | c2 :: r2 =>
                          if Ascii.eqb c2 "010"%char then universal_newlines r2
                          else universal_newlines r
                      | [] => []
                      end
      else c :: universal_newlines r
  end.

(** [for line in f]: the lines of the decoded text, each with its ["\n"]. *)
Fixpoint file_lines (cur : list ascii) (l : list ascii) : list (list ascii) :=
  match l with
  | [] => match cur with [] => [] | _ :: _ => [rev cur] end
  | c :: r =>
      if Ascii.eqb c "010"%char then rev (c :: cur) :: file_lines [] r
      else file_lines (c :: cur) r
  end.

(** [parse_gitignore]: [None] for a missing file. The text is taken as
    ASCII: [strip] is that of ASCII text, and the warning branch of a
    failing read or decode is not modelled. The theorems that read the
    patterns of a given file assume ASCII text ([ascii_text]). *)
Definition parse_gitignore (content : option (list ascii)) : list string :=
  match content with
  | None => []
  | Some raw =>
      flat_map (fun line =>
                  match strip line with
                  | [] => []
                  | c :: r => if Ascii.eqb c "#"%char then []
                              else [string_of_list_ascii (c :: r)]
                  end)
               (file_lines [] (universal_newlines raw))
  end.

(** ** [ProjectSettings]: saving and reloading the selection *)

(** [str(rel_path)] of a relative path: its segments joined by ['/'],
    ["."] for the empty path. *)
Definition str_rel (rel : path) : string :=
  match rel with [] => "."%string | _ :: _ => join_slash rel end.

(** [s.replace('\\', '/')] *)
Definition replace_backslash (s : string) : string :=
  string_of_list_ascii
    (map (fun c => if Ascii.eqb c "092"%char then "/"%char else c) (list_ascii_of_string s)).

(** The two loops of [save_settings]: each path as a string relative to
    [root]; a path not below [root] ([ValueError]) is skipped. *)
Definition to_rel_strings (root : path) (ps : list path) : list string :=
  flat_map (fun p => match relative_to p root with
                     | Some rel => [replace_backslash (str_rel rel)]
                     | None => []
                     end) ps.

(** [str.split('/')] *)
Fixpoint split_slash (cur : list ascii) (l : list ascii) : list (list ascii) :=
  match l with
  | [] => [rev cur]
  | c :: r => if Ascii.eqb c "/"%char then rev cur :: split_slash [] r
              else split_slash (c :: cur) r
  end.

(** The segments [PurePosixPath] keeps: empty ones and ["."] are dropped. *)
Definition parse_segments (s : string) : list string :=
  filter (fun seg => negb (String.eqb seg "") && negb (String.eqb seg "."))
         (map string_of_list_ascii (split_slash [] (list_ascii_of_string s))).

(** [self.root_path / rel_path_str]: a string starting with ['/'] is an
    absolute path and replaces [root]. (POSIX keeps a leading ["//"] as a
    distinct root; such a path is read here as starting with ['/'].) *)
Definition join_root (root : path) (s : string) : path :=
  if starts_with_slash s then parse_segments s else root ++ parse_segments s.

(** The file system as [filter_existing_paths] queries it. *)
Record fsys : Type := mkFsys {
  fs_exists : path -> bool;
  fs_is_file : path -> bool;
  fs_is_dir : path -> bool
}.

(** [ProjectSettings.filter_existing_paths] *)
Definition filter_existing_paths (fs : fsys) (root : path)
           (selected_files selected_folders : list string) : list path * list path :=
  (filter (fun p => fs_exists fs p && fs_is_file fs p) (map (join_root root) selected_files),
   filter (fun p => fs_exists fs p && fs_is_dir fs p) (map (join_root root) selected_folders)).

(** The fields of the settings file that the selection uses; [json.dump]
    then [json.load] gives the lists of strings back. *)
Record settings : Type := mkSettings {
  full_path : path;
  selected_files : list string;
  selected_folders : list string
}.

(** [ProjectSettings.save_settings] (the settings file written). *)
Definition save_settings (root : path) (sel_files sel_folders : list path) : settings :=
  mkSettings root (to_rel_strings root sel_files) (to_rel_strings root sel_folders).

(** [ProjectSettings.load_settings]: [None] for a missing file or one
    saved for another [full_path]. *)
Definition load_settings (root : path) (file : option settings) : option settings :=
  match file with
  | Some s => if path_eqb (full_path s) root then Some s else None
  | None => None
  end.

(** [CodeCollectorApp._interactive_file_selection] up to [selector.run()]:
    the saved selection is loaded, filtered to what still exists, and
    handed to a new [InteractiveSelector]. *)
Definition start_selector (fs : fsys) (files : list path) (root : path)
           (file : option settings) : option selector :=
  let '(saved_files, saved_folders) :=
    match load_settings root file with
    | Some s => filter_existing_paths fs root (selected_files s) (selected_folders s)
    | None => ([], [])
    end in
  init files root saved_files saved_folders.

(** [CodeCollectorApp._save_user_preferences]: the collected files, and
    no folder ([selected_folders_paths = []]). *)
Definition save_user_preferences (root : path) (sel : list path) : settings :=
  save_settings root sel [].

(** ** [KeyboardHandler._get_key_unix] and the dispatch of [_handle_key] *)

(** One character as a string. *)
Definition chr (c : ascii) : string := String c EmptyString.

(** [_get_key_unix] on POSIX. [key] is what [sys.stdin.read(1)] returned
    (one character, or [''] at the end of the input); [next_chars] is what
    [sys.stdin.read(2)] returned after an ESC, or [''] when nothing came
    within the timeout. The ['~'] read after ['PAGEUP'] / ['PAGEDOWN'] is
    consumed from the input and does not enter the result. *)
Definition get_key_unix (key next_chars : string) : string :=
  if String.eqb key (chr "027") then
    let full_seq := (key ++ next_chars)%string in
    if String.eqb full_seq (String "027" "[A") then "UP"
    else if String.eqb full_seq (String "027" "[B") then "DOWN"
    else if String.eqb full_seq (String "027" "[C") then "RIGHT"
    else if String.eqb full_seq (String "027" "[D") then "LEFT"
    else if String.eqb full_seq (String "027" "[5") then "PAGEUP"
    else if String.eqb full_seq (String "027" "[6") then "PAGEDOWN"
    else "ESC"
  else if String.eqb key " " then "SPACE"
  else if String.eqb key (chr "013") || String.eqb key (chr "010") then "ENTER"
  else if String.eqb key "q" || String.eqb key "Q" then "QUIT"
  else if String.eqb key "a" || String.eqb key "A" then "ALL"
  else if String.eqb key "n" || String.eqb key "N" then "NONE"
  else if String.eqb key "w" || String.eqb key "W" then "UP"
  else if String.eqb key "s" || String.eqb key "S" then "DOWN"
  else if String.eqb key "j" then "DOWN"
  else if String.eqb key "k" then "UP"
  else if String.eqb key "f" || String.eqb key "F" then "FIND"
  else if String.eqb key "+" || String.eqb key "=" then "EXPAND"
  else if String.eqb key "-" || String.eqb key "_" then "COLLAPSE"
  else key.

(** The [if]/[elif] chain of [_handle_key] on the key string; [line] is
    what [input()] returns when the key is ['FIND']. *)
Definition key_of_name (k line : string) : key :=
  if String.eqb k "UP" then KUp
  else if String.eqb k "DOWN" then KDown
  else if String.eqb k "SPACE" then KSpace
  else if String.eqb k "RIGHT" then KRight
  else if String.eqb k "LEFT" then KLeft
  else if String.eqb k "EXPAND" then KExpand
  else if String.eqb k "COLLAPSE" then KCollapse
  else if String.eqb k "ENTER" then KEnter
  else if String.eqb k "QUIT" then KQuit
  else if String.eqb k "ESC" then KEsc
  else if String.eqb k "ALL" then KAll
  else if String.eqb k "NONE" then KNone
  else if String.eqb k "r" || String.eqb k "R" then KReset
  else if String.eqb k "FIND"
  then KFind (string_of_list_ascii (strip (list_ascii_of_string line)))
  else KOther k.

(** One turn of the [while True] loop of [run] on raw input:
    [KeyboardHandler.get_key()] then [_handle_key]. *)
Definition handle_raw_key (key next_chars line : string) (st : selector) : bool * selector :=
  handle_key (key_of_name (get_key_unix key next_chars) line) st.

(** ** [FileFilters] and [CodeCollector] *)

Definition SKIP_DIRS : list string :=
  ["vendor"; "venv"; ".git"; ".vscode"; "__pycache__"; "node_modules"]%string.
Definition SKIP_FILES : list string := [".env"; ".gitignore"; ".DS_Store"]%string.
Definition SKIP_EXTENSIONS : list string := [".pyc"; ".pyo"; ".log"; ".tmp"]%string.
Definition TEXT_EXTENSIONS : list string :=
  [".py"; ".php"; ".js"; ".html"; ".css"; ".sql"; ".txt"; ".md";
   ".json"; ".xml"; ".yml"; ".yaml"; ".ini"; ".conf"; ".sh";
   ".bat"; ".dockerfile"; ".gitignore"; ".htaccess"; ".vue";
   ".ts"; ".jsx"; ".tsx"; ".scss"; ".less"; ".go"; ".java";
   ".c"; ".cpp"; ".h"; ".rb"; ".pl"; ".rs"]%string.

(** [x in s] for a set of strings. *)
Definition str_mem (x : string) (s : list string) : bool := existsb (String.eqb x) s.

(** [str.rfind('.')], from index [i] on; [acc] is the last index seen. *)
Fixpoint rfind_dot (l : list ascii) (i : nat) (acc : option nat) : option nat :=
  match l with
  | [] => acc
  | c :: r => rfind_dot r (S i) (if Ascii.eqb c "."%char then Some i else acc)
  end.

(** [PurePath.suffix]: from the last ['.'] of the name on, if that dot is
    neither its first nor its last character; [''] otherwise. *)
Definition suffix (p : path) : string :=
  let l := list_ascii_of_string (name p) in
  match rfind_dot l 0 None with
  | Some i => if (0 <? i) && (i <? length l - 1)
              then string_of_list_ascii (skipn i l) else ""%string
  | None => ""%string
  end.

(** [Path.parents] of an absolute path, nearest first, down to ['/']. *)
Definition parents (p : path) : list path :=
  map (fun k => firstn k p) (rev (seq 0 (length p))).

(** [FileFilters.should_skip_directory] *)
Definition should_skip_directory (dir_name : string) : bool := str_mem dir_name SKIP_DIRS.

(** [FileFilters.should_skip_file] *)
Definition should_skip_file (file_path : path) : bool :=
  let file_name := name file_path in
  let file_ext := lower (suffix file_path) in
  str_mem file_name SKIP_FILES || str_mem file_ext SKIP_EXTENSIONS
  || String.prefix ".env" file_name.

(** What [CodeCollector] asks the file system: [is_dir()], the bytes of a
    file ([None] when [open] fails), [stat().st_size] ([None] on
    [OSError]) and [stat().st_mtime] (a number; only its order is used). *)
Record cfs : Type := mkCfs {
  c_is_dir : path -> bool;
  c_bytes : path -> option (list Byte.byte);
  c_size : path -> option nat;
  c_mtime : path -> nat
}.

(** [FileFilters.is_text_file]: the first 1024 bytes of a file without
    suffix must hold no NUL byte. *)
Definition is_text_file (c : cfs) (file_path : path) : bool :=
  if str_mem (lower (suffix file_path)) TEXT_EXTENSIONS then true
  else if String.eqb (suffix file_path) "" then
    match c_bytes c file_path with
    | Some bytes => negb (existsb (fun b => Byte.eqb b Byte.x00) (firstn 1024 bytes))
    | None => false
    end
  else false.

(** [CodeCollector._should_include_file] *)
Definition should_include_file (c : cfs) (root_path : path) (gitignore_patterns : list string)
           (file_path : path) : bool :=
  if c_is_dir c file_path then false
  else if is_ignored_by_gitignore file_path root_path gitignore_patterns then false
  else if existsb (fun parent => should_skip_directory (name parent)) (parents file_path)
  then false
  else if should_skip_file file_path then false
  else if negb (is_text_file c file_path) then false
  else match c_size c file_path with
       | None => false
       | Some 0 => false
       | Some _ => true
       end.

(** [list.sort] is stable; so is this insertion sort. [lt x y]: [x] goes
    before [y]. *)
Fixpoint insort {A} (lt : A -> A -> bool) (x : A) (l : list A) : list A :=
  match l with
  | [] => [x]
  | y :: ys => if lt x y then x :: l else y :: insort lt x ys
  end.

Definition list_sort {A} (lt : A -> A -> bool) (l : list A) : list A :=
  fold_left (fun acc x => insort lt x acc) l [].

(** The order of [PurePath]s: their segments compared lexicographically,
    each with Python's [<] on strings. *)
Fixpoint path_ltb (p q : path) : bool :=
  match p, q with
  | [], [] => false
  | [], _ :: _ => true
  | _ :: _, [] => false
  | a :: p', b :: q' =>
      if str_ltb a b then true else if str_ltb b a then false else path_ltb p' q'
  end.

(** [CodeCollector.scan_and_collect]: [entries] is what
    [root_path.rglob('*')] yields, [gitignore] the content of
    [root_path / '.gitignore'] ([None] if there is none). *)
Definition scan_and_collect (c : cfs) (root_path : path) (gitignore : option (list ascii))
           (sort_by_time : bool) (entries : list path) : list path :=
  let gitignore_patterns := parse_gitignore gitignore in
  let collected_files := filter (should_include_file c root_path gitignore_patterns) entries in
  if sort_by_time
  then list_sort (fun f g => c_mtime c g <? c_mtime c f) collected_files
  else list_sort path_ltb collected_files.

(** ** [ProjectSettings._update_gitignore] *)

(** The line boundaries of [str.splitlines()] on ASCII: ["\n"], ["\r"],
    ["\r\n"], ["\v"], ["\f"] and [\x1c] to [\x1e]. *)
Definition is_line_break (c : ascii) : bool :=
  let n := nat_of_ascii c in
  (n =? 10) || (n =? 11) || (n =? 12) || (n =? 13) || ((28 <=? n) && (n <=? 30)).

Fixpoint splitlines_aux (cur : list ascii) (l : list ascii) : list (list ascii) :=
  match l with
  | [] => match cur with [] => [] | _ :: _ => [rev cur] end
  | c :: r =>
      if Ascii.eqb c "013"%char then
        rev cur :: match r with
                   | c2 :: r2 => if Ascii.eqb c2 "010"%char then splitlines_aux [] r2
                                 else splitlines_aux [] r
                   | [] => []
                   end
      else if is_line_break c then rev cur :: splitlines_aux [] r
      else splitlines_aux (c :: cur) r
  end.

(** [str.splitlines()] *)
Definition splitlines (l : list ascii) : list (list ascii) := splitlines_aux [] l.

(** [x in existing_lines] *)
Definition lines_mem (x : string) (lines : list (list ascii)) : bool :=
  existsb (fun l => String.eqb (string_of_list_ascii l) x) lines.

Definition gitignore_entry : string := ".codecollector/".

(** The lines of [.gitignore] as [_update_gitignore] reads them; [None]
    for a missing file. *)
Definition existing_lines_of (file : option (list ascii)) : list (list ascii) :=
  match file with
  | Some raw => splitlines (universal_newlines raw)
  | None => []
  end.

(** [ProjectSettings._update_gitignore] once [f.read()] has decoded the
    file: the content of [.gitignore] afterwards. The text is appended
    (mode ['a'], POSIX line ends). [strip] and [splitlines] are those of
    ASCII text. *)
Definition append_gitignore_entry (file : option (list ascii)) : option (list ascii) :=
  let existing_lines := existing_lines_of file in
  if negb (lines_mem gitignore_entry existing_lines)
     && negb (lines_mem ".codecollector" existing_lines)
  then
    let text :=
      match existing_lines with
      | _ :: _ =>
          match strip (last existing_lines []) with
          | [] => list_ascii_of_string gitignore_entry ++ ["010"%char]
          | _ :: _ => "010"%char :: list_ascii_of_string gitignore_entry ++ ["010"%char]
          end
      | [] => "010"%char :: list_ascii_of_string gitignore_entry ++ ["010"%char]
      end in
    match file with
    | Some raw => Some (raw ++ text)
    | None => Some text
    end
  else file.

(** A byte of Python's strict UTF-8 decoder in [lo..hi]. *)
Definition byte_in (c : ascii) (lo hi : nat) : bool :=
  (lo <=? nat_of_ascii c) && (nat_of_ascii c <=? hi).

(** [bytes.decode('utf-8')] succeeds: no stray continuation byte, no
    truncated sequence, no overlong form, no surrogate, nothing above
    U+10FFFF. *)
Fixpoint utf8_valid (l : list ascii) : bool :=
  match l with
  | [] => true
  | b :: r =>
      if byte_in b 0 127 then utf8_valid r
      else if byte_in b 194 223 then
        match r with
        | c1 :: r1 => byte_in c1 128 191 && utf8_valid r1
        | [] => false
        end
      else if byte_in b 224 239 then
        match r with
        | c1 :: c2 :: r2 =>
            byte_in c1 (if nat_of_ascii b =? 224 then 160 else 128)
                       (if nat_of_ascii b =? 237 then 159 else 191)
            && byte_in c2 128 191 && utf8_valid r2
        | _ => false
        end
      else if byte_in b 240 244 then
        match r with
        | c1 :: c2 :: c3 :: r3 =>
            byte_in c1 (if nat_of_ascii b =? 240 then 144 else 128)
                       (if nat_of_ascii b =? 244 then 143 else 191)
            && byte_in c2 128 191 && byte_in c3 128 191 && utf8_valid r3
        | _ => false
        end
      else false
  end.

(** [ProjectSettings._update_gitignore]: the content of [.gitignore]
    afterwards. A file that is not UTF-8 makes [f.read()] raise
    [UnicodeDecodeError] before anything is written, and [except
    Exception: pass] leaves it as it was. A failing write is not
    modelled. *)
Definition update_gitignore (file : option (list ascii)) : option (list ascii) :=
  match file with
  | Some raw => if utf8_valid raw then append_gitignore_entry file else file
  | None => append_gitignore_entry file
  end.

(* ------------------------------------------------------------------ *)
(** ** [ConfigManager] ([src/codecollector/config.py]) and
       [CodeCollectorApp.run] ([src/codecollector/main.py]) *)

(** [Config] *)
Record config : Type := mkConfig {
  interactive : bool;
  sort_by_time : bool;
  markdown_format : bool;
  show_structure : bool;
  remote_mode : bool;
  source_dir : option string;
  output_file : option string
}.

(** [Config()] *)
Definition default_config : config := mkConfig false false false false false None None.

(** The assignments [config.<field> = v]. *)
Definition set_interactive (b : bool) (c : config) : config :=
  mkConfig b (sort_by_time c) (markdown_format c) (show_structure c) (remote_mode c)
           (source_dir c) (output_file c).
Definition set_sort_by_time (b : bool) (c : config) : config :=
  mkConfig (interactive c) b (markdown_format c) (show_structure c) (remote_mode c)
           (source_dir c) (output_file c).
Definition set_markdown_format (b : bool) (c : config) : config :=
  mkConfig (interactive c) (sort_by_time c) b (show_structure c) (remote_mode c)
           (source_dir c) (output_file c).
Definition set_show_structure (b : bool) (c : config) : config :=
  mkConfig (interactive c) (sort_by_time c) (markdown_format c) b (remote_mode c)
           (source_dir c) (output_file c).
Definition set_remote_mode (b : bool) (c : config) : config :=
  mkConfig (interactive c) (sort_by_time c) (markdown_format c) (show_structure c) b
           (source_dir c) (output_file c).
Definition set_source_dir (s : option string) (c : config) : config :=
  mkConfig (interactive c) (sort_by_time c) (markdown_format c) (show_structure c)
           (remote_mode c) s (output_file c).
Definition set_output_file (s : option string) (c : config) : config :=
  mkConfig (interactive c) (sort_by_time c) (markdown_format c) (show_structure c)
           (remote_mode c) (source_dir c) s.

(** One pass of the [while i < len(sys.argv)] loop of
    [ConfigManager.parse_cli_args]. *)
Definition parse_arg (c : config) (arg : string) : config :=
  if str_mem arg ["-i"; "--interactive"]%string then set_interactive true c
  else if str_mem arg ["-t"; "--time"; "--sort-time"]%string then set_sort_by_time true c
  else if str_mem arg ["--no-time"]%string then set_sort_by_time false c
  else if str_mem arg ["-m"; "--markdown"]%string then set_markdown_format true c
  else if str_mem arg ["--no-markdown"]%string then set_markdown_format false c
  else if str_mem arg ["-s"; "--structure"]%string then set_show_structure true c
  else if str_mem arg ["--no-structure"]%string then set_show_structure false c
  else if str_mem arg ["-r"; "--remote"]%string then set_remote_mode true c
  else if negb (String.prefix "-" arg) then
    match source_dir c with
    | None => set_source_dir (Some arg) c
    | Some _ =>
        match output_file c with
        | None => set_output_file (Some arg) c
        | Some _ => c
        end
    end
  else c.

(** [ConfigManager.parse_cli_args]: [sys.argv] from index 1 on. *)
Definition parse_cli_args (argv : list string) : config :=
  fold_left parse_arg (tl argv) default_config.

Definition TIME_FLAGS : list string := ["-t"; "--time"; "--sort-time"; "--no-time"]%string.
Definition MARKDOWN_FLAGS : list string := ["-m"; "--markdown"; "--no-markdown"]%string.
Definition STRUCTURE_FLAGS : list string := ["-s"; "--structure"; "--no-structure"]%string.

(** [any(arg in sys.argv for arg in flags)] *)
Definition any_in (flags argv : list string) : bool :=
  existsb (fun a => str_mem a argv) flags.

(** The ["preferences"] object of a settings file, as
    [_save_user_preferences] writes it: booleans, and no
    ["default_output"]. [None] is a missing key ([dict.get] returns its
    default). *)
Record prefs : Type := mkPrefs {
  p_interactive_mode : option bool;
  p_sort_by_time : option bool;
  p_markdown_format : option bool;
  p_show_structure : option bool;
  p_default_output : option string
}.

(** [d.get(key, default)] *)
Definition get_or {A} (o : option A) (d : A) : A :=
  match o with Some x => x | None => d end.

(** The truth value of an [Optional[str]]. *)
Definition truthy_str (o : option string) : bool :=
  match o with Some s => negb (String.eqb s "") | None => false end.

(** [ConfigManager.merge_with_saved_settings]; [saved] is the
    ["preferences"] object of what [load_settings] returned ([None]:
    no settings). *)
Definition merge_with_saved_settings (argv : list string) (c : config) (saved : option prefs)
  : config :=
  match saved with
  | None => c
  | Some p =>
      let c1 := if negb (any_in TIME_FLAGS argv)
                then set_sort_by_time (get_or (p_sort_by_time p) (sort_by_time c)) c else c in
      let c2 := if negb (any_in MARKDOWN_FLAGS argv)
                then set_markdown_format (get_or (p_markdown_format p) (markdown_format c1)) c1
                else c1 in
      let c3 := if negb (any_in STRUCTURE_FLAGS argv)
                then set_show_structure (get_or (p_show_structure p) (show_structure c2)) c2
                else c2 in
      if negb (truthy_str (output_file c3)) then set_output_file (p_default_output p) c3 else c3
  end.

(** A settings file: the part [filter_existing_paths] reads, and the
    preferences. *)
Definition settings_file : Type := (settings * prefs)%type.

(** [ProjectSettings.load_settings] on the whole file. *)
Definition load_app_settings (root : path) (file : option settings_file) : option settings_file :=
  match file with
  | Some (s, p) => match load_settings root (Some s) with
                   | Some s' => Some (s', p)
                   | None => None
                   end
  | None => None
  end.

Inductive run_mode : Type :=
| FORCE_SETUP
| FORCE_QUICK
| RESET_AND_SETUP
| QUICK_RUN
| FIRST_TIME_SETUP.

(** [CodeCollectorApp._determine_mode]; a settings dict that
    [load_settings] returns holds ["full_path"], so it is truthy. *)
Definition determine_mode (argv : list string) (saved : option settings_file) : run_mode :=
  if str_mem "--setup" argv then FORCE_SETUP
  else if str_mem "--quick" argv then FORCE_QUICK
  else if str_mem "--reset" argv then RESET_AND_SETUP
  else match saved with
       | Some _ => QUICK_RUN
       | None => FIRST_TIME_SETUP
       end.

(** [CodeCollectorApp._run_setup_wizard]: [k1] and [k2] are the two
    names [KeyboardHandler.get_key] returned. *)
Definition run_setup_wizard (c : config) (k1 k2 : string) : config :=
  set_interactive (String.eqb k2 "ENTER") (set_sort_by_time (String.eqb k1 "ENTER") c).

(** [CodeCollectorApp._apply_quick_defaults] *)
Definition apply_quick_defaults (c : config) : config :=
  set_show_structure true (set_markdown_format true
    (set_interactive false (set_sort_by_time false c))).

(** The configuration [CodeCollectorApp.run] has chosen once its
    [if mode == ...] chain is done. *)
Definition config_for_mode (argv : list string) (saved : option settings_file) (k1 k2 : string)
  : config :=
  let c := parse_cli_args argv in
  match determine_mode argv saved with
  | FORCE_SETUP => run_setup_wizard c k1 k2
  | FORCE_QUICK => apply_quick_defaults c
  | RESET_AND_SETUP => run_setup_wizard c k1 k2
  | QUICK_RUN =>
      let c' := merge_with_saved_settings argv c (option_map snd saved) in
      match saved with
      | Some (_, p) => set_interactive (get_or (p_interactive_mode p) true) c'
      | None => set_interactive true c'
      end
  | FIRST_TIME_SETUP => run_setup_wizard c k1 k2
  end.

(** Step 4 of [run]: the output is always [collected_files.md], in
    Markdown, with the structure. *)
Definition write_config (c : config) : config :=
  set_show_structure true (set_markdown_format true
    (set_output_file (Some "collected_files.md"%string) c)).

(** The [preferences] dict of [_save_user_preferences]. *)
Definition user_preferences (c : config) : prefs :=
  mkPrefs (Some (interactive c)) (Some (sort_by_time c)) (Some (markdown_format c))
          (Some (show_structure c)) None.

(** What a run ends in: still in the selector, waiting for a key; or
    the exit code with the settings file and [.gitignore] left behind. *)
Inductive outcome : Type :=
| Waiting
| Exit (code : nat) (file : option settings_file) (gitignore : option (list ascii)).

(** [CodeCollectorApp.run] from [ProjectSettings(source_path)] on, for a
    valid source directory [root]. [file] is the settings file,
    [gitignore] the [.gitignore] of [root], [entries] what
    [root.rglob('*')] yields, [k1], [k2] the wizard's keys and [keys]
    those of the selector. A [ValueError] of [InteractiveSelector] is
    caught by [except Exception] (exit code 1); [_write_output] is not
    modelled (its output does not feed back). *)
Definition app_run (argv : list string) (fs : fsys) (c : cfs) (root : path)
           (gitignore : option (list ascii)) (entries : list path)
           (file : option settings_file) (k1 k2 : string) (keys : list key) : outcome :=
  let saved := load_app_settings root file in
  let mode := determine_mode argv saved in
  let cfg := config_for_mode argv saved k1 k2 in
  let file1 := match mode with RESET_AND_SETUP => None | _ => file end in
  let finish (sel : list path) :=
    Exit 0 (Some (save_user_preferences root sel, user_preferences (write_config cfg)))
         (update_gitignore gitignore) in
  match scan_and_collect c root gitignore (sort_by_time cfg) entries with
  | [] => Exit 0 file1 gitignore
  | collected =>
      if interactive cfg then
        match start_selector fs collected root (option_map fst file1) with
        | None => Exit 1 file1 gitignore
        | Some st =>
            match run keys st with
            | None => Waiting
            | Some ([], _) => Exit 0 file1 gitignore
            | Some (sel, _) => finish sel
            end
        end
      else finish collected
  end.

(* ------------------------------------------------------------------ *)
(** ** Specification-side helpers *)

(** The tree with every file's [selected] flag erased (selection frame). *)
Fixpoint strip_sel (n : node) : node :=
  match n with
  | File p _ => File p false
  | Dir p e cs => Dir p e (map strip_sel cs)
  end.

(** The tree with every directory's [expanded] flag erased (expansion frame). *)
Fixpoint strip_exp (n : node) : node :=
  match n with
  | File p s => File p s
  | Dir p _ cs => Dir p false (map strip_exp cs)
  end.

(** Every directory has a child: the trees [_build_file_tree] produces. *)
Fixpoint wf (n : node) : bool :=
  match n with
  | File _ _ => true
  | Dir _ _ cs => match cs with [] => false | _ :: _ => forallb wf cs end
  end.

(** The cursor/page condition of the spec: [currentPage] is clamped to
    [0 .. totalPages-1], the cursor is inside the visible list and on the
    current page. *)
Definition clamp (x lo hi : nat) : nat := Nat.max lo (Nat.min x hi).

Definition cursor_page_ok (st : selector) : bool :=
  let len := length (get_visible_nodes (tree_root st)) in
  let page := current_page st in
  let pos := current_pos st in
  (page =? clamp page 0 (total_pages len - 1))
  && (pos <? len)
  && (page * page_size <=? pos)
  && (pos <? (page + 1) * page_size).

(* ------------------------------------------------------------------ *)
(** * Proofs *)

(** ** Generic list facts *)

Lemma filter_all_true {A} (f : A -> bool) (l : list A) :
  Forall (fun x => f x = true) l -> filter f l = l.
Proof.
  induction 1 as [|x l Hx _ IH]; simpl; [reflexivity|].
  rewrite Hx, IH; reflexivity.
Qed.

Lemma filter_all_false {A} (f : A -> bool) (l : list A) :
  Forall (fun x => f x = false) l -> filter f l = [].
Proof.
  induction 1 as [|x l Hx _ IH]; simpl; [reflexivity|].
  rewrite Hx; exact IH.
Qed.

Lemma forallb_concat_map {A B} (f : A -> list B) (g : B -> bool) (l : list A) :
  forallb g (concat (map f l)) = forallb (fun x => forallb g (f x)) l.
Proof.
  induction l as [|x l IH]; simpl; [reflexivity|].
  rewrite forallb_app, IH; reflexivity.
Qed.

(** ** Traversal and in-place update of a visible node *)

Definition upd_children (f : node -> node) : nat -> list node -> list node :=
  fix go (j : nat) (l : list node) : list node :=
    match l with
    | [] => []
    | c :: r =>
        if j <? vcount c then upd_at f j c :: r
        else c :: go (j - vcount c) r
    end.

Lemma upd_at_dir f j p cs :
  upd_at f (S j) (Dir p true cs) = Dir p true (upd_children f j cs).
Proof. reflexivity. Qed.

Lemma upd_at_closed f j p cs :
  upd_at f (S j) (Dir p false cs) = Dir p false cs.
Proof. reflexivity. Qed.

Lemma length_traverse d n : length (traverse d n) = vcount n.
Proof.
  unfold vcount. revert d.
  induction n as [p s|p e cs IH] using node_ind'; intro d; simpl; [reflexivity|].
  destruct e; [|reflexivity].
  f_equal. revert IH. generalize (S d) 1. intros d1 d2 IH.
  induction IH as [|c r Hc _ IHr]; simpl; [reflexivity|].
  rewrite !length_app, IHr, (Hc d1), (Hc d2); reflexivity.
Qed.

Lemma vcount_pos n : 0 < vcount n.
Proof. unfold vcount; destruct n; simpl; lia. Qed.

Definition on_fst (f : node -> node) (x : node * nat) : node * nat :=
  (f (fst x), snd x).

Lemma traverse_head d n : nth_error (traverse d n) 0 = Some (n, d).
Proof. destruct n; reflexivity. Qed.

Lemma traverse_upd_nth f n : forall i d,
  i < length (traverse d n) ->
  nth_error (traverse d (upd_at f i n)) i = option_map (on_fst f) (nth_error (traverse d n) i).
Proof.
  induction n as [p s|p e cs IH] using node_ind'; intros [|j] d Hi.
  - simpl upd_at. rewrite !traverse_head. reflexivity.
  - simpl in Hi; lia.
  - simpl upd_at. rewrite !traverse_head. reflexivity.
  - destruct e; [|simpl in Hi; lia].
    rewrite upd_at_dir. simpl in Hi |- *.
    assert (Hj : j < length (concat (map (traverse (S d)) cs))) by lia.
    clear Hi. revert j Hj.
    induction IH as [|c r Hc _ IHr]; intros j Hj; simpl in Hj |- *; [lia|].
    rewrite length_app, length_traverse in Hj.
    destruct (Nat.ltb_spec j (vcount c)) as [Hlt|Hge].
    + simpl.
      assert (Hs := Hc j (S d)). rewrite length_traverse in Hs.
      specialize (Hs Hlt).
      assert (Hl : j < length (traverse (S d) (upd_at f j c))).
      { apply nth_error_Some. rewrite Hs.
        rewrite <- length_traverse with (d := S d) in Hlt.
        destruct (nth_error (traverse (S d) c) j) eqn:E; [discriminate|].
        apply nth_error_None in E; lia. }
      rewrite !nth_error_app1; [exact Hs| |exact Hl].
      rewrite length_traverse; exact Hlt.
    + simpl.
      rewrite !nth_error_app2 by (rewrite length_traverse; lia).
      rewrite !length_traverse. apply IHr. lia.
Qed.

Lemma traverse_root t :
  match t with
  | Dir _ true _ => traverse 0 t = (t, 0) :: get_visible_nodes t
  | _ => True
  end.
Proof. destruct t as [|p [|] cs]; reflexivity. Qed.

Lemma visible_upd_nth f pos t :
  pos < length (get_visible_nodes t) ->
  nth_error (get_visible_nodes (upd_visible f pos t)) pos
  = option_map (on_fst f) (nth_error (get_visible_nodes t) pos).
Proof.
  intro H. destruct t as [p s|p [|] cs]; [simpl in H; lia| |simpl in H; lia].
  pose proof (traverse_upd_nth f (Dir p true cs) (S pos) 0) as Hn.
  unfold upd_visible. rewrite upd_at_dir in Hn |- *.
  rewrite (traverse_root (Dir p true cs)) in Hn.
  rewrite (traverse_root (Dir p true (upd_children f pos cs))) in Hn.
  cbn [nth_error length] in Hn. apply Hn. lia.
Qed.

Lemma visible_upd_length f pos t :
  pos < length (get_visible_nodes t) ->
  pos < length (get_visible_nodes (upd_visible f pos t)).
Proof.
  intro H. apply nth_error_Some.
  rewrite visible_upd_nth by exact H.
  destruct (nth_error (get_visible_nodes t) pos) eqn:E; [discriminate|].
  apply nth_error_None in E; lia.
Qed.

(** ** Frames: what selection and expansion mutations leave alone *)

Ltac frame_induction IH :=
  induction IH as [|c r Hc _ IHr]; intros; simpl; [reflexivity|];
  try (destruct (_ <? _)); simpl; f_equal; auto.

Lemma strip_sel_set_rec b n : strip_sel (set_selected_recursive b n) = strip_sel n.
Proof.
  induction n as [p s|p e cs IH] using node_ind'; simpl; [reflexivity|].
  f_equal. rewrite map_map. frame_induction IH.
Qed.

Lemma strip_sel_activate n : strip_sel (activate n) = strip_sel n.
Proof. destruct n; [reflexivity|]. apply strip_sel_set_rec. Qed.

Lemma strip_exp_expand_all n : strip_exp (expand_all n) = strip_exp n.
Proof.
  induction n as [p s|p e cs IH] using node_ind'; simpl; [reflexivity|].
  f_equal. rewrite map_map. frame_induction IH.
Qed.

Lemma strip_exp_collapse_all n : forall d, strip_exp (collapse_all d n) = strip_exp n.
Proof.
  induction n as [p s|p e cs IH] using node_ind'; intro d; simpl; [reflexivity|].
  f_equal. rewrite map_map. frame_induction IH.
Qed.

Lemma strip_exp_set_expanded b n : strip_exp (set_expanded b n) = strip_exp n.
Proof. destruct n; reflexivity. Qed.

Section UpdFrame.
Variable h : node -> node.
Variable he : path -> bool -> bool.
Hypothesis h_dir : forall p e cs, h (Dir p e cs) = Dir p (he p e) (map h cs).
Variable f : node -> node.
Hypothesis f_frame : forall m, h (f m) = h m.

Lemma upd_at_frame n : forall i, h (upd_at f i n) = h n.
Proof.
  induction n as [p s|p e cs IH] using node_ind'; intros [|j]; simpl upd_at;
    try apply f_frame; [reflexivity|].
  destruct e; [|reflexivity].
  rewrite !h_dir. f_equal. revert j.
  frame_induction IH.
Qed.
End UpdFrame.

Lemma strip_sel_upd f i n :
  (forall m, strip_sel (f m) = strip_sel m) -> strip_sel (upd_at f i n) = strip_sel n.
Proof. intro Hf. apply (upd_at_frame strip_sel (fun _ e => e)); [reflexivity|exact Hf]. Qed.

Lemma strip_exp_upd f i n :
  (forall m, strip_exp (f m) = strip_exp m) -> strip_exp (upd_at f i n) = strip_exp n.
Proof. intro Hf. apply (upd_at_frame strip_exp (fun _ _ => false)); [reflexivity|exact Hf]. Qed.

(** The visible list only depends on the tree with selection erased. *)
Lemma traverse_strip_sel d n :
  map (on_fst strip_sel) (traverse d n) = traverse d (strip_sel n).
Proof.
  revert d.
  induction n as [p s|p e cs IH] using node_ind'; intro d; [reflexivity|].
  simpl. f_equal. destruct e; [|reflexivity].
  rewrite concat_map, !map_map. revert IH. generalize (S d). intros d' IH.
  induction IH as [|c r Hc _ IHr]; simpl; [reflexivity|].
  rewrite Hc, IHr; reflexivity.
Qed.

Lemma visible_length_strip_sel t t' :
  strip_sel t = strip_sel t' ->
  length (get_visible_nodes t) = length (get_visible_nodes t').
Proof.
  assert (Hv : forall u, length (get_visible_nodes u)
                         = length (get_visible_nodes (strip_sel u))).
  { intros [p s|p [|] cs]; [reflexivity| |reflexivity].
    simpl. rewrite <- (length_map (on_fst strip_sel)), concat_map, !map_map.
    f_equal. f_equal. apply map_ext. intro c. apply traverse_strip_sel. }
  intro H. rewrite (Hv t), (Hv t'), H. reflexivity.
Qed.

(** Expanding every directory does not shorten the visible list. *)
Lemma traverse_expand_all_length d n :
  length (traverse d n) <= length (traverse d (expand_all n)).
Proof.
  revert d.
  induction n as [p s|p e cs IH] using node_ind'; intro d; simpl; [lia|].
  apply le_n_S. rewrite map_map.
  assert (H : length (concat (map (traverse (S d)) cs))
              <= length (concat (map (fun x => traverse (S d) (expand_all x)) cs))).
  { induction IH as [|c r Hc _ IHr]; simpl; [lia|].
    rewrite !length_app. specialize (Hc (S d)). lia. }
  destruct e; [exact H|simpl; lia].
Qed.

Lemma visible_expand_all_length t :
  length (get_visible_nodes t) <= length (get_visible_nodes (expand_all t)).
Proof.
  destruct t as [p s|p e cs]; [simpl; lia|].
  pose proof (traverse_expand_all_length 0 (Dir p e cs)) as H.
  simpl in H |- *. destruct e; simpl in H |- *; lia.
Qed.

(** ** Aggregated selection state after a recursive set *)

Lemma state_set_true n :
  wf n = true -> get_selection_state (set_selected_recursive true n) = SAll.
Proof.
  induction n as [p s|p e cs IH] using node_ind'; intro Hwf; [reflexivity|].
  destruct cs as [|c r]; [discriminate|].
  change (forallb wf (c :: r) = true) in Hwf.
  pose proof (proj1 (forallb_forall wf (c :: r)) Hwf) as Hall. clear Hwf.
  cbn [set_selected_recursive map get_selection_state].
  rewrite (filter_all_true _ (set_selected_recursive true c :: map _ r)).
  - rewrite Nat.eqb_refl. reflexivity.
  - rewrite <- (map_cons (set_selected_recursive true) c r).
    apply Forall_map. rewrite Forall_forall in IH |- *.
    intros x Hx. rewrite (IH x Hx (Hall x Hx)). reflexivity.
Qed.

Lemma state_set_false n :
  get_selection_state (set_selected_recursive false n) = SNone.
Proof.
  induction n as [p s|p e cs IH] using node_ind'; [reflexivity|].
  destruct cs as [|c r]; [reflexivity|].
  cbn [set_selected_recursive map get_selection_state].
  rewrite (filter_all_false _ (set_selected_recursive false c :: map _ r)); [reflexivity|].
  rewrite <- (map_cons (set_selected_recursive false) c r).
  apply Forall_map. eapply Forall_impl; [|exact IH].
  intros x Hx. rewrite Hx. reflexivity.
Qed.

Lemma files_set_rec b n :
  files_preorder (set_selected_recursive b n)
  = map (fun f => (fst f, b)) (files_preorder n).
Proof.
  induction n as [p s|p e cs IH] using node_ind'; [reflexivity|].
  simpl. rewrite map_map, concat_map, map_map. f_equal.
  apply map_ext_in. intros x Hx. rewrite Forall_forall in IH. apply IH, Hx.
Qed.

Lemma all_selected_set_true n :
  all_files_selected (set_selected_recursive true n) = true.
Proof.
  unfold all_files_selected. rewrite files_set_rec.
  apply forallb_forall. intros x Hx. apply in_map_iff in Hx.
  destruct Hx as [y [<- _]]. reflexivity.
Qed.

Lemma none_selected_set_false n :
  no_file_selected (set_selected_recursive false n) = true.
Proof.
  unfold no_file_selected. rewrite files_set_rec.
  apply forallb_forall. intros x Hx. apply in_map_iff in Hx.
  destruct Hx as [y [<- _]]. reflexivity.
Qed.

(** ** Cursor and page arithmetic *)

Lemma div_page (x q : nat) :
  q * page_size <= x -> x < (q + 1) * page_size -> x / page_size = q.
Proof.
  intros H1 H2. unfold page_size in *.
  symmetry. apply (Nat.div_unique x 15 q (x - q * 15)); lia.
Qed.

Lemma page_bounds (x : nat) :
  (x / page_size) * page_size <= x /\ x < (x / page_size + 1) * page_size.
Proof.
  unfold page_size.
  pose proof (Nat.div_mod x 15 ltac:(lia)).
  pose proof (Nat.mod_upper_bound x 15 ltac:(lia)). lia.
Qed.

Lemma cursor_page_ok_iff st :
  cursor_page_ok st = true <->
  current_pos st < length (get_visible_nodes (tree_root st))
  /\ current_page st = current_pos st / page_size.
Proof.
  unfold cursor_page_ok.
  set (len := length (get_visible_nodes (tree_root st))).
  set (pos := current_pos st). set (page := current_page st).
  rewrite !andb_true_iff, Nat.eqb_eq, !Nat.ltb_lt, Nat.leb_le.
  split.
  - intros [[[_ H1] H2] H3]. split; [exact H1|].
    symmetry. apply div_page; assumption.
  - intros [H1 H2]. destruct (page_bounds pos) as [B1 B2].
    rewrite <- H2 in B1, B2.
    repeat split; try assumption.
    unfold clamp, total_pages.
    destruct len as [|m]; [lia|].
    assert (page <= m / page_size).
    { rewrite H2. apply Nat.Div0.div_le_mono. lia. }
    replace (m / page_size + 1 - 1) with (m / page_size) by lia. lia.
Qed.

Lemma visible_set_rec_length b t :
  length (get_visible_nodes (set_selected_recursive b t)) = length (get_visible_nodes t).
Proof. apply visible_length_strip_sel, strip_sel_set_rec. Qed.

Lemma key_up_page pos page :
  0 < pos -> page = pos / page_size ->
  (if pos - 1 <? page * page_size then page - 1 else page) = (pos - 1) / page_size.
Proof.
  intros H0 Hp. destruct (page_bounds pos) as [B1 B2]. rewrite <- Hp in B1, B2.
  destruct (Nat.ltb_spec (pos - 1) (page * page_size)) as [L|L];
    symmetry; apply div_page; unfold page_size in *; nia.
Qed.

Lemma key_down_page pos page len :
  pos < len - 1 -> page = pos / page_size ->
  (if (page + 1) * page_size <=? pos + 1
   then Nat.min (total_pages len - 1) (page + 1) else page) = (pos + 1) / page_size.
Proof.
  intros H0 Hp. destruct (page_bounds pos) as [B1 B2]. rewrite <- Hp in B1, B2.
  destruct (Nat.leb_spec ((page + 1) * page_size) (pos + 1)) as [L|L].
  - destruct len as [|m]; [lia|]. unfold total_pages.
    replace (m / page_size + 1 - 1) with (m / page_size) by lia.
    assert (Hm : page + 1 <= m / page_size).
    { rewrite <- (Nat.div_mul (page + 1) page_size) by (unfold page_size; lia).
      apply Nat.Div0.div_le_mono. lia. }
    rewrite Nat.min_r by exact Hm.
    symmetry. apply div_page; unfold page_size in *; nia.
  - symmetry. apply div_page; unfold page_size in *; nia.
Qed.

Lemma handle_key_cursor_page_aux k st :
  k <> KCollapse ->
  current_pos st < length (get_visible_nodes (tree_root st)) ->
  current_page st = current_pos st / page_size ->
  let st' := snd (handle_key k st) in
  current_pos st' < length (get_visible_nodes (tree_root st'))
  /\ current_page st' = current_pos st' / page_size.
Proof.
  intros Hk Hpos Hpage.
  destruct st as [fs rp t pos page term]; simpl in Hpos, Hpage.
  destruct k; unfold handle_key; cbn [tree_root current_pos current_page search_term].
  - destruct (Nat.ltb_spec 0 pos); simpl; [|auto].
    split; [lia|]. apply key_up_page; assumption.
  - destruct (Nat.ltb_spec pos (length (get_visible_nodes t) - 1)); simpl; [|auto].
    split; [lia|]. apply key_down_page; assumption.
  - destruct (Nat.ltb_spec pos (length (get_visible_nodes t))); simpl; [|auto].
    split; [apply visible_upd_length|]; assumption.
  - destruct (Nat.ltb_spec pos (length (get_visible_nodes t))); simpl; [|auto].
    split; [apply visible_upd_length|]; assumption.
  - destruct (Nat.ltb_spec pos (length (get_visible_nodes t))); simpl; [|auto].
    split; [apply visible_upd_length|]; assumption.
  - simpl. split; [|assumption].
    pose proof (visible_expand_all_length t). lia.
  - contradiction.
  - simpl. auto.
  - simpl. rewrite visible_set_rec_length. auto.
  - destruct (negb (is_empty_string term)); simpl; [auto|].
    rewrite visible_set_rec_length. auto.
  - simpl. rewrite visible_set_rec_length. auto.
  - simpl. rewrite visible_set_rec_length. auto.
  - simpl. rewrite visible_set_rec_length. auto.
  - simpl. auto.
  - simpl. auto.
Qed.

(** ** Sorting *)

(** Adjacent pairs in key order (no element greater than its successor). *)
Fixpoint sorted_adj (l : list node) : bool :=
  match l with
  | x :: ((y :: _) as t) => negb (key_lt y x) && sorted_adj t
  | _ => true
  end.

Fixpoint tree_sorted (n : node) : bool :=
  match n with
  | File _ _ => true
  | Dir _ _ cs => sorted_adj cs && forallb tree_sorted cs
  end.

Lemma str_ltb_asym s1 : forall s2, str_ltb s1 s2 = true -> str_ltb s2 s1 = false.
Proof.
  induction s1 as [|a r1 IH]; intros [|b r2]; simpl; try discriminate; auto.
  destruct (Nat.ltb_spec (nat_of_ascii a) (nat_of_ascii b));
    destruct (Nat.ltb_spec (nat_of_ascii b) (nat_of_ascii a)); try lia; auto.
Qed.

Lemma key_lt_asym a b : key_lt a b = true -> key_lt b a = false.
Proof.
  unfold key_lt. destruct (is_file a), (is_file b); try discriminate; auto;
    apply str_ltb_asym.
Qed.

Lemma insert_sorted_head x y l :
  sorted_adj (y :: l) = true -> key_lt y x = true ->
  sorted_adj (y :: insert_sorted x l) = true.
Proof.
  revert y. induction l as [|z l IH]; intros y Hs Hyx; simpl.
  - rewrite (key_lt_asym _ _ Hyx). reflexivity.
  - simpl in Hs. apply andb_true_iff in Hs as [Hzy Hs].
    destruct (key_lt z x) eqn:Hzx.
    + simpl. rewrite Hzy. simpl. apply (IH z Hs Hzx).
    + simpl. rewrite (key_lt_asym _ _ Hyx). simpl. rewrite Hzx. exact Hs.
Qed.

Lemma insert_sorted_ok x l : sorted_adj l = true -> sorted_adj (insert_sorted x l) = true.
Proof.
  destruct l as [|y l]; intro Hs; [reflexivity|].
  simpl. destruct (key_lt y x) eqn:Hyx.
  - apply insert_sorted_head; assumption.
  - simpl. rewrite Hyx. exact Hs.
Qed.

Lemma sort_children_sorted l : sorted_adj (sort_children l) = true.
Proof. induction l; simpl; [reflexivity|]. apply insert_sorted_ok; assumption. Qed.

Lemma in_insert_sorted x y l : In y (insert_sorted x l) -> y = x \/ In y l.
Proof.
  induction l as [|z l IH]; simpl; [intuition|].
  destruct (key_lt z x); simpl; intuition.
Qed.

Lemma in_sort_children y l : In y (sort_children l) -> In y l.
Proof.
  induction l as [|x l IH]; simpl; [intuition|].
  intro H. apply in_insert_sorted in H. intuition.
Qed.

Lemma sort_children_nil l : sort_children l = [] -> l = [].
Proof.
  destruct l as [|x l]; [reflexivity|]. simpl.
  destruct (sort_children l) as [|y r]; simpl; [discriminate|].
  destruct (key_lt y x); discriminate.
Qed.

Lemma sort_tree_sorted n : tree_sorted (sort_tree n) = true.
Proof.
  induction n as [p s|p e cs IH] using node_ind'; [reflexivity|].
  simpl. rewrite sort_children_sorted. simpl.
  apply forallb_forall. intros x Hx.
  apply in_sort_children, in_map_iff in Hx. destruct Hx as [y [<- Hy]].
  rewrite Forall_forall in IH. apply IH, Hy.
Qed.

Lemma key_lt_strip_sel a b : key_lt (strip_sel a) (strip_sel b) = key_lt a b.
Proof. destruct a, b; reflexivity. Qed.

Lemma tree_sorted_strip_sel n : tree_sorted (strip_sel n) = tree_sorted n.
Proof.
  induction n as [p s|p e cs IH] using node_ind'; [reflexivity|].
  simpl. f_equal.
  - clear IH. induction cs as [|x [|y r] IHc]; [reflexivity|reflexivity|].
    simpl in *. rewrite key_lt_strip_sel, IHc. reflexivity.
  - induction IH as [|c r Hc _ IHr]; simpl; [reflexivity|].
    rewrite Hc, IHr; reflexivity.
Qed.

(** A file-selection assignment: every file gets the flag [sel] gives its path. *)
Fixpoint assign (sel : path -> bool) (n : node) : node :=
  match n with
  | File p _ => File p (sel p)
  | Dir p e cs => Dir p e (map (assign sel) cs)
  end.

Lemma strip_sel_assign sel n : strip_sel (assign sel n) = strip_sel n.
Proof.
  induction n as [p s|p e cs IH] using node_ind'; [reflexivity|].
  simpl. f_equal. rewrite map_map. frame_induction IH.
Qed.

Lemma get_selected_files_filter n :
  get_selected_files n = map fst (filter snd (files_preorder n)).
Proof.
  induction n as [p s|p e cs IH] using node_ind'; [destruct s; reflexivity|].
  simpl. induction IH as [|c r Hc _ IHr]; simpl; [reflexivity|].
  rewrite Hc, IHr, filter_app, map_app. reflexivity.
Qed.

Lemma files_assign sel n :
  files_preorder (assign sel n) = map (fun f => (fst f, sel (fst f))) (files_preorder n).
Proof.
  induction n as [p s|p e cs IH] using node_ind'; [reflexivity|].
  simpl. rewrite map_map, concat_map, map_map. f_equal.
  apply map_ext_in. intros x Hx. rewrite Forall_forall in IH. apply IH, Hx.
Qed.

(** ** Saved selection *)

(** Every directory whose path is a saved folder has all its files selected. *)
Fixpoint folders_covered (saved_folders : list path) (n : node) : bool :=
  match n with
  | File _ _ => true
  | Dir p _ cs =>
      (negb (path_mem p saved_folders) || all_files_selected n)
      && forallb (folders_covered saved_folders) cs
  end.

Lemma covered_set_true D n : folders_covered D (set_selected_recursive true n) = true.
Proof.
  induction n as [p s|p e cs IH] using node_ind'; [reflexivity|].
  change (set_selected_recursive true (Dir p e cs))
    with (Dir p e (map (set_selected_recursive true) cs)).
  pose proof (all_selected_set_true (Dir p e cs)) as Ha.
  cbn [set_selected_recursive] in Ha.
  cbn [folders_covered]. rewrite Ha, orb_true_r, andb_true_l.
  apply forallb_forall. intros x Hx. apply in_map_iff in Hx.
  destruct Hx as [y [<- Hy]]. rewrite Forall_forall in IH. apply IH, Hy.
Qed.

Lemma strip_sel_mark F D n : strip_sel (mark_selected F D n) = strip_sel n.
Proof.
  induction n as [p s|p e cs IH] using node_ind'; simpl.
  - destruct (path_mem p F); reflexivity.
  - destruct (path_mem p D).
    + exact (strip_sel_set_rec true (Dir p e cs)).
    + simpl. f_equal. rewrite map_map. frame_induction IH.
Qed.

Lemma set_rec_idem b n :
  set_selected_recursive b (set_selected_recursive b n) = set_selected_recursive b n.
Proof.
  induction n as [p s|p e cs IH] using node_ind'; [reflexivity|].
  simpl. f_equal. rewrite map_map. frame_induction IH.
Qed.

(** File flags only go up: pairs of (path, selected) in pre-order. *)
Definition flag_le (a b : path * bool) : Prop :=
  fst a = fst b /\ (snd a = true -> snd b = true).

Lemma flag_le_concat {A} (g h : A -> list (path * bool)) (l : list A) :
  Forall (fun x => Forall2 flag_le (g x) (h x)) l ->
  Forall2 flag_le (concat (map g l)) (concat (map h l)).
Proof.
  induction 1; simpl; [constructor|]. apply Forall2_app; assumption.
Qed.

Lemma flag_le_set_true l : Forall2 flag_le l (map (fun f => (fst f, true)) l).
Proof.
  induction l; simpl; constructor; [split; auto|assumption].
Qed.

Lemma mark_monotone F D n :
  Forall2 flag_le (files_preorder n) (files_preorder (mark_selected F D n)).
Proof.
  induction n as [p s|p e cs IH] using node_ind'; simpl.
  - destruct (path_mem p F); simpl; repeat constructor; auto.
  - destruct (path_mem p D).
    + change (Dir p e (map (set_selected_recursive true) cs))
        with (set_selected_recursive true (Dir p e cs)).
      change (concat (map files_preorder cs)) with (files_preorder (Dir p e cs)).
      rewrite files_set_rec. apply flag_le_set_true.
    + simpl. rewrite map_map. apply flag_le_concat. exact IH.
Qed.

Lemma mark_idem F D n : mark_selected F D (mark_selected F D n) = mark_selected F D n.
Proof.
  induction n as [p s|p e cs IH] using node_ind'; simpl.
  - destruct (path_mem p F) eqn:E; simpl; rewrite E; reflexivity.
  - destruct (path_mem p D) eqn:E.
    + change (set_selected_recursive true (Dir p e cs))
        with (Dir p e (map (set_selected_recursive true) cs)).
      simpl. rewrite E. exact (set_rec_idem true (Dir p e cs)).
    + simpl. rewrite E. f_equal. rewrite map_map. frame_induction IH.
Qed.

Lemma mark_covered F D n : folders_covered D (mark_selected F D n) = true.
Proof.
  induction n as [p s|p e cs IH] using node_ind'; simpl.
  - destruct (path_mem p F); reflexivity.
  - destruct (path_mem p D) eqn:E.
    + exact (covered_set_true D (Dir p e cs)).
    + simpl. rewrite E. simpl.
      apply forallb_forall. intros x Hx. apply in_map_iff in Hx.
      destruct Hx as [y [<- Hy]]. rewrite Forall_forall in IH. apply IH, Hy.
Qed.

(** ** Expansion *)

Fixpoint all_dirs_expanded (n : node) : bool :=
  match n with
  | File _ _ => true
  | Dir _ e cs => e && forallb all_dirs_expanded cs
  end.

Fixpoint no_dir_expanded (n : node) : bool :=
  match n with
  | File _ _ => true
  | Dir _ e cs => negb e && forallb no_dir_expanded cs
  end.

Lemma expand_all_expanded n : all_dirs_expanded (expand_all n) = true.
Proof.
  induction n as [p s|p e cs IH] using node_ind'; [reflexivity|].
  simpl. apply forallb_forall. intros x Hx. apply in_map_iff in Hx.
  destruct Hx as [y [<- Hy]]. rewrite Forall_forall in IH. apply IH, Hy.
Qed.

Lemma collapse_all_deep n : forall d, no_dir_expanded (collapse_all (S d) n) = true.
Proof.
  induction n as [p s|p e cs IH] using node_ind'; intro d; [reflexivity|].
  simpl. apply forallb_forall. intros x Hx. apply in_map_iff in Hx.
  destruct Hx as [y [<- Hy]]. rewrite Forall_forall in IH. apply IH, Hy.
Qed.

(** ** Built trees have no empty directory, and keys keep it so *)

Definition wf_children (cs : list node) : Prop :=
  cs <> [] /\ forallb wf cs = true.

Lemma descend_into_wf d k cs : forall cs',
  (forall ccs, forallb wf ccs = true -> wf_children (k ccs)) ->
  forallb wf cs = true -> descend_into d k cs = Some cs' -> wf_children cs'.
Proof.
  induction cs as [|c r IH]; intros cs' Hk Hcs Hd; [discriminate|].
  simpl in Hcs. apply andb_true_iff in Hcs as [Hc Hr].
  destruct c as [fp s|p e ccs]; simpl in Hd.
  - destruct (descend_into d k r) as [r'|] eqn:E; simpl in Hd; [|discriminate].
    injection Hd as <-. destruct (IH r' Hk Hr eq_refl) as [_ Hr'].
    split; [discriminate|]. simpl. exact Hr'.
  - destruct (String.eqb (name p) d).
    + injection Hd as <-. split; [discriminate|].
      destruct ccs as [|c0 ccs]; [discriminate|].
      destruct (Hk (c0 :: ccs) Hc) as [Hne Hw].
      simpl. rewrite Hr, andb_true_r.
      destruct (k (c0 :: ccs)); [contradiction|exact Hw].
    + destruct (descend_into d k r) as [r'|] eqn:E; simpl in Hd; [|discriminate].
      injection Hd as <-. destruct (IH r' Hk Hr eq_refl) as [_ Hr'].
      split; [discriminate|].
      change (wf (Dir p e ccs) && forallb wf r' = true). rewrite Hc, Hr'. reflexivity.
Qed.

Lemma insert_parts_wf dirs : forall cur fp cs,
  forallb wf cs = true -> wf_children (insert_parts cur dirs fp cs).
Proof.
  induction dirs as [|d ds IH]; intros cur fp cs Hcs; simpl.
  - split; [destruct cs; discriminate|]. rewrite forallb_app, Hcs. reflexivity.
  - destruct (descend_into d (insert_parts (cur ++ [d]) ds fp) cs) as [cs'|] eqn:E.
    + apply (descend_into_wf d (insert_parts (cur ++ [d]) ds fp) cs cs'); auto.
    + split; [destruct cs; discriminate|]. rewrite forallb_app, Hcs. simpl.
      destruct (IH (cur ++ [d]) fp [] eq_refl) as [Hne Hw].
      destruct (insert_parts (cur ++ [d]) ds fp []); [contradiction|].
      rewrite Hw. reflexivity.
Qed.

Lemma build_children_wf rp fs : forall cs cs',
  forallb wf cs = true -> build_children rp fs cs = Some cs' ->
  forallb wf cs' = true /\ (fs <> [] \/ cs <> [] -> cs' <> []).
Proof.
  induction fs as [|f fs IH]; intros cs cs' Hcs Hb; simpl in Hb.
  - injection Hb as <-. split; [exact Hcs|]. intros [H|H]; [contradiction|exact H].
  - destruct (relative_to f rp) as [parts|]; [|discriminate].
    destruct (insert_parts_wf (removelast parts) rp f cs Hcs) as [Hne Hw].
    destruct (IH _ cs' Hw Hb) as [Hw' Hne'].
    split; [exact Hw'|]. intros _. apply Hne'. right. exact Hne.
Qed.

Lemma sort_tree_wf n : wf n = true -> wf (sort_tree n) = true.
Proof.
  induction n as [p s|p e cs IH] using node_ind'; intro Hw; [reflexivity|].
  destruct cs as [|c r]; [discriminate|].
  change (forallb wf (c :: r) = true) in Hw.
  pose proof (proj1 (forallb_forall wf (c :: r)) Hw) as Hall.
  cbn [sort_tree wf].
  destruct (sort_children (map sort_tree (c :: r))) as [|x l] eqn:E.
  - apply sort_children_nil in E. discriminate.
  - rewrite <- E. apply forallb_forall. intros y Hy.
    apply in_sort_children, in_map_iff in Hy. destruct Hy as [z [<- Hz]].
    rewrite Forall_forall in IH. apply IH; [exact Hz|apply Hall, Hz].
Qed.

Lemma build_file_tree_wf rp fs t :
  fs <> [] -> build_file_tree rp fs = Some t -> wf t = true.
Proof.
  unfold build_file_tree. intros Hfs Hb.
  destruct (build_children rp fs []) as [cs|] eqn:E; [|discriminate].
  injection Hb as <-. apply (sort_tree_wf (Dir rp true cs)).
  destruct (build_children_wf rp fs [] cs eq_refl E) as [Hw Hne].
  destruct cs as [|c r]; [exfalso; apply (Hne (or_introl Hfs)); reflexivity|].
  exact Hw.
Qed.

Lemma wf_strip_sel n : wf (strip_sel n) = wf n.
Proof.
  induction n as [p s|p e cs IH] using node_ind'; [reflexivity|].
  simpl. destruct cs as [|c r]; [reflexivity|]. simpl.
  inversion IH as [|? ? Hc Hr]; subst. rewrite Hc. f_equal.
  clear Hc IH. induction Hr as [|x l Hx _ IHl]; simpl; [reflexivity|].
  rewrite Hx, IHl. reflexivity.
Qed.

Lemma wf_strip_exp n : wf (strip_exp n) = wf n.
Proof.
  induction n as [p s|p e cs IH] using node_ind'; [reflexivity|].
  simpl. destruct cs as [|c r]; [reflexivity|]. simpl.
  inversion IH as [|? ? Hc Hr]; subst. rewrite Hc. f_equal.
  clear Hc IH. induction Hr as [|x l Hx _ IHl]; simpl; [reflexivity|].
  rewrite Hx, IHl. reflexivity.
Qed.

Lemma wf_same_sel a b : strip_sel a = strip_sel b -> wf a = wf b.
Proof. intro H. rewrite <- (wf_strip_sel a), <- (wf_strip_sel b), H. reflexivity. Qed.

Lemma wf_same_exp a b : strip_exp a = strip_exp b -> wf a = wf b.
Proof. intro H. rewrite <- (wf_strip_exp a), <- (wf_strip_exp b), H. reflexivity. Qed.

Lemma wf_handle_key k st :
  wf (tree_root (snd (handle_key k st))) = wf (tree_root st).
Proof.
  destruct st as [fs rp t pos page term].
  destruct k; unfold handle_key; cbn [tree_root current_pos current_page search_term];
    repeat match goal with
           | |- context [if ?c then _ else _] => destruct c
           end; simpl;
    try reflexivity;
    first
      [ apply wf_same_sel; unfold upd_visible; apply strip_sel_upd, strip_sel_activate
      | apply wf_same_exp; unfold upd_visible; apply strip_exp_upd, strip_exp_set_expanded
      | apply wf_same_exp, strip_exp_expand_all
      | apply wf_same_exp, strip_exp_collapse_all
      | apply wf_same_sel, strip_sel_set_rec ].
Qed.

Lemma wf_init fs rp F D st :
  fs <> [] -> init fs rp F D = Some st -> wf (tree_root st) = true.
Proof.
  unfold init. intros Hfs Hi.
  destruct (build_file_tree rp fs) as [t|] eqn:E; [|discriminate].
  injection Hi as <-. simpl.
  pose proof (build_file_tree_wf rp fs t Hfs E) as Hw.
  destruct F, D; try exact Hw;
    unfold apply_saved_selection; rewrite (wf_same_sel _ t (strip_sel_mark _ _ t)); exact Hw.
Qed.

(** ** Further specification-side definitions for the statements *)

(** Cancel: [QUIT], or [ESC] with no search term. *)
Definition is_cancel (k : key) (st : selector) : bool :=
  match k with
  | KQuit => true
  | KEsc => is_empty_string (search_term st)
  | _ => false
  end.

Definition selection_key (k : key) : bool :=
  match k with KSpace | KAll | KNone | KReset => true | _ => false end.

Definition expansion_key (k : key) : bool :=
  match k with KRight | KLeft | KExpand | KCollapse => true | _ => false end.

(** Every directory child of [n] is expanded. *)
Definition top_dirs_expanded (n : node) : bool :=
  match n with
  | File _ _ => true
  | Dir _ _ cs =>
      forallb (fun c => match c with Dir _ e _ => e | File _ _ => true end) cs
  end.

Lemma get_selected_files_set_false t :
  get_selected_files (set_selected_recursive false t) = [].
Proof.
  rewrite get_selected_files_filter, files_set_rec.
  induction (files_preorder t); simpl; [reflexivity|]. exact IHl.
Qed.

Lemma init_tree fs rp F D st :
  init fs rp F D = Some st ->
  exists t, build_file_tree rp fs = Some t /\ strip_sel (tree_root st) = strip_sel t.
Proof.
  unfold init. intro Hi.
  destruct (build_file_tree rp fs) as [t|]; [|discriminate].
  exists t. split; [reflexivity|].
  injection Hi as <-. cbn [tree_root].
  destruct F, D; try reflexivity; apply strip_sel_mark.
Qed.

Lemma init_visible fs rp F D st :
  fs <> [] -> init fs rp F D = Some st ->
  0 < length (get_visible_nodes (tree_root st)).
Proof.
  intros Hfs Hi. destruct (init_tree fs rp F D st Hi) as [t [Hb Hs]].
  rewrite (visible_length_strip_sel _ _ Hs).
  unfold build_file_tree in Hb.
  destruct (build_children rp fs []) as [cs|] eqn:E; [|discriminate].
  injection Hb as <-.
  destruct (build_children_wf rp fs [] cs eq_refl E) as [_ Hne].
  specialize (Hne (or_introl Hfs)).
  simpl. destruct (sort_children (map sort_tree cs)) as [|x l] eqn:Es.
  - apply sort_children_nil in Es. destruct cs; [contradiction|discriminate].
  - simpl. rewrite length_app, length_traverse. pose proof (vcount_pos x). lia.
Qed.

(** ** Concrete inputs *)

Definition ex_root : path := ["home"%string; "proj"%string].

Definition ex_file (dir nm : string) : path := ex_root ++ [dir; nm].

(** A tree built from [a/x.py] and [a/y.py], as [InteractiveSelector] builds it. *)
Definition ex_selector : option selector :=
  init [ex_file "a" "x.py"; ex_file "a" "y.py"]%string ex_root [] [].

(** Twenty files below one directory [a]. *)
Definition ex_many_files : list path :=
  map (fun i => ex_file "a"%string
                  (String "f"%char (String (ascii_of_nat (65 + i)) EmptyString)))
      (seq 0 20).

Definition ex_many : option selector := init ex_many_files ex_root [] [].

(** Files [src/pkg/x.py] and [src/pkg/y.py]: [src] has one child, [pkg]. *)
Definition ex_nested : option selector :=
  init [ex_root ++ ["src"; "pkg"; "x.py"]%string; ex_root ++ ["src"; "pkg"; "y.py"]%string]
       ex_root [] [].

Definition of_opt (o : option selector) : selector :=
  match o with
  | Some st => st
  | None => mkSelector [] [] (Dir [] true []) 0 0 ""%string
  end.

Definition ex_st : selector := of_opt ex_selector.

Definition ex_dir_a : node :=
  Dir (ex_root ++ ["a"%string]) true
      [File (ex_file "a" "x.py") false; File (ex_file "a" "y.py") false]%string.

Lemma init_cursor fs rp F D st :
  init fs rp F D = Some st -> current_pos st = 0 /\ current_page st = 0.
Proof.
  unfold init. intro Hi. destruct (build_file_tree rp fs); [|discriminate].
  injection Hi as <-. split; reflexivity.
Qed.

(** ** Claims *)

(** C1 (tri-state consistency). The code does not meet it: a directory
    whose children all contribute reports ['all'] even when one of them is
    ['partial']. Built from [src/pkg/x.py] and [src/pkg/y.py], after moving
    down twice and pressing SPACE, only [x.py] is selected, [pkg] reports
    ['partial'], and [src] reports ['all'] while [y.py] below it is not
    selected. *)
Theorem selection_state_counts_partial_as_all :
  match ex_nested with
  | Some st0 =>
      let st := steps [KDown; KDown; KSpace] st0 in
      match get_visible_nodes (tree_root st) with
      | (src, _) :: (pkg, _) :: _ =>
          get_selected_files (tree_root st) = [ex_root ++ ["src"; "pkg"; "x.py"]%string]
          /\ get_selection_state pkg = SPartial
          /\ get_selection_state src = SAll
          /\ all_files_selected src = false
      | _ => False
      end
  | None => False
  end.
Proof. vm_compute. repeat split. Qed.

(** C2 (toggle on activate). SPACE on a directory under the cursor
    replaces it, at the same place of the visible list, by the directory
    with its whole subtree set: when its state was ['none'] or ['partial']
    every file below is selected and it reports ['all']; when it was
    ['all'] every file below is deselected and it reports ['none']. The
    directory has no empty directory below it, as in every tree the
    selector builds ([build_file_tree_wf], [wf_init], [wf_handle_key]). *)
Theorem space_toggles_directory st d depth :
  nth_error (get_visible_nodes (tree_root st)) (current_pos st) = Some (d, depth) ->
  is_file d = false -> wf d = true ->
  let st' := snd (handle_key KSpace st) in
  nth_error (get_visible_nodes (tree_root st')) (current_pos st) = Some (activate d, depth)
  /\ (get_selection_state d <> SAll ->
      get_selection_state (activate d) = SAll /\ all_files_selected (activate d) = true)
  /\ (get_selection_state d = SAll ->
      get_selection_state (activate d) = SNone /\ no_file_selected (activate d) = true).
Proof.
  intros Hn Hd Hw st'.
  assert (Hlt : current_pos st < length (get_visible_nodes (tree_root st))).
  { apply nth_error_Some. rewrite Hn. discriminate. }
  split.
  - unfold st', handle_key.
    destruct (Nat.ltb_spec (current_pos st) (length (get_visible_nodes (tree_root st))));
      [|lia].
    simpl. rewrite visible_upd_nth by exact Hlt. rewrite Hn. reflexivity.
  - destruct d as [fp s|p e cs]; [discriminate|].
    unfold activate. cbv zeta.
    split; intro Hs.
    + destruct (get_selection_state (Dir p e cs)); [contradiction| |];
        cbn [sel_state_eqb negb];
        (split; [exact (state_set_true _ Hw)|apply all_selected_set_true]).
    + rewrite Hs. cbn [sel_state_eqb negb].
      split; [apply state_set_false|apply none_selected_set_false].
Qed.

Lemma space_toggles_directory_witness :
  nth_error (get_visible_nodes (tree_root ex_st)) (current_pos ex_st) = Some (ex_dir_a, 1)
  /\ is_file ex_dir_a = false /\ wf ex_dir_a = true
  /\ (let st' := snd (handle_key KSpace ex_st) in
      nth_error (get_visible_nodes (tree_root st')) (current_pos ex_st)
      = Some (activate ex_dir_a, 1)
      /\ (get_selection_state ex_dir_a <> SAll ->
          get_selection_state (activate ex_dir_a) = SAll
          /\ all_files_selected (activate ex_dir_a) = true)
      /\ (get_selection_state ex_dir_a = SAll ->
          get_selection_state (activate ex_dir_a) = SNone
          /\ no_file_selected (activate ex_dir_a) = true)).
Proof.
  split; [vm_compute; reflexivity|].
  split; [reflexivity|]. split; [reflexivity|].
  apply space_toggles_directory; [vm_compute; reflexivity|reflexivity|reflexivity].
Defined.

(** C3 (reconciliation precedence). After [_apply_saved_selection], every
    directory whose path is a saved folder has every file below it
    selected, whatever the saved files say; only selection flags change;
    and at a saved folder the walk stops with [set_selected_recursive(True)],
    so the saved files are not consulted below it. *)
Theorem saved_folder_selects_whole_subtree F D t :
  folders_covered D (apply_saved_selection F D t) = true
  /\ strip_sel (apply_saved_selection F D t) = strip_sel t
  /\ (forall p e cs F', path_mem p D = true ->
        mark_selected F D (Dir p e cs) = set_selected_recursive true (Dir p e cs)
        /\ mark_selected F' D (Dir p e cs) = mark_selected F D (Dir p e cs)).
Proof.
  split; [apply mark_covered|]. split; [apply strip_sel_mark|].
  intros p e cs F' Hp. simpl. rewrite Hp. split; reflexivity.
Qed.

Definition ex_src_dir : node :=
  Dir (ex_root ++ ["src"%string]) true
      [File (ex_file "src" "new.txt") false; File (ex_file "src" "old.txt") false]%string.

Lemma saved_folder_selects_whole_subtree_witness :
  let F := [ex_file "src" "old.txt"]%string in
  let D := [ex_root ++ ["src"%string]] in
  let t := Dir ex_root true [ex_src_dir] in
  path_mem (ex_root ++ ["src"%string]) D = true
  /\ folders_covered D (apply_saved_selection F D t) = true
  /\ strip_sel (apply_saved_selection F D t) = strip_sel t
  /\ mark_selected F D ex_src_dir = set_selected_recursive true ex_src_dir
  /\ mark_selected [] D ex_src_dir = mark_selected F D ex_src_dir.
Proof.
  intros F D t.
  destruct (saved_folder_selects_whole_subtree F D t) as [H1 [H2 H3]].
  assert (Hp : path_mem (ex_root ++ ["src"%string]) D = true) by (vm_compute; reflexivity).
  split; [exact Hp|]. split; [exact H1|]. split; [exact H2|].
  exact (H3 (ex_root ++ ["src"%string]) true _ [] Hp).
Defined.

(** C4 (ignore-pattern examples). [node_modules/] ignores
    [node_modules/x.js] and [a/b/node_modules/y.js] but not
    [my_node_modules_folder/y.js]; [*.log] ignores [app.log] and
    [logs/app.log] but not [app.log.bak]. *)
Theorem gitignore_spec_examples :
  map (fun rel => is_ignored_by_gitignore (ex_root ++ rel) ex_root ["node_modules/"%string])
      [["node_modules"; "x.js"]; ["a"; "b"; "node_modules"; "y.js"];
       ["my_node_modules_folder"; "y.js"]]%string
  = [true; true; false]
  /\ map (fun rel => is_ignored_by_gitignore (ex_root ++ rel) ex_root ["*.log"%string])
         [["app.log"]; ["logs"; "app.log"]; ["app.log.bak"]]%string
     = [true; true; false].
Proof. split; vm_compute; reflexivity. Qed.

(** C5 (cancel clears state). From any state, QUIT, or ESC with no search
    term, ends the loop with every file deselected, and [run] returns the
    empty list. *)
Theorem cancel_clears_selection st k ks :
  is_cancel k st = true ->
  exists st',
    run_loop (k :: ks) st = Some ([], st')
    /\ no_file_selected (tree_root st') = true
    /\ (files st <> [] -> run (k :: ks) st = Some ([], st')).
Proof.
  intro Hc.
  assert (Hk : handle_key k st
               = (false, set_tree (set_selected_recursive false (tree_root st)) st)).
  { destruct k; try discriminate; [reflexivity|].
    simpl in Hc. unfold handle_key. rewrite Hc. reflexivity. }
  exists (set_tree (set_selected_recursive false (tree_root st)) st).
  assert (Hl : run_loop (k :: ks) st
               = Some ([], set_tree (set_selected_recursive false (tree_root st)) st)).
  { simpl. rewrite Hk. simpl. rewrite get_selected_files_set_false. reflexivity. }
  split; [exact Hl|]. split; [apply none_selected_set_false|].
  intro Hf. unfold run. destruct (files st); [contradiction|exact Hl].
Qed.

Lemma cancel_clears_selection_witness :
  is_cancel KQuit ex_st = true
  /\ exists st',
       run_loop [KQuit] ex_st = Some ([], st')
       /\ no_file_selected (tree_root st') = true
       /\ (files ex_st <> [] -> run [KQuit] ex_st = Some ([], st')).
Proof.
  split; [reflexivity|]. apply (cancel_clears_selection ex_st KQuit []). reflexivity.
Defined.

(** C6 (cursor and page bounds), as the code has it. The cursor/page
    condition ([currentPage] clamped to [0 .. totalPages-1], cursor inside
    the visible list and on the current page) holds in the initial state of
    a non-empty selector and is kept by every key except collapse-all,
    which may shorten the visible list below the cursor and re-clamps
    nothing. *)
Theorem handle_key_keeps_cursor_page :
  (forall fs rp F D st,
      fs <> [] -> init fs rp F D = Some st -> cursor_page_ok st = true)
  /\ (forall k st,
      k <> KCollapse -> cursor_page_ok st = true ->
      cursor_page_ok (snd (handle_key k st)) = true).
Proof.
  split.
  - intros fs rp F D st Hfs Hi. apply cursor_page_ok_iff.
    destruct (init_cursor fs rp F D st Hi) as [-> ->].
    split; [exact (init_visible fs rp F D st Hfs Hi)|reflexivity].
  - intros k st Hk Hok. apply cursor_page_ok_iff in Hok as [H1 H2].
    apply cursor_page_ok_iff. apply handle_key_cursor_page_aux; assumption.
Qed.

Lemma handle_key_keeps_cursor_page_witness :
  init [ex_file "a" "x.py"; ex_file "a" "y.py"]%string ex_root [] [] = Some ex_st
  /\ cursor_page_ok ex_st = true
  /\ cursor_page_ok (snd (handle_key KDown ex_st)) = true.
Proof.
  assert (Hi : init [ex_file "a" "x.py"; ex_file "a" "y.py"]%string ex_root [] []
               = Some ex_st) by (vm_compute; reflexivity).
  destruct handle_key_keeps_cursor_page as [Hinit Hstep].
  assert (Hok : cursor_page_ok ex_st = true)
    by (apply (Hinit [ex_file "a" "x.py"; ex_file "a" "y.py"]%string ex_root [] []);
        [discriminate|exact Hi]).
  split; [exact Hi|]. split; [exact Hok|].
  apply Hstep; [discriminate|exact Hok].
Defined.

(** C6 fails as stated: twenty files under [a] give 21 visible rows;
    sixteen DOWN keys put the cursor on row 16, page 1, where the condition
    holds; collapse-all closes [a], the list shrinks to one row, and the
    cursor (16) and page (1) are left outside it. *)
Lemma collapse_all_leaves_cursor_off_list :
  let st := steps (repeat KDown 16) (of_opt ex_many) in
  let st' := snd (handle_key KCollapse st) in
  ex_many <> None
  /\ cursor_page_ok st = true
  /\ length (get_visible_nodes (tree_root st')) = 1
  /\ current_pos st' = 16 /\ current_page st' = 1
  /\ cursor_page_ok st' = false.
Proof. vm_compute. split; [discriminate|]. repeat split. Qed.

(** Expand-all and collapse-all on every tree (the behaviour behind C7). Expand-all
    expands every directory. Collapse-all is called on the root with
    [depth = 0]: the root stays expanded and every other directory,
    the top-level directories shown included, is collapsed. Neither
    touches anything but [expanded] flags. *)
Theorem expand_all_collapse_all t p e cs :
  all_dirs_expanded (expand_all t) = true
  /\ strip_exp (expand_all t) = strip_exp t
  /\ collapse_all 0 (Dir p e cs) = Dir p true (map (collapse_all 1) cs)
  /\ forallb no_dir_expanded (map (collapse_all 1) cs) = true
  /\ strip_exp (collapse_all 0 (Dir p e cs)) = strip_exp (Dir p e cs).
Proof.
  split; [apply expand_all_expanded|].
  split; [apply strip_exp_expand_all|].
  split; [reflexivity|].
  split; [|apply strip_exp_collapse_all].
  apply forallb_forall. intros x Hx. apply in_map_iff in Hx.
  destruct Hx as [y [<- _]]. apply collapse_all_deep.
Qed.

(** C7, a defect of [_collapse_all]: its docstring ("collapse all folders
    except the first level") and the spec keep the top level open, but
    [depth == 0] is the hidden root, one level above the directories
    shown. In the tree built from [a/x.py] and [a/y.py], the top-level
    directory [a] is expanded, and the collapse-all key closes it. *)
Lemma collapse_all_closes_top_level :
  top_dirs_expanded (tree_root ex_st) = true
  /\ top_dirs_expanded (tree_root (snd (handle_key KCollapse ex_st))) = false.
Proof. vm_compute. split; reflexivity. Qed.

Lemma filter_assign_preorder (sel : path -> bool) (l : list (path * bool)) :
  map fst (filter snd (map (fun f => (fst f, sel (fst f))) l)) = filter sel (map fst l).
Proof.
  induction l as [|[p b] l IH]; simpl; [reflexivity|].
  destruct (sel p); simpl; rewrite IH; reflexivity.
Qed.

(** C8 (extraction ordering). Take a tree as [_sort_tree_children] leaves
    it ([build_file_tree] returns [sort_tree] of the raw tree) and give
    its files any selection flags. Then [get_selected_files] returns exactly
    the selected paths, in the tree's depth-first pre-order of files, and
    every child list is ordered by the key (directories before files, then
    lower-cased name). The result depends only on the flags, not on the
    order in which they were set. *)
Theorem selected_files_in_sorted_preorder t0 (sel : path -> bool) :
  get_selected_files (assign sel (sort_tree t0))
  = filter sel (map fst (files_preorder (sort_tree t0)))
  /\ tree_sorted (assign sel (sort_tree t0)) = true.
Proof.
  split.
  - rewrite get_selected_files_filter, files_assign. apply filter_assign_preorder.
  - rewrite <- tree_sorted_strip_sel, strip_sel_assign, tree_sorted_strip_sel.
    apply sort_tree_sorted.
Qed.

(** C9 (frame property). [set_selected_recursive] and the selection keys
    (SPACE, ALL, NONE, R) change nothing but files' [selected] flags: paths,
    children and their order, and [expanded] flags are kept. The expansion
    keys (RIGHT, LEFT, EXPAND, COLLAPSE) change nothing but directories'
    [expanded] flags. *)
Theorem selection_and_expansion_frames :
  (forall b n, strip_sel (set_selected_recursive b n) = strip_sel n)
  /\ (forall k st, selection_key k = true ->
        strip_sel (tree_root (snd (handle_key k st))) = strip_sel (tree_root st))
  /\ (forall k st, expansion_key k = true ->
        strip_exp (tree_root (snd (handle_key k st))) = strip_exp (tree_root st)).
Proof.
  split; [exact strip_sel_set_rec|]. split.
  - intros k st Hk. destruct st as [fs rp t pos page term].
    destruct k; try discriminate; unfold handle_key; cbn [tree_root current_pos];
      try (destruct (_ <? _)); simpl; try reflexivity;
      first [apply strip_sel_upd, strip_sel_activate | apply strip_sel_set_rec].
  - intros k st Hk. destruct st as [fs rp t pos page term].
    destruct k; try discriminate; unfold handle_key; cbn [tree_root current_pos];
      try (destruct (_ <? _)); simpl; try reflexivity;
      first [ apply strip_exp_upd, strip_exp_set_expanded
            | apply strip_exp_expand_all | apply strip_exp_collapse_all ].
Qed.

Lemma selection_and_expansion_frames_witness :
  selection_key KSpace = true
  /\ strip_sel (tree_root (snd (handle_key KSpace ex_st))) = strip_sel (tree_root ex_st)
  /\ expansion_key KLeft = true
  /\ strip_exp (tree_root (snd (handle_key KLeft ex_st))) = strip_exp (tree_root ex_st).
Proof.
  destruct selection_and_expansion_frames as [_ [Hs He]].
  split; [reflexivity|]. split; [apply Hs; reflexivity|].
  split; [reflexivity|]. apply He; reflexivity.
Defined.

(** C10 (monotonicity of reconciliation). [_apply_saved_selection] only
    raises flags: file by file in pre-order, a selected file stays
    selected; nothing else changes; applying it twice is applying it once. *)
Theorem saved_selection_monotone_idempotent F D t :
  Forall2 flag_le (files_preorder t) (files_preorder (apply_saved_selection F D t))
  /\ strip_sel (apply_saved_selection F D t) = strip_sel t
  /\ apply_saved_selection F D (apply_saved_selection F D t) = apply_saved_selection F D t.
Proof.
  split; [apply mark_monotone|]. split; [apply strip_sel_mark|]. apply mark_idem.
Qed.

(* ------------------------------------------------------------------ *)
(** * Further properties of the code *)

(** ** Building the tree *)

(** The paths of the files below a node, in pre-order. *)
Definition fpaths (n : node) : list path := map fst (files_preorder n).

Definition cpaths (cs : list node) : list path := concat (map fpaths cs).

Lemma fpaths_dir p e cs : fpaths (Dir p e cs) = cpaths cs.
Proof.
  unfold fpaths, cpaths. simpl. rewrite concat_map, map_map. reflexivity.
Qed.

Lemma cpaths_app a b : cpaths (a ++ b) = cpaths a ++ cpaths b.
Proof. unfold cpaths. rewrite map_app, concat_app. reflexivity. Qed.

Lemma cpaths_cons c r : cpaths (c :: r) = fpaths c ++ cpaths r.
Proof. reflexivity. Qed.

Lemma cpaths_single c : cpaths [c] = fpaths c.
Proof. unfold cpaths. simpl. apply app_nil_r. Qed.

Lemma cpaths_perm l l' : Permutation l l' -> Permutation (cpaths l) (cpaths l').
Proof.
  induction 1 as [|x l l' _ IH|x y l|l l' l'' _ IH1 _ IH2].
  - constructor.
  - rewrite !cpaths_cons. apply Permutation_app_head, IH.
  - rewrite !cpaths_cons, !app_assoc. apply Permutation_app_tail, Permutation_app_comm.
  - eapply Permutation_trans; eassumption.
Qed.

Lemma insert_sorted_perm x l : Permutation (insert_sorted x l) (x :: l).
Proof.
  induction l as [|y l IH]; simpl; [constructor; constructor|].
  destruct (key_lt y x).
  - eapply Permutation_trans; [apply perm_skip, IH|apply perm_swap].
  - apply Permutation_refl.
Qed.

Lemma sort_children_perm l : Permutation (sort_children l) l.
Proof.
  induction l as [|x l IH]; simpl; [constructor|].
  eapply Permutation_trans; [apply insert_sorted_perm|apply perm_skip, IH].
Qed.

Lemma sort_tree_fpaths n : Permutation (fpaths (sort_tree n)) (fpaths n).
Proof.
  induction n as [p s|p e cs IH] using node_ind'; [apply Permutation_refl|].
  cbn [sort_tree]. rewrite !fpaths_dir.
  eapply Permutation_trans; [apply cpaths_perm, sort_children_perm|].
  induction IH as [|c r Hc _ IHr]; [constructor|].
  simpl map. rewrite !cpaths_cons. apply Permutation_app; assumption.
Qed.

Lemma descend_into_perm d k extra cs : forall cs',
  (forall ccs, Permutation (cpaths (k ccs)) (extra ++ cpaths ccs)) ->
  descend_into d k cs = Some cs' -> Permutation (cpaths cs') (extra ++ cpaths cs).
Proof.
  induction cs as [|c r IH]; intros cs' Hk Hd; [discriminate|].
  destruct c as [fp s|p e ccs]; simpl in Hd.
  - destruct (descend_into d k r) as [r'|]; simpl in Hd; [|discriminate].
    injection Hd as <-. rewrite !cpaths_cons.
    eapply Permutation_trans; [apply Permutation_app_head, (IH r' Hk eq_refl)|].
    rewrite !app_assoc. apply Permutation_app_tail, Permutation_app_comm.
  - destruct (String.eqb (name p) d).
    + injection Hd as <-. rewrite !cpaths_cons, !fpaths_dir, app_assoc.
      apply Permutation_app_tail, Hk.
    + destruct (descend_into d k r) as [r'|]; simpl in Hd; [|discriminate].
      injection Hd as <-. rewrite !cpaths_cons.
      eapply Permutation_trans; [apply Permutation_app_head, (IH r' Hk eq_refl)|].
      rewrite !app_assoc. apply Permutation_app_tail, Permutation_app_comm.
Qed.

Lemma insert_parts_perm dirs : forall cur fp cs,
  Permutation (cpaths (insert_parts cur dirs fp cs)) (fp :: cpaths cs).
Proof.
  induction dirs as [|d ds IH]; intros cur fp cs; simpl.
  - rewrite cpaths_app. change (cpaths [File fp false]) with [fp].
    apply Permutation_sym, Permutation_cons_append.
  - destruct (descend_into d (insert_parts (cur ++ [d]) ds fp) cs) as [cs'|] eqn:E.
    + apply (descend_into_perm d (insert_parts (cur ++ [d]) ds fp) [fp] cs cs'); [|exact E].
      intro ccs. apply IH.
    + rewrite cpaths_app, cpaths_single, fpaths_dir.
      eapply Permutation_trans; [apply Permutation_app_head, IH|].
      change (cpaths []) with (@nil path).
      apply Permutation_sym, Permutation_cons_append.
Qed.

Lemma build_children_perm rp fs : forall cs cs',
  build_children rp fs cs = Some cs' -> Permutation (cpaths cs') (fs ++ cpaths cs).
Proof.
  induction fs as [|f fs IH]; intros cs cs' Hb; simpl in Hb.
  - injection Hb as <-. apply Permutation_refl.
  - destruct (relative_to f rp) as [parts|]; [|discriminate].
    eapply Permutation_trans; [apply (IH _ _ Hb)|].
    eapply Permutation_trans; [apply Permutation_app_head, insert_parts_perm|].
    apply Permutation_sym, Permutation_middle.
Qed.

Lemma build_children_none rp fs : forall cs,
  build_children rp fs cs = None <-> exists f, In f fs /\ relative_to f rp = None.
Proof.
  induction fs as [|f fs IH]; intro cs; simpl.
  - split; [discriminate|]. intros [f [[] _]].
  - destruct (relative_to f rp) as [parts|] eqn:E.
    + rewrite IH. split.
      * intros [g [Hg Hr]]. exists g. split; [right; exact Hg|exact Hr].
      * intros [g [[<-|Hg] Hr]]; [congruence|]. exists g. split; assumption.
    + split; [intros _; exists f; split; [left; reflexivity|exact E]|reflexivity].
Qed.

(** A fresh node: a file not selected, a directory expanded
    ([TreeNode.__init__] sets [expanded = not is_file]). *)
Definition fresh (n : node) : bool :=
  match n with File _ s => negb s | Dir _ e _ => e end.

Fixpoint node_all (f : node -> bool) (n : node) : bool :=
  f n && match n with File _ _ => true | Dir _ _ cs => forallb (node_all f) cs end.

Lemma descend_into_fresh d k cs : forall cs',
  (forall ccs, forallb (node_all fresh) ccs = true -> forallb (node_all fresh) (k ccs) = true) ->
  forallb (node_all fresh) cs = true -> descend_into d k cs = Some cs' ->
  forallb (node_all fresh) cs' = true.
Proof.
  induction cs as [|c r IH]; intros cs' Hk Hcs Hd; [discriminate|].
  simpl in Hcs. apply andb_true_iff in Hcs as [Hc Hr].
  destruct c as [fp s|p e ccs]; simpl in Hd.
  - destruct (descend_into d k r) as [r'|] eqn:E; simpl in Hd; [|discriminate].
    injection Hd as <-.
    change (node_all fresh (File fp s) && forallb (node_all fresh) r' = true).
    rewrite Hc. exact (IH r' Hk Hr eq_refl).
  - destruct (String.eqb (name p) d).
    + injection Hd as <-. simpl in *. apply andb_true_iff in Hc as [He Hcc].
      rewrite He, Hk, Hr by exact Hcc. reflexivity.
    + destruct (descend_into d k r) as [r'|] eqn:E; simpl in Hd; [|discriminate].
      injection Hd as <-. change (node_all fresh (Dir p e ccs) && forallb (node_all fresh) r' = true).
      rewrite Hc. exact (IH r' Hk Hr eq_refl).
Qed.

Lemma insert_parts_fresh dirs : forall cur fp cs,
  forallb (node_all fresh) cs = true ->
  forallb (node_all fresh) (insert_parts cur dirs fp cs) = true.
Proof.
  induction dirs as [|d ds IH]; intros cur fp cs Hcs; simpl.
  - rewrite forallb_app, Hcs. reflexivity.
  - destruct (descend_into d (insert_parts (cur ++ [d]) ds fp) cs) as [cs'|] eqn:E.
    + apply (descend_into_fresh d (insert_parts (cur ++ [d]) ds fp) cs cs'); auto.
    + rewrite forallb_app, Hcs. simpl. rewrite (IH _ fp [] eq_refl). reflexivity.
Qed.

Lemma build_children_fresh rp fs : forall cs cs',
  forallb (node_all fresh) cs = true -> build_children rp fs cs = Some cs' ->
  forallb (node_all fresh) cs' = true.
Proof.
  induction fs as [|f fs IH]; intros cs cs' Hcs Hb; simpl in Hb.
  - injection Hb as <-. exact Hcs.
  - destruct (relative_to f rp) as [parts|]; [|discriminate].
    exact (IH _ _ (insert_parts_fresh _ _ _ _ Hcs) Hb).
Qed.

Lemma sort_tree_fresh n : node_all fresh n = true -> node_all fresh (sort_tree n) = true.
Proof.
  induction n as [p s|p e cs IH] using node_ind'; intro H; [exact H|].
  simpl in *. apply andb_true_iff in H as [He Hcs]. rewrite He. simpl.
  apply forallb_forall. intros x Hx.
  apply in_sort_children, in_map_iff in Hx. destruct Hx as [y [<- Hy]].
  rewrite Forall_forall in IH. apply IH; [exact Hy|].
  exact (proj1 (forallb_forall _ cs) Hcs y Hy).
Qed.

Lemma fresh_expanded n : node_all fresh n = true -> all_dirs_expanded n = true.
Proof.
  induction n as [p s|p e cs IH] using node_ind'; intro H; [reflexivity|].
  simpl in *. apply andb_true_iff in H as [He Hcs]. rewrite He. simpl.
  apply forallb_forall. intros x Hx. rewrite Forall_forall in IH.
  apply IH; [exact Hx|]. exact (proj1 (forallb_forall _ cs) Hcs x Hx).
Qed.

Lemma fresh_unselected n : node_all fresh n = true -> get_selected_files n = [].
Proof.
  induction n as [p s|p e cs IH] using node_ind'; intro H.
  - destruct s; [discriminate|reflexivity].
  - simpl in *. apply andb_true_iff in H as [_ Hcs].
    induction IH as [|c r Hc _ IHr]; [reflexivity|].
    simpl in *. apply andb_true_iff in Hcs as [H1 H2]. rewrite Hc, IHr; auto.
Qed.

(** The files listed by a visible-node list, in order. *)
Definition visible_files (l : list (node * nat)) : list path :=
  flat_map (fun x => match fst x with File p _ => [p] | Dir _ _ _ => [] end) l.

Lemma visible_files_app a b : visible_files (a ++ b) = visible_files a ++ visible_files b.
Proof. unfold visible_files. apply flat_map_app. Qed.

Lemma traverse_expanded_files n : forall d,
  all_dirs_expanded n = true -> visible_files (traverse d n) = fpaths n.
Proof.
  induction n as [p s|p e cs IH] using node_ind'; intros d H; [reflexivity|].
  simpl in H. apply andb_true_iff in H as [He Hcs]. subst e.
  rewrite fpaths_dir. cbn [traverse]. unfold visible_files. simpl.
  fold visible_files.
  induction IH as [|c r Hc _ IHr]; [reflexivity|].
  simpl in Hcs. apply andb_true_iff in Hcs as [H1 H2].
  simpl. rewrite visible_files_app, cpaths_cons, Hc by exact H1. f_equal. auto.
Qed.

Lemma build_file_tree_fresh rp fs t :
  build_file_tree rp fs = Some t -> node_all fresh t = true.
Proof.
  unfold build_file_tree. intro Hb.
  destruct (build_children rp fs []) as [cs|] eqn:E; [|discriminate].
  injection Hb as <-. apply (sort_tree_fresh (Dir rp true cs)). simpl.
  exact (build_children_fresh rp fs [] cs eq_refl E).
Qed.

Lemma visible_files_root t :
  all_dirs_expanded t = true -> is_file t = false ->
  visible_files (get_visible_nodes t) = fpaths t.
Proof.
  intros He Hf. destruct t as [p s|p e cs]; [discriminate|].
  rewrite <- (traverse_expanded_files (Dir p e cs) 0 He).
  simpl in He. apply andb_true_iff in He as [He _]. subst e. reflexivity.
Qed.

Lemma file_count_preorder n : get_file_count n = length (files_preorder n).
Proof.
  induction n as [p s|p e cs IH] using node_ind'; [reflexivity|].
  simpl. induction IH as [|c r Hc _ IHr]; [reflexivity|].
  simpl. rewrite length_app, Hc, IHr. reflexivity.
Qed.

Lemma filter_length_eq {A} (f : A -> bool) (l : list A) :
  length (filter f l) = length l <-> forallb f l = true.
Proof.
  induction l as [|x l IH]; simpl; [tauto|].
  pose proof (filter_length_le f l).
  destruct (f x); simpl.
  - split; intro H0; [apply IH; lia|f_equal; apply IH, H0].
  - split; [lia|discriminate].
Qed.

(** X1 ([TreeNode.get_file_count], [get_selected_files]; the
    ["(selected/total)"] line of [_display_tree]). [get_file_count] is the
    number of files below the node; the selected files never outnumber
    it, and they are as many exactly when every file is selected. *)
Theorem selected_count_le_file_count t :
  get_file_count t = length (files_preorder t)
  /\ length (get_selected_files t) <= get_file_count t
  /\ (length (get_selected_files t) = get_file_count t <-> all_files_selected t = true).
Proof.
  rewrite file_count_preorder, get_selected_files_filter, length_map.
  split; [reflexivity|]. split; [apply filter_length_le|].
  apply filter_length_eq.
Qed.

(** X2 ([InteractiveSelector._build_file_tree]). Building the tree fails
    (the uncaught [ValueError] of [relative_to]) exactly when some file of
    the list is not below [root_path]. *)
Theorem build_file_tree_fails_iff rp fs :
  build_file_tree rp fs = None <-> exists f, In f fs /\ relative_to f rp = None.
Proof.
  unfold build_file_tree. rewrite <- (build_children_none rp fs []).
  destruct (build_children rp fs []); split; congruence.
Qed.

Lemma build_file_tree_perm rp fs t :
  build_file_tree rp fs = Some t -> Permutation (fpaths t) fs.
Proof.
  unfold build_file_tree. intro Hb.
  destruct (build_children rp fs []) as [cs|] eqn:E; [|discriminate].
  injection Hb as <-.
  eapply Permutation_trans; [apply (sort_tree_fpaths (Dir rp true cs))|].
  rewrite fpaths_dir.
  eapply Permutation_trans; [apply (build_children_perm rp fs [] cs E)|].
  rewrite app_nil_r. apply Permutation_refl.
Qed.

(** X3 ([InteractiveSelector._build_file_tree], [_sort_tree_children]).
    The built tree holds every file of the list exactly once: the paths of
    its file nodes, in pre-order, are a permutation of [files]. *)
Theorem build_file_tree_files_perm rp fs t :
  build_file_tree rp fs = Some t -> Permutation (fpaths t) fs.
Proof. apply build_file_tree_perm. Qed.

Definition ex_files3 : list path :=
  [ex_file "b" "z.py"; ex_file "a" "x.py"; ex_root ++ ["top.md"%string]].

Lemma build_file_tree_files_perm_witness :
  exists t, build_file_tree ex_root ex_files3 = Some t
            /\ Permutation (fpaths t) ex_files3.
Proof.
  eexists. split; [vm_compute; reflexivity|].
  apply (build_file_tree_files_perm ex_root). vm_compute. reflexivity.
Defined.

(** X4 ([InteractiveSelector.__init__] without a saved selection).
    The selector starts with every directory expanded (a new directory
    node has [expanded = not is_file]) and no file selected, so every
    file of the list is on the visible list. *)
Theorem init_all_expanded_nothing_selected fs rp st :
  init fs rp [] [] = Some st ->
  all_dirs_expanded (tree_root st) = true
  /\ get_selected_files (tree_root st) = []
  /\ Permutation (visible_files (get_visible_nodes (tree_root st))) fs.
Proof.
  unfold init. intro Hi.
  destruct (build_file_tree rp fs) as [t|] eqn:E; [|discriminate].
  injection Hi as <-. cbn [tree_root].
  pose proof (build_file_tree_fresh rp fs t E) as Hf.
  pose proof (fresh_expanded t Hf) as He.
  split; [exact He|]. split; [apply fresh_unselected, Hf|].
  rewrite visible_files_root; [apply (build_file_tree_perm rp fs t E)|exact He|].
  unfold build_file_tree in E. destruct (build_children rp fs []); [|discriminate].
  injection E as <-. reflexivity.
Qed.

Lemma init_all_expanded_nothing_selected_witness :
  exists st, init ex_files3 ex_root [] [] = Some st
  /\ all_dirs_expanded (tree_root st) = true
  /\ get_selected_files (tree_root st) = []
  /\ Permutation (visible_files (get_visible_nodes (tree_root st))) ex_files3.
Proof.
  eexists. split; [vm_compute; reflexivity|].
  apply (init_all_expanded_nothing_selected ex_files3 ex_root). vm_compute. reflexivity.
Defined.

(** ** Ignore patterns *)

Lemma is_ignored_cons fp rp p ps :
  is_ignored_by_gitignore fp rp (p :: ps)
  = match relative_to fp rp with
    | None => false
    | Some rel => existsb (pattern_matches (join_slash rel) rel) (p :: ps)
    end.
Proof. reflexivity. Qed.

Lemma is_ignored_app fp rp ps1 ps2 :
  is_ignored_by_gitignore fp rp (ps1 ++ ps2)
  = is_ignored_by_gitignore fp rp ps1 || is_ignored_by_gitignore fp rp ps2.
Proof.
  destruct ps1 as [|p1 r1]; [reflexivity|].
  rewrite <- app_comm_cons, !is_ignored_cons.
  destruct ps2 as [|p2 r2].
  - rewrite app_nil_r. simpl. destruct (relative_to fp rp); rewrite ?orb_false_r; reflexivity.
  - rewrite is_ignored_cons. destruct (relative_to fp rp); [|reflexivity].
    rewrite app_comm_cons, existsb_app. reflexivity.
Qed.

(** X5 ([GitignoreHandler.is_ignored_by_gitignore]). Patterns act
    independently: a file is ignored by two pattern lists put together
    exactly when one of the lists ignores it, so the order of the
    patterns does not matter and no pattern (a ["!..."] one included)
    can make a file not ignored. *)
Theorem gitignore_patterns_union fp rp ps1 ps2 :
  is_ignored_by_gitignore fp rp (ps1 ++ ps2)
  = is_ignored_by_gitignore fp rp ps1 || is_ignored_by_gitignore fp rp ps2
  /\ is_ignored_by_gitignore fp rp (ps1 ++ ps2) = is_ignored_by_gitignore fp rp (ps2 ++ ps1).
Proof.
  rewrite !is_ignored_app. split; [reflexivity|apply orb_comm].
Qed.

(** X6 ([GitignoreHandler.is_ignored_by_gitignore]). A leading ['/'] is
    dropped and nothing else: ["/p"] ignores exactly the files ["p"]
    ignores, so an anchored pattern also matches below the root. *)
Theorem gitignore_leading_slash_dropped fp rp p ps :
  starts_with_slash p = false ->
  is_ignored_by_gitignore fp rp (String "/"%char p :: ps)
  = is_ignored_by_gitignore fp rp (p :: ps).
Proof.
  intro Hp. unfold is_ignored_by_gitignore.
  destruct (relative_to fp rp) as [rel|]; [|reflexivity].
  cbn [existsb]. f_equal. unfold pattern_matches. rewrite Hp. reflexivity.
Qed.

Lemma gitignore_leading_slash_dropped_witness :
  starts_with_slash "build" = false
  /\ is_ignored_by_gitignore (ex_root ++ ["src"; "build"; "o.py"]%string) ex_root
       ["/build"%string] = true.
Proof.
  split; [reflexivity|].
  rewrite (gitignore_leading_slash_dropped _ _ "build"%string [] eq_refl).
  vm_compute. reflexivity.
Defined.

(** A pattern with no [*], [?] or [[]. *)
Definition glob_literal (s : string) : bool :=
  forallb (fun c => negb (Ascii.eqb c "*"%char || Ascii.eqb c "?"%char
                          || Ascii.eqb c "["%char))
          (list_ascii_of_string s).

Definition has_slash (s : string) : bool :=
  existsb (fun c => Ascii.eqb c "/"%char) (list_ascii_of_string s).

Lemma tokenize_literal l : forall fuel,
  length l <= fuel ->
  forallb (fun c => negb (Ascii.eqb c "*"%char || Ascii.eqb c "?"%char
                          || Ascii.eqb c "["%char)) l = true ->
  tokenize fuel l = map GLit l.
Proof.
  induction l as [|c r IH]; intros [|f] Hf Hl; simpl in *; try reflexivity; [lia|].
  apply andb_true_iff in Hl as [Hc Hr].
  destruct (Ascii.eqb c "*"%char), (Ascii.eqb c "?"%char), (Ascii.eqb c "["%char);
    try discriminate. rewrite IH by (lia || exact Hr). reflexivity.
Qed.

Lemma glob_match_lits l : glob_match (map GLit l) l = true.
Proof. induction l as [|c r IH]; simpl; [reflexivity|]. rewrite Ascii.eqb_refl. exact IH. Qed.

Lemma fnmatch_literal_self s : glob_literal s = true -> fnmatch s s = true.
Proof.
  intro H. unfold fnmatch. rewrite tokenize_literal; [apply glob_match_lits|lia|exact H].
Qed.

Lemma list_ascii_of_string_append s t :
  list_ascii_of_string (s ++ t) = list_ascii_of_string s ++ list_ascii_of_string t.
Proof. induction s as [|c s IH]; simpl; [reflexivity|]. rewrite IH. reflexivity. Qed.

Lemma starts_with_slash_no_slash s : has_slash s = false -> starts_with_slash s = false.
Proof.
  destruct s as [|c r]; [reflexivity|]. unfold has_slash. simpl.
  destruct (Ascii.eqb c "/"%char); [discriminate|reflexivity].
Qed.

(** X7 ([GitignoreHandler.is_ignored_by_gitignore]). A pattern without
    glob characters or ['/'] that is equal to any segment of the file's
    path below the root ignores the file, whether it is written ["d"] or
    ["d/"]; the segment may be the file's own name, so ["build/"] also
    ignores a file named [build]. *)
Theorem gitignore_literal_segment fp rp rel seg ps :
  relative_to fp rp = Some rel -> In seg rel ->
  glob_literal seg = true -> has_slash seg = false -> seg <> ""%string ->
  is_ignored_by_gitignore fp rp (seg :: ps) = true
  /\ is_ignored_by_gitignore fp rp ((seg ++ "/")%string :: ps) = true.
Proof.
  intros Hr Hin Hlit Hsl Hne. unfold is_ignored_by_gitignore. rewrite Hr.
  pose proof (starts_with_slash_no_slash seg Hsl) as Hs.
  split; cbn [existsb]; apply orb_true_iff; left; unfold pattern_matches.
  - rewrite Hs. apply orb_true_iff. left. apply orb_true_iff. right.
    apply existsb_exists. destruct (In_nth rel seg ""%string Hin) as [i [Hi Hn]].
    exists i. split; [apply in_seq; lia|]. rewrite Hn, fnmatch_literal_self, orb_true_r
      by exact Hlit. reflexivity.
  - assert (Hs' : starts_with_slash (seg ++ "/") = false).
    { destruct seg as [|c r]; [contradiction|]. exact Hs. }
    rewrite Hs'. apply orb_true_iff. right.
    assert (He : ends_with_slash (seg ++ "/") = true).
    { unfold ends_with_slash. rewrite list_ascii_of_string_append.
      destruct (list_ascii_of_string seg) as [|a l]; [reflexivity|].
      cbn [app].
      change (a :: l ++ list_ascii_of_string "/") with ((a :: l) ++ ["/"%char]).
      rewrite last_last. reflexivity. }
    assert (Hd : drop_last (seg ++ "/") = seg).
    { unfold drop_last. rewrite list_ascii_of_string_append. simpl.
      rewrite removelast_last. apply string_of_list_ascii_of_string. }
    rewrite He, Hd. simpl. apply existsb_exists. exists seg.
    split; [exact Hin|apply fnmatch_literal_self, Hlit].
Qed.

Lemma gitignore_literal_segment_witness :
  is_ignored_by_gitignore (ex_root ++ ["lib"; "build"]%string) ex_root ["build"%string] = true
  /\ is_ignored_by_gitignore (ex_root ++ ["lib"; "build"]%string) ex_root
       [("build" ++ "/")%string] = true.
Proof.
  apply (gitignore_literal_segment _ _ ["lib"; "build"]%string); try reflexivity.
  - right. left. reflexivity.
  - discriminate.
Defined.

(** ** Reading [.gitignore] *)

Definition no_lead (l : list ascii) : bool :=
  match l with c :: _ => negb (is_space c) | [] => true end.

Lemma lstrip_no_lead l : no_lead (lstrip l) = true.
Proof.
  induction l as [|c r IH]; [reflexivity|]. simpl.
  destruct (is_space c) eqn:E; [exact IH|]. simpl. rewrite E. reflexivity.
Qed.

Lemma lstrip_split l : exists sp, l = sp ++ lstrip l.
Proof.
  induction l as [|c r [sp IH]]; [exists []; reflexivity|]. simpl.
  destruct (is_space c); [exists (c :: sp); simpl; f_equal; exact IH|exists []; reflexivity].
Qed.

Lemma last_hd_rev (l : list ascii) d : last l d = hd d (rev l).
Proof.
  induction l as [|x l IH] using rev_ind; [reflexivity|].
  rewrite last_last, rev_app_distr. reflexivity.
Qed.

Lemma strip_ends l c r :
  strip l = c :: r -> is_space c = false /\ is_space (last (c :: r) c) = false.
Proof.
  unfold strip. intro H.
  destruct (lstrip_split (rev (lstrip l))) as [sp Hsp].
  pose proof (lstrip_no_lead l) as Hm.
  pose proof (lstrip_no_lead (rev (lstrip l))) as Hn.
  assert (Hn' : lstrip (rev (lstrip l)) = rev (c :: r)).
  { rewrite <- H, rev_involutive. reflexivity. }
  split.
  - apply (f_equal (@rev ascii)) in Hsp. rewrite rev_involutive, rev_app_distr in Hsp.
    rewrite Hn', rev_involutive in Hsp. rewrite Hsp in Hm. simpl in Hm.
    destruct (is_space c); [discriminate|reflexivity].
  - rewrite last_hd_rev. rewrite Hn' in Hn.
    destruct (rev (c :: r)) as [|d t] eqn:E;
      [apply (f_equal (@length ascii)) in E; rewrite length_rev in E; discriminate|].
    simpl in *. destruct (is_space d); [discriminate|reflexivity].
Qed.

(** X8 ([GitignoreHandler.parse_gitignore]). Every pattern read from a
    [.gitignore] is non-empty, does not start with ['#'] and neither
    starts nor ends with whitespace: blank lines and comment lines (also
    indented ones) are dropped, and every line is stripped. *)
Theorem parse_gitignore_patterns_stripped content p :
  In p (parse_gitignore content) ->
  exists c r, list_ascii_of_string p = c :: r /\ c <> "#"%char
              /\ is_space c = false /\ is_space (last (c :: r) c) = false.
Proof.
  destruct content as [raw|]; [|intros []]. unfold parse_gitignore.
  intro H. apply in_flat_map in H. destruct H as [line [_ H]].
  destruct (strip line) as [|c r] eqn:E; [destruct H|].
  destruct (Ascii.eqb c "#"%char) eqn:Ec; [destruct H|].
  destruct H as [<-|[]]. exists c, r.
  rewrite list_ascii_of_string_of_list_ascii. split; [reflexivity|].
  split; [intro Hc; subst c; rewrite Ascii.eqb_refl in Ec; discriminate|]. exact (strip_ends line c r E).
Qed.

Lemma parse_gitignore_patterns_stripped_witness :
  exists c r,
    list_ascii_of_string "*.log"%string = c :: r /\ c <> "#"%char
    /\ is_space c = false /\ is_space (last (c :: r) c) = false.
Proof.
  apply (parse_gitignore_patterns_stripped
           (Some (list_ascii_of_string
                    ("# build output" ++ String "010" "  *.log  " ++ String "013" "")))).
  vm_compute. left. reflexivity.
Defined.

(** ** Saving and reloading the selection *)

Lemma path_eqb_true p q : path_eqb p q = true <-> p = q.
Proof.
  revert q. induction p as [|a p IH]; intros [|b q]; simpl;
    try (split; [discriminate|intro H; discriminate H]); [tauto|].
  rewrite andb_true_iff, String.eqb_eq, IH. split; [intros [-> ->]; reflexivity|].
  intro H. injection H as -> ->. split; reflexivity.
Qed.

Lemma path_mem_In p l : path_mem p l = true <-> In p l.
Proof.
  unfold path_mem. rewrite existsb_exists. split.
  - intros [q [Hq He]]. apply path_eqb_true in He. subst. exact Hq.
  - intro H. exists p. split; [exact H|apply path_eqb_true; reflexivity].
Qed.

Lemma relative_to_app p root rel : relative_to p root = Some rel -> p = root ++ rel.
Proof.
  revert p. induction root as [|r root IH]; intros [|a p] H; simpl in H.
  - injection H as <-. reflexivity.
  - injection H as <-. reflexivity.
  - discriminate.
  - destruct (String.eqb r a) eqn:E; [|discriminate].
    apply String.eqb_eq in E. subst. simpl. f_equal. apply IH, H.
Qed.

Definition has_backslash (s : string) : bool :=
  existsb (fun c => Ascii.eqb c "092"%char) (list_ascii_of_string s).

(** A segment [pathlib] can produce: not empty, not ["."], no ['/'];
    and, for the string round trip, no backslash. *)
Definition valid_seg (s : string) : bool :=
  negb (String.eqb s "") && negb (String.eqb s ".") && negb (has_slash s)
  && negb (has_backslash s).

Definition below (root p : path) : bool :=
  match relative_to p root with Some _ => true | None => false end.

Lemma split_slash_seg cur a b :
  existsb (fun c => Ascii.eqb c "/"%char) a = false ->
  split_slash cur (a ++ "/"%char :: b) = (rev cur ++ a) :: split_slash [] b.
Proof.
  revert cur. induction a as [|c a IH]; intros cur Ha; simpl in *.
  - rewrite app_nil_r. reflexivity.
  - apply orb_false_iff in Ha as [Hc Ha]. rewrite Hc, IH by exact Ha.
    simpl. rewrite <- app_assoc. reflexivity.
Qed.

Lemma split_slash_last cur a :
  existsb (fun c => Ascii.eqb c "/"%char) a = false ->
  split_slash cur a = [rev cur ++ a].
Proof.
  revert cur. induction a as [|c a IH]; intros cur Ha; simpl in *.
  - rewrite app_nil_r. reflexivity.
  - apply orb_false_iff in Ha as [Hc Ha]. rewrite Hc, IH by exact Ha.
    simpl. rewrite <- app_assoc. reflexivity.
Qed.

Lemma split_join rel :
  rel <> [] -> Forall (fun s => has_slash s = false) rel ->
  split_slash [] (list_ascii_of_string (join_slash rel)) = map list_ascii_of_string rel.
Proof.
  intro Hne. induction rel as [|s [|t r] IH]; intros Hs; [contradiction| |].
  - inversion Hs as [|? ? Hs0 _]; subst. unfold join_slash. simpl.
    rewrite split_slash_last by exact Hs0. reflexivity.
  - inversion Hs as [|? ? Hs0 Hr]; subst.
    change (join_slash (s :: t :: r)) with (s ++ "/" ++ join_slash (t :: r))%string.
    rewrite !list_ascii_of_string_append. cbn [list_ascii_of_string app].
    rewrite split_slash_seg by exact Hs0. cbn [rev app].
    rewrite IH by (discriminate || exact Hr). reflexivity.
Qed.

Lemma replace_backslash_id s : has_backslash s = false -> replace_backslash s = s.
Proof.
  unfold replace_backslash, has_backslash. intro H.
  rewrite <- (string_of_list_ascii_of_string s) at 2. f_equal.
  induction (list_ascii_of_string s) as [|c l IH]; [reflexivity|].
  simpl in *. apply orb_false_iff in H as [Hc Hl]. rewrite Hc, IH by exact Hl.
  reflexivity.
Qed.

Lemma has_backslash_join rel :
  Forall (fun s => has_backslash s = false) rel -> has_backslash (join_slash rel) = false.
Proof.
  induction rel as [|s [|t r] IH]; intro H; [reflexivity| |].
  - inversion H; subst. assumption.
  - inversion H as [|? ? Hs Hr]; subst.
    change (join_slash (s :: t :: r)) with (s ++ "/" ++ join_slash (t :: r))%string.
    unfold has_backslash in *. rewrite !list_ascii_of_string_append, !existsb_app.
    rewrite Hs, (IH Hr). reflexivity.
Qed.

Lemma starts_with_slash_join s r :
  s <> ""%string -> has_slash s = false -> starts_with_slash (join_slash (s :: r)) = false.
Proof.
  intros Hne Hs. destruct s as [|c s']; [contradiction|].
  unfold has_slash in Hs. simpl in Hs. apply orb_false_iff in Hs as [Hc _].
  destruct r; simpl; exact Hc.
Qed.

Lemma join_root_str_rel root rel :
  Forall (fun s => valid_seg s = true) rel ->
  join_root root (replace_backslash (str_rel rel)) = root ++ rel.
Proof.
  intro H. destruct rel as [|s r].
  { change (replace_backslash (str_rel [])) with "."%string. unfold join_root.
    change (starts_with_slash ".") with false. change (parse_segments ".") with (@nil string).
    reflexivity. }
  assert (Hv : forall x, In x (s :: r) ->
            x <> ""%string /\ x <> "."%string /\ has_slash x = false /\ has_backslash x = false).
  { intros x Hx. rewrite Forall_forall in H. specialize (H x Hx). unfold valid_seg in H.
    destruct (String.eqb_spec x ""), (String.eqb_spec x "."), (has_slash x), (has_backslash x);
      try discriminate. tauto. }
  unfold str_rel. rewrite replace_backslash_id.
  2:{ apply has_backslash_join, Forall_forall. intros x Hx. apply Hv, Hx. }
  unfold join_root. destruct (Hv s (or_introl eq_refl)) as [Hs1 [_ [Hs3 _]]].
  rewrite starts_with_slash_join by assumption. f_equal.
  unfold parse_segments. rewrite split_join.
  2: discriminate.
  2:{ apply Forall_forall. intros x Hx. apply Hv, Hx. }
  rewrite map_map.
  rewrite (map_ext_in _ (fun x => x)) by (intros; apply string_of_list_ascii_of_string).
  rewrite map_id. apply forallb_filter_id, forallb_forall.
  intros x Hx. destruct (Hv x Hx) as [H1 [H2 _]].
  apply String.eqb_neq in H1, H2. rewrite H1, H2. reflexivity.
Qed.

Lemma to_rel_strings_round_trip root ps :
  (forall p rel, In p ps -> relative_to p root = Some rel ->
                 Forall (fun s => valid_seg s = true) rel) ->
  map (join_root root) (to_rel_strings root ps) = filter (below root) ps.
Proof.
  induction ps as [|p ps IH]; intro Hv; [reflexivity|].
  unfold to_rel_strings in *. simpl. unfold below at 1.
  destruct (relative_to p root) as [rel|] eqn:E.
  - simpl. rewrite (join_root_str_rel root rel (Hv p rel (or_introl eq_refl) E)).
    rewrite <- (relative_to_app p root rel E). f_equal.
    apply IH. intros q r Hq. apply Hv. right. exact Hq.
  - apply IH. intros q r Hq. apply Hv. right. exact Hq.
Qed.

(** X9 ([ProjectSettings.save_settings], [filter_existing_paths]). What
    [save_settings] writes, [filter_existing_paths] reads back as the same
    paths: the saved paths that lie below the root and (still) exist as
    files, resp. directories, in their order. Paths outside the root are
    dropped. It needs each saved path's segments below the root to be
    [pathlib] segments without a backslash: [save_settings] turns a
    backslash into ['/']. *)
Theorem saved_paths_round_trip fs root files folders :
  (forall p rel, In p files \/ In p folders -> relative_to p root = Some rel ->
                 Forall (fun s => valid_seg s = true) rel) ->
  let s := save_settings root files folders in
  filter_existing_paths fs root (selected_files s) (selected_folders s)
  = (filter (fun p => fs_exists fs p && fs_is_file fs p) (filter (below root) files),
     filter (fun p => fs_exists fs p && fs_is_dir fs p) (filter (below root) folders)).
Proof.
  intros Hv s. unfold filter_existing_paths, s, save_settings. cbn [selected_files selected_folders].
  rewrite !to_rel_strings_round_trip; [reflexivity| |];
    intros p rel Hp; apply Hv; [right|left]; exact Hp.
Qed.

Definition ex_fs : fsys := mkFsys (fun _ => true) (fun p => negb (String.eqb (name p) "a")) (fun p => String.eqb (name p) "a").

Lemma saved_paths_round_trip_witness :
  filter_existing_paths ex_fs ex_root
    (selected_files (save_settings ex_root [ex_file "a" "x.py"; ["etc"; "passwd"]%string] [ex_root ++ ["a"%string]]))
    (selected_folders (save_settings ex_root [ex_file "a" "x.py"; ["etc"; "passwd"]%string] [ex_root ++ ["a"%string]]))
  = ([ex_file "a" "x.py"], [ex_root ++ ["a"%string]]).
Proof.
  rewrite (saved_paths_round_trip ex_fs ex_root).
  - vm_compute. reflexivity.
  - intros p rel Hp Hr. destruct Hp as [[<-|[<-|[]]]|[<-|[]]]; vm_compute in Hr;
      try discriminate; injection Hr as <-; repeat constructor.
Defined.

(** ** The selection from one session to the next *)

Lemma fpaths_strip_sel n : fpaths (strip_sel n) = fpaths n.
Proof.
  induction n as [p s|p e cs IH] using node_ind'; [reflexivity|].
  cbn [strip_sel]. rewrite !fpaths_dir.
  induction IH as [|c r Hc _ IHr]; [reflexivity|].
  simpl map. rewrite !cpaths_cons, Hc, IHr. reflexivity.
Qed.

Lemma fpaths_strip_exp n : fpaths (strip_exp n) = fpaths n.
Proof.
  induction n as [p s|p e cs IH] using node_ind'; [reflexivity|].
  cbn [strip_exp]. rewrite !fpaths_dir.
  induction IH as [|c r Hc _ IHr]; [reflexivity|].
  simpl map. rewrite !cpaths_cons, Hc, IHr. reflexivity.
Qed.

Lemma fpaths_same_sel a b : strip_sel a = strip_sel b -> fpaths a = fpaths b.
Proof. intro H. rewrite <- (fpaths_strip_sel a), <- (fpaths_strip_sel b), H. reflexivity. Qed.

Lemma fpaths_same_exp a b : strip_exp a = strip_exp b -> fpaths a = fpaths b.
Proof. intro H. rewrite <- (fpaths_strip_exp a), <- (fpaths_strip_exp b), H. reflexivity. Qed.

Lemma fpaths_handle_key k st :
  fpaths (tree_root (snd (handle_key k st))) = fpaths (tree_root st).
Proof.
  destruct st as [fs rp t pos page term].
  destruct k; unfold handle_key; cbn [tree_root current_pos current_page search_term];
    repeat match goal with
           | |- context [if ?c then _ else _] => destruct c
           end; simpl;
    try reflexivity;
    first
      [ apply fpaths_same_sel; unfold upd_visible; apply strip_sel_upd, strip_sel_activate
      | apply fpaths_same_exp; unfold upd_visible; apply strip_exp_upd, strip_exp_set_expanded
      | apply fpaths_same_exp, strip_exp_expand_all
      | apply fpaths_same_exp, strip_exp_collapse_all
      | apply fpaths_same_sel, strip_sel_set_rec ].
Qed.

Lemma run_loop_result keys : forall st sel st',
  run_loop keys st = Some (sel, st') ->
  sel = get_selected_files (tree_root st') /\ fpaths (tree_root st') = fpaths (tree_root st).
Proof.
  induction keys as [|k ks IH]; intros st sel st' H; [discriminate|].
  simpl in H. pose proof (fpaths_handle_key k st) as Hk.
  destruct (handle_key k st) as [[|] st1]; simpl in Hk.
  - destruct (IH st1 sel st' H) as [H1 H2]. split; [exact H1|]. rewrite H2. exact Hk.
  - injection H as <- <-. split; [reflexivity|exact Hk].
Qed.

(** What [run] returns is the selected part of a flagging of the files
    the selector started with. *)
Lemma run_result keys st sel st' :
  run keys st = Some (sel, st') ->
  exists L, map fst L = fpaths (tree_root st) /\ sel = map fst (filter snd L).
Proof.
  unfold run. destruct (files st).
  - intro H. injection H as <- <-.
    exists (map (fun p => (p, false)) (fpaths (tree_root st))).
    split; induction (fpaths (tree_root st)) as [|x l IH]; simpl; try reflexivity;
      [f_equal|]; exact IH.
  - intro H. destruct (run_loop_result keys st sel st' H) as [-> H2].
    exists (files_preorder (tree_root st')). split; [exact H2|].
    apply get_selected_files_filter.
Qed.

Lemma filter_selected_nodup (L : list (path * bool)) :
  NoDup (map fst L) ->
  filter (fun p => path_mem p (map fst (filter snd L))) (map fst L)
  = map fst (filter snd L).
Proof.
  induction L as [|[p b] L IH]; intro Hnd; [reflexivity|].
  simpl in Hnd. inversion Hnd as [|? ? Hp Hnd']; subst.
  assert (Hsub : forall q, In q (map fst (filter snd L)) -> In q (map fst L)).
  { intros q Hq. apply in_map_iff in Hq. destruct Hq as [x [<- Hx]].
    apply filter_In in Hx. apply in_map, (proj1 Hx). }
  simpl. destruct b; simpl.
  - unfold path_mem at 1. simpl. rewrite (proj2 (path_eqb_true p p) eq_refl). simpl.
    f_equal. transitivity (filter (fun q => path_mem q (map fst (filter snd L))) (map fst L));
      [|apply IH, Hnd'].
    apply filter_ext_in. intros q Hq. unfold path_mem. simpl.
    destruct (path_eqb q p) eqn:E; [|reflexivity].
    apply path_eqb_true in E. subst. contradiction.
  - destruct (path_mem p (map fst (filter snd L))) eqn:E.
    + apply path_mem_In, Hsub in E. contradiction.
    + apply IH, Hnd'.
Qed.

Lemma files_mark_no_folders F n :
  files_preorder (mark_selected F [] n)
  = map (fun x => (fst x, if path_mem (fst x) F then true else snd x)) (files_preorder n).
Proof.
  induction n as [p s|p e cs IH] using node_ind'; [simpl; destruct (path_mem p F); reflexivity|].
  simpl. rewrite map_map, concat_map, map_map. f_equal.
  apply map_ext_in. intros x Hx. rewrite Forall_forall in IH. apply IH, Hx.
Qed.

Lemma fresh_files_unselected n :
  node_all fresh n = true -> forallb (fun x => negb (snd x)) (files_preorder n) = true.
Proof.
  induction n as [p s|p e cs IH] using node_ind'; intro H.
  - simpl in *. rewrite andb_true_r in *. exact H.
  - simpl in *. apply andb_true_iff in H as [_ Hcs].
    induction IH as [|c r Hc _ IHr]; [reflexivity|].
    simpl in *. apply andb_true_iff in Hcs as [H1 H2].
    rewrite forallb_app, Hc, IHr; auto.
Qed.

Lemma selected_after_mark F t :
  node_all fresh t = true ->
  get_selected_files (mark_selected F [] t) = filter (fun p => path_mem p F) (fpaths t).
Proof.
  intro Hf. pose proof (fresh_files_unselected t Hf) as Hu.
  rewrite get_selected_files_filter, files_mark_no_folders. unfold fpaths.
  induction (files_preorder t) as [|[p s] l IH]; [reflexivity|].
  simpl in *. apply andb_true_iff in Hu as [Hs Hl]. apply negb_true_iff in Hs. subst s.
  destruct (path_mem p F); simpl; rewrite IH by exact Hl; reflexivity.
Qed.

(** X10 ([CodeCollectorApp._interactive_file_selection],
    [_save_user_preferences], [ProjectSettings.save_settings],
    [load_settings], [filter_existing_paths], [InteractiveSelector]).
    A selection confirmed in one session is exactly the selection the next
    session starts with, when the next session scans the same files (no
    duplicates, all still existing, below the root with segments that have
    no backslash). *)
Theorem selection_restored_next_session fs files root F D keys sel st0 st1 :
  init files root F D = Some st0 ->
  run keys st0 = Some (sel, st1) ->
  NoDup files ->
  (forall f, In f files ->
             exists rel, relative_to f root = Some rel
                         /\ Forall (fun s => valid_seg s = true) rel) ->
  (forall f, In f files -> fs_exists fs f && fs_is_file fs f = true) ->
  exists st2,
    start_selector fs files root (Some (save_user_preferences root sel)) = Some st2
    /\ get_selected_files (tree_root st2) = sel.
Proof.
  intros Hi Hr Hnd Hv Hex.
  destruct (init_tree _ _ _ _ _ Hi) as [t [Hb Hs]].
  pose proof (fpaths_same_sel _ _ Hs) as Hp0.
  pose proof (build_file_tree_perm _ _ _ Hb) as Hperm.
  destruct (run_result _ _ _ _ Hr) as [L [HL Hsel]].
  assert (Hin : forall q, In q sel -> In q files).
  { intros q Hq. rewrite Hsel in Hq. apply in_map_iff in Hq. destruct Hq as [x [<- Hx]].
    apply filter_In in Hx. apply (Permutation_in _ Hperm). rewrite <- Hp0, <- HL.
    apply in_map, Hx. }
  assert (Hload : filter_existing_paths fs root (to_rel_strings root sel) (to_rel_strings root [])
                  = (sel, [])).
  { unfold filter_existing_paths. rewrite to_rel_strings_round_trip.
    - f_equal. rewrite (forallb_filter_id (below root) sel).
      + apply forallb_filter_id, forallb_forall. intros q Hq. apply Hex, Hin, Hq.
      + apply forallb_forall. intros q Hq. unfold below.
        destruct (Hv q (Hin q Hq)) as [rel [-> _]]. reflexivity.
    - intros q rel Hq Hr'. destruct (Hv q (Hin q Hq)) as [rel' [E Hrel]].
      rewrite Hr' in E. injection E as <-. exact Hrel. }
  unfold start_selector, save_user_preferences, save_settings, load_settings.
  cbn [full_path]. rewrite (proj2 (path_eqb_true root root) eq_refl). cbv beta iota.
  cbn [selected_files selected_folders]. rewrite Hload.
  unfold init. rewrite Hb. eexists. split; [reflexivity|]. cbn [tree_root].
  pose proof (build_file_tree_fresh _ _ _ Hb) as Hf.
  assert (Hnd' : NoDup (map fst L)).
  { rewrite HL, Hp0. apply (Permutation_NoDup (Permutation_sym Hperm)), Hnd. }
  assert (Hgoal : filter (fun p => path_mem p sel) (fpaths t) = sel).
  { rewrite <- Hp0, <- HL, Hsel. apply filter_selected_nodup, Hnd'. }
  destruct sel as [|q sel'].
  - apply fresh_unselected, Hf.
  - unfold apply_saved_selection. rewrite selected_after_mark by exact Hf. exact Hgoal.
Qed.

Definition ex_fs_files : fsys := mkFsys (fun _ => true) (fun _ => true) (fun _ => false).

Lemma selection_restored_next_session_witness :
  exists st2,
    start_selector ex_fs_files ex_many_files ex_root
      (Some (save_user_preferences ex_root [ex_file "a" "fA"; ex_file "a" "fC"]))
    = Some st2
    /\ get_selected_files (tree_root st2) = [ex_file "a" "fA"; ex_file "a" "fC"].
Proof.
  apply (selection_restored_next_session ex_fs_files ex_many_files ex_root [] []
           [KDown; KDown; KDown; KSpace; KUp; KUp; KSpace; KEnter]
           _ (of_opt ex_many)
           (snd (handle_key KEnter (steps [KDown; KDown; KDown; KSpace; KUp; KUp; KSpace] (of_opt ex_many))))).
  - vm_compute. reflexivity.
  - vm_compute. reflexivity.
  - vm_compute. repeat constructor; simpl; intuition discriminate.
  - intros f Hf. vm_compute in Hf.
    repeat (destruct Hf as [<-|Hf];
            [eexists; split; [vm_compute; reflexivity | repeat constructor] |]).
    destruct Hf.
  - intros f _. reflexivity.
Defined.

(** *** Decoding raw keys *)

Lemma handle_key_go_on k st :
  fst (handle_key k st)
  = match k with
    | KEnter | KQuit => false
    | KEsc => negb (is_empty_string (search_term st))
    | _ => true
    end.
Proof.
  destruct k; unfold handle_key; cbv zeta;
    repeat match goal with |- context [if ?b then _ else _] => destruct b end;
    reflexivity.
Qed.

(** X11 ([KeyboardHandler._get_key_unix], [InteractiveSelector._handle_key],
    [run]). A raw key ends the selection loop exactly when it is a carriage
    return, a line feed, ['q'] or ['Q'], or an ESC whose next two
    characters are none of the six sequences [_get_key_unix] knows (the
    arrows, page up and page down) while no search term is set. So an
    unknown escape sequence (Home, End, Delete, a lone ESC) cancels the
    selection, and the end of the input ([read(1)] returning [''])
    never ends the loop. *)
Theorem raw_key_stops_loop (key next line : string) (st : selector) :
  String.length key <= 1 ->
  fst (handle_raw_key key next line st) = false
  <-> In key [chr "013"; chr "010"; "q"; "Q"]%string
      \/ (key = chr "027"
          /\ ~ In next ["[A"; "[B"; "[C"; "[D"; "[5"; "[6"]%string
          /\ search_term st = ""%string).
Proof.
  intros Hlen. unfold handle_raw_key. rewrite handle_key_go_on.
  destruct key as [|c [|c2 r]]; [| |simpl in Hlen; lia].
  - simpl. split; [discriminate|].
    intros [H|[H _]]; [simpl in H; intuition discriminate | discriminate].
  - destruct (Ascii.eqb_spec c "027") as [->|Hc].
    + unfold get_key_unix, chr. cbn [String.eqb Ascii.eqb Bool.eqb append andb].
      repeat match goal with
             | |- context [String.eqb next ?s] =>
                 destruct (String.eqb_spec next s) as [->|?]
             end;
        cbn [key_of_name String.eqb Ascii.eqb Bool.eqb andb orb].
      all: try (split; [discriminate|];
                intros [H|[_ [H _]]];
                [simpl in H; intuition discriminate | simpl in H; intuition]).
      destruct (search_term st) as [|x y]; simpl.
      * split; [|reflexivity]. intros _. right.
        split; [reflexivity|]. split; [simpl; intuition congruence|reflexivity].
      * split; [discriminate|].
        intros [H|[_ [_ H]]]; [simpl in H; intuition discriminate | discriminate].
    + destruct c as [b0 b1 b2 b3 b4 b5 b6 b7];
        destruct b0, b1, b2, b3, b4, b5, b6, b7;
        try (exfalso; apply Hc; reflexivity);
        cbv [get_key_unix key_of_name chr];
        cbn [String.eqb Ascii.eqb Bool.eqb andb orb];
        (split;
         [ first [ discriminate | intros _; left; simpl; tauto ]
         | first [ intros _; reflexivity
                 | intros [H|[H _]];
                   [ simpl in H; intuition discriminate | discriminate ] ] ]).
Qed.

Lemma raw_key_stops_loop_witness :
  (String.length (chr "027") <= 1
   /\ fst (handle_raw_key (chr "027") "[H" "" (of_opt ex_selector)) = false)
  /\ (String.length ""%string <= 1
      /\ fst (handle_raw_key ""%string "" "" (of_opt ex_selector)) = true).
Proof.
  split.
  - split; [simpl; lia|].
    apply (proj2 (raw_key_stops_loop (chr "027") "[H" "" (of_opt ex_selector) ltac:(simpl; lia))).
    right. split; [reflexivity|]. split; [simpl; intuition discriminate | reflexivity].
  - split; [simpl; lia|].
    destruct (fst (handle_raw_key ""%string "" "" (of_opt ex_selector))) eqn:E; [reflexivity|].
    apply (raw_key_stops_loop ""%string "" "" (of_opt ex_selector) ltac:(simpl; lia)) in E.
    destruct E as [H|[H _]]; [simpl in H; intuition discriminate | discriminate].
Defined.

(** *** Collecting the files of a project *)

Lemma insort_perm {A} (lt : A -> A -> bool) x l : Permutation (insort lt x l) (x :: l).
Proof.
  induction l as [|y ys IH]; simpl; [reflexivity|].
  destruct (lt x y); [reflexivity|].
  rewrite IH. apply perm_swap.
Qed.

Lemma list_sort_perm {A} (lt : A -> A -> bool) l : Permutation (list_sort lt l) l.
Proof.
  unfold list_sort.
  assert (H : forall acc, Permutation (fold_left (fun acc x => insort lt x acc) l acc)
                                      (l ++ acc)).
  { induction l as [|x l IH]; intros acc; simpl; [reflexivity|].
    rewrite IH, insort_perm. symmetry. apply Permutation_middle. }
  rewrite H, app_nil_r. reflexivity.
Qed.

Section SortOrder.
  Context {A : Type} (lt : A -> A -> bool) (R : A -> A -> Prop).
  Hypothesis lt_R : forall a b, lt a b = true -> R a b.
  Hypothesis not_lt_R : forall a b, lt a b = false -> R b a.

Lemma insort_sorted x l : Sorted R l -> Sorted R (insort lt x l).
  Proof.
    induction l as [|y ys IH]; intros Hs; simpl; [auto|].
    destruct (lt x y) eqn:E.
    - constructor; [exact Hs | constructor; apply lt_R, E].
    - apply Sorted_inv in Hs as [Hs Hh].
      constructor; [apply IH, Hs|].
      destruct ys as [|z zs]; simpl; [constructor; apply not_lt_R, E|].
      destruct (lt x z); constructor; [apply not_lt_R, E|].
      inversion Hh; assumption.
  Qed.

Lemma list_sort_sorted l : Sorted R (list_sort lt l).
  Proof.
    unfold list_sort.
    assert (H : forall acc, Sorted R acc ->
                            Sorted R (fold_left (fun acc x => insort lt x acc) l acc)).
    { induction l as [|x l IH]; intros acc Ha; simpl; [exact Ha|].
      apply IH, insort_sorted, Ha. }
    apply H. constructor.
  Qed.
End SortOrder.

Lemma path_ltb_asym p q : path_ltb p q = true -> path_ltb q p = false.
Proof.
  revert q; induction p as [|a p IH]; intros [|b q]; simpl; try discriminate; auto.
  destruct (str_ltb a b) eqn:E1.
  - rewrite (str_ltb_asym _ _ E1). reflexivity.
  - destruct (str_ltb b a); [discriminate|]. apply IH.
Qed.

Lemma scan_and_collect_perm c root gi sbt entries :
  Permutation (scan_and_collect c root gi sbt entries)
              (filter (should_include_file c root (parse_gitignore gi)) entries).
Proof.
  unfold scan_and_collect. destruct sbt; apply list_sort_perm.
Qed.

(** X14 ([CodeCollector.scan_and_collect]). The result holds exactly the
    entries of [rglob] that [_should_include_file] accepts, and it is
    sorted: newest first with [sort_by_time], otherwise by path. *)
Theorem scan_and_collect_sorted c root gi sbt entries :
  let res := scan_and_collect c root gi sbt entries in
  Permutation res (filter (should_include_file c root (parse_gitignore gi)) entries)
  /\ (if sbt then Sorted (fun f g => c_mtime c g <= c_mtime c f) res
      else Sorted (fun f g => path_ltb g f = false) res).
Proof.
  intros res. split; [apply scan_and_collect_perm|].
  unfold res, scan_and_collect. destruct sbt.
  - apply list_sort_sorted.
    + intros a b H. apply Nat.ltb_lt in H. lia.
    + intros a b H. apply Nat.ltb_ge in H. exact H.
  - apply list_sort_sorted.
    + intros a b H. apply path_ltb_asym, H.
    + intros a b H. exact H.
Qed.

Lemma in_prefix_last (l : list string) d :
  In d l -> exists k, 1 <= k <= length l /\ last (firstn k l) ""%string = d.
Proof.
  induction l as [|a l IH]; intros Hd; [destruct Hd|].
  destruct Hd as [<-|Hd].
  - exists 1. simpl. split; [lia|reflexivity].
  - destruct (IH Hd) as [k [Hk Hl]]. exists (S k). split; [simpl; lia|].
    destruct k as [|k]; [lia|].
    destruct l as [|b l]; [simpl in Hk; lia|].
    simpl firstn. rewrite <- Hl. reflexivity.
Qed.

(** Every directory segment of a path names one of its [parents]. *)
Lemma removelast_in_parents f d :
  In d (removelast f) -> exists parent, In parent (parents f) /\ name parent = d.
Proof.
  intros Hd. destruct (in_prefix_last _ _ Hd) as [k [Hk Hl]].
  assert (Hlen : length (removelast f) = length f - 1).
  { rewrite removelast_firstn_len, firstn_length_le by lia. lia. }
  exists (firstn k f). split.
  - unfold parents. apply (in_map (fun k0 => firstn k0 f)). apply in_rev. rewrite rev_involutive.
    apply in_seq. lia.
  - unfold name. rewrite <- firstn_removelast by lia. exact Hl.
Qed.

Lemma collected_no_skip_segment c root gi sbt entries f d :
  In f (scan_and_collect c root gi sbt entries) -> In d (removelast f) ->
  should_skip_directory d = false.
Proof.
  intros Hf Hd.
  apply (Permutation_in _ (scan_and_collect_perm c root gi sbt entries)) in Hf.
  apply filter_In in Hf as [_ Hi].
  unfold should_include_file in Hi.
  destruct (c_is_dir c f); [discriminate|].
  destruct (is_ignored_by_gitignore f root (parse_gitignore gi)); [discriminate|].
  destruct (existsb (fun parent => should_skip_directory (name parent)) (parents f)) eqn:E;
    [discriminate|].
  destruct (removelast_in_parents f d Hd) as [parent [Hp <-]].
  destruct (should_skip_directory (name parent)) eqn:Es; [|reflexivity].
  rewrite (proj2 (existsb_exists _ _) (ex_intro _ parent (conj Hp Es))) in E.
  discriminate.
Qed.

Lemma skip_dirs_mem d : In d SKIP_DIRS -> should_skip_directory d = true.
Proof.
  intros Hin. apply existsb_exists. exists d. split; [exact Hin | apply String.eqb_refl].
Qed.

(** X12 ([CodeCollector._should_include_file], [FileFilters.should_skip_directory],
    [scan_and_collect]). No collected file lies below a directory named
    [vendor], [venv], [.git], [.vscode], [__pycache__] or [node_modules]:
    every directory of its absolute path is checked, those above the
    project root included. *)
Theorem collected_not_below_skip_dir c root gi sbt entries f :
  In f (scan_and_collect c root gi sbt entries) ->
  forall d, In d (removelast f) -> ~ In d SKIP_DIRS.
Proof.
  intros Hf d Hd Hin.
  pose proof (collected_no_skip_segment c root gi sbt entries f d Hf Hd) as H.
  rewrite (skip_dirs_mem d Hin) in H. discriminate.
Qed.

(** X13 ([CodeCollector.scan_and_collect], [_should_include_file]). A
    project whose root directory lies inside a directory that
    [FileFilters] skips (say [~/venv/proj]) collects no file at all. *)
Theorem root_in_skip_dir_collects_nothing c root gi sbt entries d :
  In d root -> In d SKIP_DIRS ->
  (forall e, In e entries -> exists rel, rel <> [] /\ e = root ++ rel) ->
  scan_and_collect c root gi sbt entries = [].
Proof.
  intros Hd Hs He.
  destruct (scan_and_collect c root gi sbt entries) as [|f fs] eqn:E; [reflexivity|].
  exfalso.
  assert (Hf : In f (scan_and_collect c root gi sbt entries)) by (rewrite E; left; reflexivity).
  pose proof Hf as Hf'.
  apply (Permutation_in _ (scan_and_collect_perm c root gi sbt entries)) in Hf'.
  apply filter_In in Hf' as [Hin _].
  destruct (He f Hin) as [rel [Hrel ->]].
  assert (Hd' : In d (removelast (root ++ rel))).
  { rewrite removelast_app by exact Hrel. apply in_or_app. left. exact Hd. }
  pose proof (collected_no_skip_segment c root gi sbt entries _ d Hf Hd') as H.
  rewrite (skip_dirs_mem d Hs) in H. discriminate.
Qed.

Definition ex_cfs : cfs :=
  mkCfs (fun _ => false) (fun _ => None) (fun _ => Some 10) (fun _ => 0).

Lemma root_in_skip_dir_collects_nothing_witness :
  scan_and_collect ex_cfs ["home"; "u"; "venv"; "proj"]%string None false
                   [["home"; "u"; "venv"; "proj"; "main.py"]%string] = []
  /\ scan_and_collect ex_cfs ["home"; "u"; "proj"]%string None false
                      [["home"; "u"; "proj"; "main.py"]%string]
     = [["home"; "u"; "proj"; "main.py"]%string].
Proof.
  split; [|vm_compute; reflexivity].
  apply (root_in_skip_dir_collects_nothing ex_cfs ["home"; "u"; "venv"; "proj"]%string
           None false _ "venv"%string).
  - simpl. tauto.
  - simpl. tauto.
  - intros e [<-|[]]. exists ["main.py"%string]. split; [discriminate|reflexivity].
Defined.

Lemma collected_not_below_skip_dir_witness :
  In ["home"; "u"; "proj"; "src"; "a.py"]%string
     (scan_and_collect ex_cfs ["home"; "u"; "proj"]%string None false
        [["home"; "u"; "proj"; "src"; "a.py"]; ["home"; "u"; "proj"; "venv"; "b.py"]]%string)
  /\ (forall d, In d ["home"; "u"; "proj"; "src"]%string -> ~ In d SKIP_DIRS).
Proof.
  split; [vm_compute; left; reflexivity|].
  apply (collected_not_below_skip_dir ex_cfs ["home"; "u"; "proj"]%string None false
           [["home"; "u"; "proj"; "src"; "a.py"]; ["home"; "u"; "proj"; "venv"; "b.py"]]%string
           ["home"; "u"; "proj"; "src"; "a.py"]%string).
  vm_compute. left. reflexivity.
Defined.

(** *** Keeping [.codecollector/] in [.gitignore] *)

(** Specification side: the lines a text completes, and the text after
    its last line break. *)
Fixpoint scan_lines (cur : list ascii) (l : list ascii) : list (list ascii) * list ascii :=
  match l with
  | [] => ([], cur)
  | c :: r =>
      if is_line_break c then
        let p := scan_lines [] r in (rev cur :: fst p, snd p)
      else scan_lines (c :: cur) r
  end.

Definition trailing_text (s : list ascii) : list ascii := rev (snd (scan_lines [] s)).

(** The file has no [.codecollector] line, and it ends in text after its
    last line break that is non-empty and all whitespace. *)
Definition unterminated_blank (file : option (list ascii)) : bool :=
  match file with
  | None => false
  | Some raw =>
      let s := universal_newlines raw in
      negb (lines_mem gitignore_entry (splitlines s))
      && negb (lines_mem ".codecollector" (splitlines s))
      && match trailing_text s with
         | [] => false
         | w => forallb is_space w
         end
  end.

Definition no_cr (l : list ascii) : bool :=
  forallb (fun c => negb (Ascii.eqb c "013"%char)) l.

Lemma u_cons c r :
  universal_newlines (c :: r)
  = if Ascii.eqb c "013"%char then
      "010"%char :: match r with
                    | c2 :: r2 =>
                        if Ascii.eqb c2 "010"%char then universal_newlines r2
                        else universal_newlines r
                    | [] => []
                    end
    else c :: universal_newlines r.
Proof. reflexivity. Qed.

Lemma u_no_cr l : no_cr (universal_newlines l) = true.
Proof.
  remember (length l) as n eqn:En. revert l En.
  induction n as [n IH] using lt_wf_ind. intros [|c r] En; [reflexivity|].
  simpl in En. rewrite u_cons.
  destruct (Ascii.eqb c "013"%char) eqn:Ec.
  - destruct r as [|c2 r2]; [reflexivity|].
    destruct (Ascii.eqb c2 "010"%char);
      [apply (IH (length r2)); simpl in En; [lia|reflexivity]
      |apply (IH (length (c2 :: r2))); simpl in *; [lia|reflexivity]].
  - cbn [no_cr forallb]. rewrite Ec. apply (IH (length r)); [lia|reflexivity].
Qed.

(** Appending text that does not start with a line feed. *)
Lemma u_app_not_lf raw t :
  (forall t', t <> "010"%char :: t') ->
  universal_newlines (raw ++ t) = universal_newlines raw ++ universal_newlines t.
Proof.
  intros Ht. remember (length raw) as n eqn:En. revert raw En.
  induction n as [n IH] using lt_wf_ind. intros [|c r] En; [reflexivity|].
  simpl in En. cbn [app]. rewrite (u_cons c (r ++ t)), (u_cons c r).
  destruct (Ascii.eqb c "013"%char) eqn:Ec.
  - destruct r as [|c2 r2].
    + cbn [app]. destruct t as [|c2 t2]; [reflexivity|].
      destruct (Ascii.eqb_spec c2 "010"%char) as [->|_];
        [exfalso; apply (Ht t2); reflexivity | reflexivity].
    + cbn [app]. destruct (Ascii.eqb c2 "010"%char).
      * rewrite (IH (length r2)) by (simpl in En; lia). reflexivity.
      * change (c2 :: r2 ++ t) with ((c2 :: r2) ++ t).
        rewrite (IH (length (c2 :: r2))) by (simpl in *; lia). reflexivity.
  - rewrite (IH (length r)) by lia. reflexivity.
Qed.

(** Appending text that starts with a line feed: it may close a ["\r"]
    that ends the file. *)
Lemma u_app_lf raw t :
  universal_newlines (raw ++ "010"%char :: t)
  = universal_newlines raw ++ "010"%char :: universal_newlines t
  \/ (universal_newlines (raw ++ "010"%char :: t)
      = universal_newlines raw ++ universal_newlines t
      /\ exists s0, universal_newlines raw = s0 ++ ["010"%char]).
Proof.
  remember (length raw) as n eqn:En. revert raw En.
  induction n as [n IH] using lt_wf_ind. intros [|c r] En; [left; reflexivity|].
  simpl in En. cbn [app]. rewrite (u_cons c (r ++ _)), (u_cons c r).
  destruct (Ascii.eqb c "013"%char) eqn:Ec.
  - destruct r as [|c2 r2].
    + right. split; [reflexivity|]. exists []. reflexivity.
    + cbn [app]. destruct (Ascii.eqb c2 "010"%char).
      * destruct (IH (length r2) ltac:(simpl in En; lia) r2 eq_refl) as [H|[H [s0 Hs0]]];
          rewrite H; [left; reflexivity|].
        right. split; [reflexivity|]. exists ("010"%char :: s0). rewrite Hs0. reflexivity.
      * change (c2 :: r2 ++ "010"%char :: t) with ((c2 :: r2) ++ "010"%char :: t).
        destruct (IH (length (c2 :: r2)) ltac:(simpl in *; lia) (c2 :: r2) eq_refl)
          as [H|[H [s0 Hs0]]]; rewrite H; [left; reflexivity|].
        right. split; [reflexivity|]. exists ("010"%char :: s0). rewrite Hs0. reflexivity.
  - destruct (IH (length r) ltac:(lia) r eq_refl) as [H|[H [s0 Hs0]]];
      rewrite H; [left; reflexivity|].
    right. split; [reflexivity|]. exists (c :: s0). rewrite Hs0. reflexivity.
Qed.

Lemma splitlines_aux_app cur l1 l2 :
  no_cr l1 = true ->
  splitlines_aux cur (l1 ++ l2)
  = fst (scan_lines cur l1) ++ splitlines_aux (snd (scan_lines cur l1)) l2.
Proof.
  revert cur. induction l1 as [|c r IH]; intros cur Hn; [reflexivity|].
  cbn [no_cr forallb] in Hn. apply andb_true_iff in Hn as [Hc Hn].
  apply negb_true_iff in Hc.
  cbn [app splitlines_aux scan_lines]. rewrite Hc.
  destruct (is_line_break c).
  - cbn [fst snd]. rewrite IH by exact Hn. reflexivity.
  - apply IH, Hn.
Qed.

Lemma splitlines_scan s :
  no_cr s = true ->
  splitlines s = fst (scan_lines [] s)
                 ++ match snd (scan_lines [] s) with [] => [] | b => [rev b] end.
Proof.
  intros Hn. unfold splitlines. rewrite <- (app_nil_r s) at 1.
  rewrite splitlines_aux_app by exact Hn.
  destruct (snd (scan_lines [] s)); reflexivity.
Qed.

Lemma scan_lines_last_break cur s0 c :
  is_line_break c = true -> snd (scan_lines cur (s0 ++ [c])) = [].
Proof.
  revert cur. induction s0 as [|d s0 IH]; intros cur Hc.
  - simpl. rewrite Hc. reflexivity.
  - cbn [app scan_lines]. destruct (is_line_break d); [apply IH, Hc | apply IH, Hc].
Qed.

Definition entry_line : list ascii := list_ascii_of_string gitignore_entry ++ ["010"%char].

Lemma u_entry_line : universal_newlines entry_line = entry_line.
Proof. reflexivity. Qed.

Lemma u_lf_entry_line :
  universal_newlines ("010"%char :: entry_line) = "010"%char :: entry_line.
Proof. reflexivity. Qed.

Lemma no_cr_entry_line : no_cr entry_line = true.
Proof. reflexivity. Qed.

Lemma splitlines_aux_entry_line b :
  splitlines_aux b entry_line = [rev b ++ list_ascii_of_string gitignore_entry].
Proof.
  unfold entry_line. rewrite splitlines_aux_app by reflexivity.
  simpl. rewrite <- !app_assoc. reflexivity.
Qed.

Lemma splitlines_aux_lf_entry_line b :
  splitlines_aux b ("010"%char :: entry_line)
  = [rev b; list_ascii_of_string gitignore_entry].
Proof.
  change ("010"%char :: entry_line) with (["010"%char] ++ entry_line).
  rewrite splitlines_aux_app by reflexivity.
  rewrite splitlines_aux_entry_line. reflexivity.
Qed.

Lemma lstrip_nil_iff l : lstrip l = [] <-> forallb is_space l = true.
Proof.
  induction l as [|c r IH]; simpl; [tauto|].
  destruct (is_space c); simpl; [exact IH|]. split; discriminate.
Qed.

Lemma lstrip_app l m :
  lstrip (l ++ m) = match lstrip l with [] => lstrip m | k => k ++ m end.
Proof.
  induction l as [|c r IH]; simpl; [reflexivity|].
  destruct (is_space c); [exact IH|reflexivity].
Qed.

Lemma forallb_rev {A} (f : A -> bool) l : forallb f (rev l) = forallb f l.
Proof.
  induction l as [|a l IH]; simpl; [reflexivity|].
  rewrite forallb_app, IH. simpl. rewrite andb_true_r. apply andb_comm.
Qed.

Lemma forallb_lstrip l : forallb is_space (lstrip l) = true -> lstrip l = [].
Proof.
  induction l as [|c r IH]; simpl; [reflexivity|].
  destruct (is_space c) eqn:E; [exact IH|]. simpl. rewrite E. discriminate.
Qed.

Lemma strip_nil_iff l : strip l = [] <-> forallb is_space l = true.
Proof.
  unfold strip. split.
  - intros H. apply (f_equal (@rev ascii)) in H. rewrite rev_involutive in H.
    apply lstrip_nil_iff in H. rewrite forallb_rev in H.
    apply lstrip_nil_iff, forallb_lstrip, H.
  - intros H. apply lstrip_nil_iff in H. rewrite H. reflexivity.
Qed.

Lemma lines_mem_app x l1 l2 :
  lines_mem x (l1 ++ l2) = lines_mem x l1 || lines_mem x l2.
Proof. apply existsb_app. Qed.

Lemma lines_mem_entry l :
  lines_mem gitignore_entry (l ++ [list_ascii_of_string gitignore_entry]) = true.
Proof. rewrite lines_mem_app. apply orb_true_iff. right. reflexivity. Qed.

Lemma lines_mem_entry2 l r :
  lines_mem gitignore_entry (l ++ [r; list_ascii_of_string gitignore_entry]) = true.
Proof.
  change [r; list_ascii_of_string gitignore_entry]
    with ([r] ++ [list_ascii_of_string gitignore_entry]).
  rewrite app_assoc. apply lines_mem_entry.
Qed.

(** A file that already lists [.codecollector/] or [.codecollector] is
    left as it is. *)
Lemma append_gitignore_entry_fixed f :
  lines_mem gitignore_entry (existing_lines_of f)
  || lines_mem ".codecollector" (existing_lines_of f) = true ->
  append_gitignore_entry f = f.
Proof.
  intros H. unfold append_gitignore_entry.
  destruct (lines_mem gitignore_entry (existing_lines_of f)),
           (lines_mem ".codecollector" (existing_lines_of f)); try reflexivity.
  discriminate.
Qed.

Lemma some_app_neq (raw text : list ascii) : text <> [] -> Some (raw ++ text) <> Some raw.
Proof.
  intros Ht H. injection H as H. apply (f_equal (@length ascii)) in H.
  rewrite length_app in H. destruct text; [contradiction|simpl in H; lia].
Qed.

(** Otherwise the entry is appended, and it is a line of the new file
    unless the old one ends in an unterminated blank line. *)
Lemma append_gitignore_entry_adds_entry f :
  lines_mem gitignore_entry (existing_lines_of f)
  || lines_mem ".codecollector" (existing_lines_of f) = false ->
  unterminated_blank f = false ->
  exists raw', append_gitignore_entry f = Some raw'
               /\ lines_mem gitignore_entry (splitlines (universal_newlines raw')) = true
               /\ append_gitignore_entry f <> f.
Proof.
  intros Hm Hu. apply orb_false_iff in Hm as [Hm1 Hm2].
  destruct f as [raw|].
  2:{ eexists. split; [reflexivity|]. split; [reflexivity|discriminate]. }
  unfold append_gitignore_entry. rewrite Hm1, Hm2. cbn [negb andb].
  unfold existing_lines_of in *.
  set (s := universal_newlines raw) in *.
  assert (Hn : no_cr s = true) by apply u_no_cr.
  unfold unterminated_blank in Hu. fold s in Hu. rewrite Hm1, Hm2 in Hu.
  cbn [negb andb] in Hu. unfold trailing_text in Hu.
  rewrite (splitlines_scan s Hn) in *.
  destruct (snd (scan_lines [] s)) as [|x b] eqn:Eb.
  - (* the text ends with a line break, or is empty *)
    rewrite app_nil_r.
    assert (HT1 : splitlines (universal_newlines (raw ++ entry_line))
                  = fst (scan_lines [] s) ++ [list_ascii_of_string gitignore_entry]).
    { rewrite u_app_not_lf by (intros t'; discriminate).
      fold s. rewrite u_entry_line. unfold splitlines.
      rewrite splitlines_aux_app by exact Hn. rewrite Eb, splitlines_aux_entry_line.
      reflexivity. }
    assert (HT2 : lines_mem gitignore_entry
                    (splitlines (universal_newlines (raw ++ "010"%char :: entry_line)))
                  = true).
    { destruct (u_app_lf raw entry_line) as [H|[H _]]; rewrite H; fold s.
      - rewrite u_entry_line. unfold splitlines.
        rewrite <- (app_nil_l ("010"%char :: entry_line)) at 1.
        change ([] ++ "010"%char :: entry_line) with ("010"%char :: entry_line).
        rewrite splitlines_aux_app by exact Hn. rewrite Eb, splitlines_aux_lf_entry_line.
        apply lines_mem_entry2.
      - rewrite u_entry_line. unfold splitlines.
        rewrite splitlines_aux_app by exact Hn. rewrite Eb, splitlines_aux_entry_line.
        apply lines_mem_entry. }
    destruct (fst (scan_lines [] s)) as [|l0 ls] eqn:Els.
    + eexists. split; [reflexivity|]. split; [exact HT2|].
      apply some_app_neq. discriminate.
    + destruct (strip (last (l0 :: ls) [])) as [|y ys].
      * eexists. split; [reflexivity|]. split.
        -- change (list_ascii_of_string gitignore_entry ++ ["010"%char]) with entry_line.
           rewrite HT1. apply lines_mem_entry.
        -- apply some_app_neq. discriminate.
      * eexists. split; [reflexivity|]. split; [exact HT2|].
        apply some_app_neq. discriminate.
  - (* an unterminated last line, not blank *)
    remember (rev (x :: b)) as w eqn:Ew.
    destruct (fst (scan_lines [] s) ++ [w]) as [|h t] eqn:Ecase.
    { symmetry in Ecase. apply app_cons_not_nil in Ecase. destruct Ecase. }
    rewrite <- Ecase, last_last.
    assert (Hw : strip w <> []).
    { intros Hs. apply strip_nil_iff in Hs.
      destruct w as [|a l].
      - apply (f_equal (@length ascii)) in Ew. rewrite length_rev in Ew. discriminate.
      - change (forallb is_space (a :: l) = false) in Hu.
        rewrite Hs in Hu. discriminate. }
    destruct (strip w) as [|y ys]; [contradiction|].
    eexists. split; [reflexivity|]. split.
    + change ("010"%char :: list_ascii_of_string gitignore_entry ++ ["010"%char])
        with ("010"%char :: entry_line).
      destruct (u_app_lf raw entry_line) as [H|[_ [s0 Hs0]]].
      * rewrite H. fold s. rewrite u_entry_line. unfold splitlines.
        rewrite <- (app_nil_l ("010"%char :: entry_line)) at 1.
        change ([] ++ "010"%char :: entry_line) with ("010"%char :: entry_line).
        rewrite splitlines_aux_app by exact Hn. rewrite Eb, splitlines_aux_lf_entry_line.
        apply lines_mem_entry2.
      * fold s in Hs0. rewrite Hs0, scan_lines_last_break in Eb by reflexivity.
        discriminate.
    + apply some_app_neq. discriminate.
Qed.

Lemma rev_app_entry_neq b x :
  b <> [] -> String.eqb (string_of_list_ascii (rev b ++ list_ascii_of_string gitignore_entry)) x = true ->
  String.length x <= 15 -> False.
Proof.
  intros Hb H Hx. apply String.eqb_eq in H. subst x.
  assert (Hl : forall l, String.length (string_of_list_ascii l) = length l).
  { induction l as [|c l IH]; simpl; [reflexivity|]. rewrite IH. reflexivity. }
  rewrite Hl, length_app, length_rev in Hx.
  destruct b; [contradiction|]. simpl in Hx. lia.
Qed.

(** In the other case the entry is glued to the blank text, and that line
    is not recognised as the entry. *)
Lemma append_gitignore_entry_unterminated f :
  unterminated_blank f = true ->
  exists raw raw', f = Some raw /\ append_gitignore_entry f = Some raw'
                   /\ raw' = raw ++ entry_line
                   /\ lines_mem gitignore_entry (existing_lines_of (Some raw'))
                      || lines_mem ".codecollector" (existing_lines_of (Some raw')) = false
                   /\ unterminated_blank (Some raw') = false
                   /\ exists line, In line (existing_lines_of (Some raw'))
                                   /\ strip line = list_ascii_of_string gitignore_entry.
Proof.
  intros Hu. destruct f as [raw|]; [|discriminate].
  unfold unterminated_blank in Hu.
  set (s := universal_newlines raw) in *.
  assert (Hn : no_cr s = true) by apply u_no_cr.
  apply andb_true_iff in Hu as [Hm Hw]. apply andb_true_iff in Hm as [Hm1 Hm2].
  apply negb_true_iff in Hm1, Hm2.
  unfold trailing_text in Hw.
  rewrite (splitlines_scan s Hn) in Hm1, Hm2.
  destruct (snd (scan_lines [] s)) as [|x b] eqn:Eb; [discriminate|].
  remember (rev (x :: b)) as w eqn:Ew.
  destruct w as [|a l]; [apply (f_equal (@length ascii)) in Ew; rewrite length_rev in Ew; discriminate|].
  change (forallb is_space (a :: l) = true) in Hw.
  (* the code's view *)
  assert (Hu1 : universal_newlines (raw ++ entry_line) = s ++ entry_line).
  { rewrite u_app_not_lf by (intros t'; discriminate). rewrite u_entry_line. reflexivity. }
  exists raw, (raw ++ entry_line). split; [reflexivity|].
  split.
  { unfold append_gitignore_entry, existing_lines_of. fold s.
    rewrite (splitlines_scan s Hn), Eb, <- Ew, Hm1, Hm2. cbn [negb andb].
    destruct (fst (scan_lines [] s) ++ [a :: l]) as [|h t] eqn:Ecase.
    { symmetry in Ecase. apply app_cons_not_nil in Ecase. destruct Ecase. }
    rewrite <- Ecase, last_last.
    assert (Hs : strip (a :: l) = []) by (apply strip_nil_iff, Hw).
    rewrite Hs. reflexivity. }
  split; [reflexivity|].
  assert (Hlines : splitlines (universal_newlines (raw ++ entry_line))
                   = fst (scan_lines [] s) ++ [a :: l ++ list_ascii_of_string gitignore_entry]).
  { rewrite Hu1. unfold splitlines. rewrite splitlines_aux_app by exact Hn.
    rewrite Eb, splitlines_aux_entry_line, <- Ew. reflexivity. }
  split.
  - unfold existing_lines_of. rewrite Hlines, !lines_mem_app.
    rewrite lines_mem_app in Hm1, Hm2.
    apply orb_false_iff in Hm1 as [Hm1 _]. apply orb_false_iff in Hm2 as [Hm2 _].
    rewrite Hm1, Hm2. cbn [orb].
    assert (Hb : rev (a :: l) <> []).
    { intros Hr. apply (f_equal (@length ascii)) in Hr. rewrite length_rev in Hr.
      discriminate. }
    unfold lines_mem, existsb. rewrite !orb_false_r.
    destruct (String.eqb (string_of_list_ascii (a :: l ++ list_ascii_of_string gitignore_entry))
                         gitignore_entry) eqn:E1.
    { exfalso. apply (rev_app_entry_neq (rev (a :: l)) gitignore_entry Hb).
      - rewrite rev_involutive. exact E1.
      - simpl. lia. }
    destruct (String.eqb (string_of_list_ascii (a :: l ++ list_ascii_of_string gitignore_entry))
                         ".codecollector") eqn:E2; [|reflexivity].
    exfalso. apply (rev_app_entry_neq (rev (a :: l)) ".codecollector" Hb).
    + rewrite rev_involutive. exact E2.
    + simpl. lia.
  - split.
    + unfold unterminated_blank, trailing_text. rewrite Hu1.
      change (s ++ entry_line)
        with (s ++ list_ascii_of_string gitignore_entry ++ ["010"%char]).
      rewrite app_assoc, scan_lines_last_break by reflexivity.
      apply andb_false_r.
    + exists (a :: l ++ list_ascii_of_string gitignore_entry). split.
      * unfold existing_lines_of. rewrite Hlines. apply in_or_app. right. left. reflexivity.
      * unfold strip. rewrite app_comm_cons, lstrip_app.
        rewrite (proj2 (lstrip_nil_iff (a :: l)) Hw). reflexivity.
Qed.

Lemma ascii_utf8_valid raw :
  forallb (fun c => nat_of_ascii c <? 128) raw = true -> utf8_valid raw = true.
Proof.
  induction raw as [|c r IH]; intro H; [reflexivity|].
  cbn [forallb] in H. apply andb_true_iff in H as [Hc Hr].
  apply Nat.ltb_lt in Hc. cbn [utf8_valid].
  assert (E : byte_in c 0 127 = true)
    by (unfold byte_in; apply andb_true_iff; split; apply Nat.leb_le; lia).
  rewrite E. apply IH, Hr.
Qed.

(** The text of [.gitignore] is ASCII ([None]: no file). *)
Definition ascii_text (f : option (list ascii)) : bool :=
  match f with
  | Some raw => forallb (fun c => nat_of_ascii c <? 128) raw
  | None => true
  end.

Lemma update_gitignore_ascii f :
  ascii_text f = true -> update_gitignore f = append_gitignore_entry f.
Proof.
  destruct f as [raw|]; [|reflexivity]. intro H. unfold update_gitignore.
  rewrite (ascii_utf8_valid raw H). reflexivity.
Qed.

Lemma append_keeps_ascii f :
  ascii_text f = true -> ascii_text (append_gitignore_entry f) = true.
Proof.
  intros H. unfold append_gitignore_entry.
  destruct (negb _ && negb _); [|exact H].
  destruct f as [raw|]; [|reflexivity].
  simpl in H. unfold ascii_text.
  destruct (existing_lines_of (Some raw));
    [|destruct (strip _)]; rewrite forallb_app, H; reflexivity.
Qed.

Lemma append_gitignore_entry_settles f :
  append_gitignore_entry (append_gitignore_entry (append_gitignore_entry f)) = append_gitignore_entry (append_gitignore_entry f)
  /\ (append_gitignore_entry (append_gitignore_entry f) = append_gitignore_entry f
      <-> unterminated_blank f = false).
Proof.
  destruct (lines_mem gitignore_entry (existing_lines_of f)
            || lines_mem ".codecollector" (existing_lines_of f)) eqn:Hm.
  - rewrite !(append_gitignore_entry_fixed f Hm). split; [reflexivity|].
    split; [intros _|reflexivity].
    destruct f as [raw|]; [|reflexivity].
    unfold unterminated_blank. unfold existing_lines_of in Hm.
    apply orb_true_iff in Hm as [H|H]; rewrite H; [reflexivity|].
    destruct (lines_mem gitignore_entry _); reflexivity.
  - destruct (unterminated_blank f) eqn:Hu.
    + destruct (append_gitignore_entry_unterminated f Hu)
        as [raw [raw' [-> [Hup [_ [Hm' [Hu' _]]]]]]].
      rewrite Hup.
      destruct (append_gitignore_entry_adds_entry (Some raw') Hm' Hu') as [raw'' [Hup' [Hin Hne]]].
      rewrite Hup'.
      assert (Hfix : append_gitignore_entry (Some raw'') = Some raw'').
      { apply append_gitignore_entry_fixed. unfold existing_lines_of. rewrite Hin. reflexivity. }
      rewrite Hfix. split; [reflexivity|].
      split; [|discriminate]. intros H. rewrite <- Hup' in H. contradiction.
    + destruct (append_gitignore_entry_adds_entry f Hm Hu) as [raw' [Hup [Hin _]]].
      rewrite Hup.
      assert (Hfix : append_gitignore_entry (Some raw') = Some raw').
      { apply append_gitignore_entry_fixed. unfold existing_lines_of. rewrite Hin. reflexivity. }
      rewrite !Hfix. split; [reflexivity|]. split; reflexivity.
Qed.

(** X15 ([ProjectSettings._update_gitignore], called by every
    [save_settings]). For a [.gitignore] of ASCII text, calling it again
    leaves the file unchanged, except when the file (without a
    [.codecollector] line) ends in text after its last line break that is
    non-empty and all whitespace: then the entry is glued to that text,
    is not recognised on the next call, and a second copy is appended.
    From the second call on, the file never changes. *)
Theorem update_gitignore_settles f :
  ascii_text f = true ->
  update_gitignore (update_gitignore (update_gitignore f)) = update_gitignore (update_gitignore f)
  /\ (update_gitignore (update_gitignore f) = update_gitignore f
      <-> unterminated_blank f = false).
Proof.
  intros Ha.
  pose proof (append_keeps_ascii f Ha) as Ha1.
  pose proof (append_keeps_ascii _ Ha1) as Ha2.
  rewrite (update_gitignore_ascii f Ha), (update_gitignore_ascii _ Ha1),
    (update_gitignore_ascii _ Ha2).
  apply append_gitignore_entry_settles.
Qed.

Lemma update_gitignore_settles_witness :
  let f := Some (list_ascii_of_string "foo" ++ ["010"%char; " "%char; " "%char]) in
  unterminated_blank f = true
  /\ update_gitignore (update_gitignore (update_gitignore f)) = update_gitignore (update_gitignore f)
  /\ update_gitignore (update_gitignore f) <> update_gitignore f.
Proof.
  intros f.
  destruct (update_gitignore_settles f ltac:(reflexivity)) as [H3 H2].
  assert (Hu : unterminated_blank f = true) by reflexivity.
  split; [exact Hu|]. split; [exact H3|].
  intro E. apply H2 in E. rewrite Hu in E. discriminate.
Defined.

(** *** The settings directory is never collected *)

(** The file's line breaks are ["\n"], ["\r\n"] or ["\r"]: it has no
    vertical tab, form feed or [\x1c]..[\x1e], which [splitlines] takes
    as line breaks and [for line in f] does not. *)
Definition no_extra_breaks (l : list ascii) : bool :=
  forallb (fun c => negb (is_line_break c) || Ascii.eqb c "010"%char
                    || Ascii.eqb c "013"%char) l.

Definition gitignore_breaks_ok (f : option (list ascii)) : bool :=
  match f with Some raw => no_extra_breaks raw | None => true end.

Definition only_lf (l : list ascii) : bool :=
  forallb (fun c => negb (is_line_break c) || Ascii.eqb c "010"%char) l.

Lemma only_lf_lf_cons l : only_lf ("010"%char :: l) = only_lf l.
Proof. reflexivity. Qed.

Lemma u_only_lf raw : no_extra_breaks raw = true -> only_lf (universal_newlines raw) = true.
Proof.
  remember (length raw) as n eqn:En. revert raw En.
  induction n as [n IH] using lt_wf_ind. intros [|c r] En Hb; [reflexivity|].
  simpl in En. unfold no_extra_breaks in Hb. cbn [forallb] in Hb.
  apply andb_true_iff in Hb as [Hc Hr]. fold (no_extra_breaks r) in Hr.
  rewrite u_cons. destruct (Ascii.eqb c "013"%char) eqn:Ec.
  - rewrite only_lf_lf_cons.
    destruct r as [|c2 r2]; [reflexivity|].
    destruct (Ascii.eqb c2 "010"%char).
    + apply (IH (length r2)); [simpl in En; lia|reflexivity|].
      unfold no_extra_breaks in Hr. cbn [forallb] in Hr.
      apply andb_true_iff in Hr as [_ Hr]. exact Hr.
    + apply (IH (length (c2 :: r2))); [simpl in *; lia|reflexivity|exact Hr].
  - unfold only_lf. cbn [forallb]. fold (only_lf (universal_newlines r)).
    rewrite (IH (length r)); [|lia|reflexivity|exact Hr].
    rewrite orb_false_r in Hc. rewrite Hc. reflexivity.
Qed.

Lemma only_lf_no_cr l : only_lf l = true -> no_cr l = true.
Proof.
  unfold only_lf, no_cr. rewrite !forallb_forall. intros H c Hc.
  specialize (H c Hc). destruct (Ascii.eqb_spec c "013"%char) as [->|]; [discriminate|].
  reflexivity.
Qed.

Lemma file_lines_scan cur l :
  only_lf l = true ->
  file_lines cur l = map (fun x => x ++ ["010"%char]) (fst (scan_lines cur l))
                     ++ match snd (scan_lines cur l) with [] => [] | b => [rev b] end.
Proof.
  revert cur. induction l as [|c r IH]; intros cur Hl.
  - destruct cur; reflexivity.
  - unfold only_lf in Hl. cbn [forallb] in Hl. apply andb_true_iff in Hl as [Hc Hr].
    fold (only_lf r) in Hr. cbn [file_lines scan_lines].
    destruct (Ascii.eqb_spec c "010"%char) as [->|Hn].
    + cbn [is_line_break]. simpl (nat_of_ascii _ =? _). cbn [orb fst snd map app].
      rewrite IH by exact Hr. reflexivity.
    + destruct (is_line_break c); [|apply IH, Hr].
      destruct (Ascii.eqb_spec c "010"%char); [contradiction|discriminate].
Qed.

Lemma strip_app_lf l : strip (l ++ ["010"%char]) = strip l.
Proof.
  unfold strip. rewrite lstrip_app.
  destruct (lstrip l) as [|k ks]; [reflexivity|].
  rewrite rev_app_distr. reflexivity.
Qed.

(** A line of the file that strips to [x] gives the pattern [x]. *)
Lemma parse_gitignore_has raw x line :
  no_extra_breaks raw = true ->
  In line (splitlines (universal_newlines raw)) ->
  strip line = list_ascii_of_string x ->
  (exists c r, list_ascii_of_string x = c :: r /\ Ascii.eqb c "#"%char = false) ->
  In x (parse_gitignore (Some raw)).
Proof.
  intros Hb Hin Hs [c [r [Hx Hc]]].
  pose proof (u_only_lf raw Hb) as Ho.
  unfold parse_gitignore. apply in_flat_map.
  rewrite (splitlines_scan _ (only_lf_no_cr _ Ho)) in Hin.
  rewrite (file_lines_scan [] _ Ho).
  assert (Hbody : forall fl, strip fl = list_ascii_of_string x ->
            In x (match strip fl with
                  | [] => []
                  | c :: r => if Ascii.eqb c "#"%char then []
                              else [string_of_list_ascii (c :: r)]
                  end)).
  { intros fl Hfl. rewrite Hfl, Hx, Hc, <- Hx, string_of_list_ascii_of_string.
    left. reflexivity. }
  apply in_app_or in Hin as [Hin|Hin].
  - exists (line ++ ["010"%char]). split.
    + apply in_or_app. left. apply (in_map (fun x => x ++ ["010"%char])), Hin.
    + apply Hbody. rewrite strip_app_lf. exact Hs.
  - exists line. split; [apply in_or_app; right; exact Hin|apply Hbody, Hs].
Qed.

Lemma update_keeps_breaks f :
  gitignore_breaks_ok f = true -> gitignore_breaks_ok (append_gitignore_entry f) = true.
Proof.
  intros H. unfold append_gitignore_entry.
  destruct (negb _ && negb _); [|exact H].
  destruct f as [raw|]; [|reflexivity].
  simpl in H. unfold gitignore_breaks_ok, no_extra_breaks.
  destruct (existing_lines_of (Some raw));
    [|destruct (strip _)]; rewrite forallb_app; fold (no_extra_breaks raw);
    rewrite H; reflexivity.
Qed.

Lemma lines_mem_In x lines :
  lines_mem x lines = true -> exists line, In line lines /\ line = list_ascii_of_string x.
Proof.
  intros H. apply existsb_exists in H as [line [Hin He]].
  apply String.eqb_eq in He. exists line. split; [exact Hin|].
  rewrite <- He, list_ascii_of_string_of_list_ascii. reflexivity.
Qed.

(** After [_append_gitignore_entry], [parse_gitignore] reads a
    [.codecollector/] or [.codecollector] pattern from the file. *)
Lemma append_gitignore_entry_lists_entry f :
  gitignore_breaks_ok f = true ->
  In ".codecollector/"%string (parse_gitignore (append_gitignore_entry f))
  \/ In ".codecollector"%string (parse_gitignore (append_gitignore_entry f)).
Proof.
  intros Hb.
  assert (Hhash : forall x, (exists r, x = String "." r) ->
            exists c r, list_ascii_of_string x = c :: r /\ Ascii.eqb c "#"%char = false).
  { intros x [r ->]. exists "."%char, (list_ascii_of_string r). split; reflexivity. }
  pose proof (update_keeps_breaks f Hb) as Hb'.
  destruct (lines_mem gitignore_entry (existing_lines_of f)
            || lines_mem ".codecollector" (existing_lines_of f)) eqn:Hm.
  - rewrite (append_gitignore_entry_fixed f Hm).
    destruct f as [raw|]; [|discriminate]. simpl in Hb.
    apply orb_true_iff in Hm as [H|H]; apply lines_mem_In in H as [line [Hin ->]];
      [left|right]; apply (parse_gitignore_has raw _ _ Hb Hin);
      try reflexivity; apply Hhash; eexists; reflexivity.
  - destruct (unterminated_blank f) eqn:Hu.
    + destruct (append_gitignore_entry_unterminated f Hu)
        as [raw [raw' [-> [Hup [_ [_ [_ [line [Hin Hs]]]]]]]]].
      rewrite Hup in *. simpl in Hb'. left.
      apply (parse_gitignore_has raw' _ line Hb' Hin Hs). apply Hhash; eexists; reflexivity.
    + destruct (append_gitignore_entry_adds_entry f Hm Hu) as [raw' [Hup [Hin _]]].
      rewrite Hup in *. simpl in Hb'. left.
      apply lines_mem_In in Hin as [line [Hin ->]].
      apply (parse_gitignore_has raw' _ _ Hb' Hin); [reflexivity|].
      apply Hhash; eexists; reflexivity.
Qed.

Lemma relative_to_prefix root rel : relative_to (root ++ rel) root = Some rel.
Proof.
  induction root as [|r root IH]; [destruct rel; reflexivity|].
  simpl. rewrite String.eqb_refl. exact IH.
Qed.

Lemma codecollector_pattern_ignores root rest pats :
  In ".codecollector/"%string pats \/ In ".codecollector"%string pats ->
  is_ignored_by_gitignore (root ++ ".codecollector"%string :: rest) root pats = true.
Proof.
  intros Hp. unfold is_ignored_by_gitignore.
  destruct pats as [|p0 ps]; [destruct Hp as [[]|[]]|].
  rewrite relative_to_prefix. apply existsb_exists.
  destruct Hp as [Hp|Hp]; (eexists; split; [exact Hp|]); unfold pattern_matches.
  - apply orb_true_iff. right. reflexivity.
  - apply orb_true_iff. left. apply orb_true_iff. right.
    apply existsb_exists. exists 0. split; [apply in_seq; simpl; lia|].
    apply orb_true_iff. right. reflexivity.
Qed.

(** X16 ([ProjectSettings._update_gitignore], [GitignoreHandler.parse_gitignore],
    [is_ignored_by_gitignore], [CodeCollector._should_include_file]).
    Once [save_settings] has updated [.gitignore], no scan collects
    anything below [root/.codecollector], the settings file included,
    whatever ASCII text the file held before (its line breaks being
    ["\n"], ["\r\n"] or ["\r"]). *)
Theorem settings_dir_never_collected f c root sbt entries rest :
  ascii_text f = true -> gitignore_breaks_ok f = true ->
  ~ In (root ++ ".codecollector"%string :: rest)
       (scan_and_collect c root (update_gitignore f) sbt entries).
Proof.
  intros Ha Hb Hin. rewrite (update_gitignore_ascii f Ha) in Hin.
  apply (Permutation_in _ (scan_and_collect_perm c root _ sbt entries)) in Hin.
  apply filter_In in Hin as [_ Hi]. unfold should_include_file in Hi.
  rewrite codecollector_pattern_ignores in Hi by apply append_gitignore_entry_lists_entry, Hb.
  destruct (c_is_dir c _); discriminate.
Qed.

Definition ex_settings_file : path := ex_root ++ [".codecollector"; "proj.json"]%string.

Lemma settings_dir_never_collected_witness :
  let f := Some (list_ascii_of_string "foo" ++ ["010"%char; " "%char; " "%char]) in
  ascii_text f = true /\ gitignore_breaks_ok f = true
  /\ ~ In ex_settings_file (scan_and_collect ex_cfs ex_root (update_gitignore f) false
                                             [ex_settings_file])
  /\ scan_and_collect ex_cfs ex_root f false [ex_settings_file] = [ex_settings_file].
Proof.
  intros f. split; [reflexivity|]. split; [reflexivity|]. split.
  - apply (settings_dir_never_collected f ex_cfs ex_root false [ex_settings_file]
             ["proj.json"%string]); reflexivity.
  - vm_compute. reflexivity.
Defined.

(* ------------------------------------------------------------------ *)
(** ** The configuration of a run *)

Lemma str_mem_In x l : str_mem x l = true -> In x l.
Proof.
  unfold str_mem. rewrite existsb_exists. intros (y & Hy & E).
  apply String.eqb_eq in E. subst. exact Hy.
Qed.

Lemma str_mem_insert s a f b :
  String.eqb s f = false -> str_mem s (a ++ f :: b) = str_mem s (a ++ b).
Proof.
  intro E. unfold str_mem. rewrite !existsb_app. cbn [existsb].
  rewrite E. reflexivity.
Qed.

(** Two configurations that agree on every field but [interactive],
    [markdown_format] and [show_structure]. *)
Definition cfg_sim (c1 c2 : config) : Prop :=
  sort_by_time c1 = sort_by_time c2 /\ remote_mode c1 = remote_mode c2
  /\ source_dir c1 = source_dir c2 /\ output_file c1 = output_file c2.

Lemma parse_arg_sim c1 c2 a : cfg_sim c1 c2 -> cfg_sim (parse_arg c1 a) (parse_arg c2 a).
Proof.
  destruct c1 as [i1 t1 m1 s1 r1 d1 o1], c2 as [i2 t2 m2 s2 r2 d2 o2].
  unfold cfg_sim; cbn. intros (-> & -> & -> & ->).
  destruct d2 as [d|], o2 as [o|]; unfold parse_arg; cbn [source_dir output_file];
    repeat match goal with |- context [if ?b then _ else _] => destruct b end;
    cbn; repeat split; reflexivity.
Qed.

Lemma fold_parse_arg_sim l : forall c1 c2,
  cfg_sim c1 c2 -> cfg_sim (fold_left parse_arg l c1) (fold_left parse_arg l c2).
Proof.
  induction l as [|a l IH]; intros c1 c2 H; [exact H|].
  apply IH, parse_arg_sim, H.
Qed.

Definition LAYOUT_FLAGS : list string :=
  ["-i"; "--interactive"; "-m"; "--markdown"; "--no-markdown";
   "-s"; "--structure"; "--no-structure"]%string.

Lemma parse_arg_layout c f : In f LAYOUT_FLAGS -> cfg_sim (parse_arg c f) c.
Proof.
  intro Hf. unfold cfg_sim.
  repeat (destruct Hf as [<-|Hf]; [destruct c; cbn; repeat split; reflexivity|]).
  destruct Hf.
Qed.

Lemma parse_cli_args_layout prog a f b :
  In f LAYOUT_FLAGS ->
  cfg_sim (parse_cli_args (prog :: a ++ f :: b)) (parse_cli_args (prog :: a ++ b)).
Proof.
  intro Hf. unfold parse_cli_args. cbn [tl]. rewrite !fold_left_app. cbn [fold_left].
  apply fold_parse_arg_sim. apply parse_arg_layout, Hf.
Qed.

Lemma layout_not_mode_flag f s :
  In f LAYOUT_FLAGS -> In s (["--setup"; "--quick"; "--reset"]%string ++ TIME_FLAGS) ->
  String.eqb s f = false.
Proof.
  intros Hf Hs.
  repeat (destruct Hf as [<-|Hf];
          [repeat (destruct Hs as [<-|Hs]; [reflexivity|]); destruct Hs|]).
  destruct Hf.
Qed.

Lemma determine_mode_layout prog a f b saved :
  In f LAYOUT_FLAGS ->
  determine_mode (prog :: a ++ f :: b) saved = determine_mode (prog :: a ++ b) saved.
Proof.
  intro Hf. unfold determine_mode.
  change (prog :: a ++ f :: b) with ((prog :: a) ++ f :: b).
  change (prog :: a ++ b) with ((prog :: a) ++ b).
  rewrite !(str_mem_insert _ (prog :: a) f b)
    by (apply layout_not_mode_flag; [exact Hf | simpl; tauto]).
  reflexivity.
Qed.

Lemma any_time_layout prog a f b :
  In f LAYOUT_FLAGS ->
  any_in TIME_FLAGS (prog :: a ++ f :: b) = any_in TIME_FLAGS (prog :: a ++ b).
Proof.
  intro Hf. unfold any_in, TIME_FLAGS. cbn [existsb].
  change (prog :: a ++ f :: b) with ((prog :: a) ++ f :: b).
  change (prog :: a ++ b) with ((prog :: a) ++ b).
  rewrite !(str_mem_insert _ (prog :: a) f b)
    by (apply layout_not_mode_flag; [exact Hf | simpl; tauto]).
  reflexivity.
Qed.

Lemma sort_by_time_merge argv c saved :
  sort_by_time (merge_with_saved_settings argv c saved)
  = match saved with
    | None => sort_by_time c
    | Some p => if any_in TIME_FLAGS argv then sort_by_time c
                else get_or (p_sort_by_time p) (sort_by_time c)
    end.
Proof.
  destruct saved as [p|]; [|reflexivity]. unfold merge_with_saved_settings.
  destruct (any_in TIME_FLAGS argv), (any_in MARKDOWN_FLAGS argv),
    (any_in STRUCTURE_FLAGS argv); cbn;
    match goal with |- context [if ?b then _ else _] => destruct b end; reflexivity.
Qed.

Lemma user_preferences_write c :
  user_preferences (write_config c)
  = mkPrefs (Some (interactive c)) (Some (sort_by_time c)) (Some true) (Some true) None.
Proof. destruct c; reflexivity. Qed.

Lemma config_for_mode_layout prog a f b saved k1 k2 :
  In f LAYOUT_FLAGS ->
  let c1 := config_for_mode (prog :: a ++ f :: b) saved k1 k2 in
  let c2 := config_for_mode (prog :: a ++ b) saved k1 k2 in
  sort_by_time c1 = sort_by_time c2 /\ interactive c1 = interactive c2.
Proof.
  intros Hf c1 c2. subst c1 c2. unfold config_for_mode.
  rewrite (determine_mode_layout prog a f b saved Hf).
  destruct (parse_cli_args_layout prog a f b Hf) as (Hs & _).
  destruct (determine_mode (prog :: a ++ b) saved); cbn; try (split; reflexivity).
  destruct saved as [[s p]|]; cbn [sort_by_time interactive set_interactive];
    rewrite !sort_by_time_merge; cbn [option_map snd];
    unfold parse_cli_args in Hs; cbn [tl] in Hs;
    rewrite ?(any_time_layout prog a f b Hf), Hs;
    split; reflexivity.
Qed.

Lemma start_selector_files fs files root file st :
  start_selector fs files root file = Some st ->
  Permutation (fpaths (tree_root st)) files.
Proof.
  unfold start_selector.
  destruct (match load_settings root file with
            | Some s => filter_existing_paths fs root (selected_files s) (selected_folders s)
            | None => ([], [])
            end) as [F D].
  intro Hi. destruct (init_tree _ _ _ _ _ Hi) as (t & Hb & Hs).
  rewrite (fpaths_same_sel _ _ Hs). exact (build_file_tree_perm _ _ _ Hb).
Qed.

(** Specification side: the fields of a settings file that a run writes. *)
Definition written_file (root : path) (sel : list path) (interactive_mode sort : bool)
  : settings_file :=
  (save_user_preferences root sel, mkPrefs (Some interactive_mode) (Some sort) (Some true) (Some true) None).

(** Example data for the run of the application. *)
Definition ex_app_root : path := ["home"; "u"; "proj"]%string.
Definition ex_app_entries : list path :=
  [["home"; "u"; "proj"; "main.py"]; ["home"; "u"; "proj"; "src"; "util.py"]]%string.
Definition ex_app_fs : fsys := mkFsys (fun _ => true) (fun _ => true) (fun _ => false).
Definition ex_app_file : option settings_file :=
  Some (written_file ex_app_root [["home"; "u"; "proj"; "main.py"]%string] false true).

(** Specification side: the first two positional arguments, filled in
    the order they come. *)
Fixpoint fill_positionals (s o : option string) (l : list string)
  : option string * option string :=
  match l with
  | [] => (s, o)
  | a :: r =>
      match s with
      | None => fill_positionals (Some a) o r
      | Some _ =>
          match o with
          | None => fill_positionals s (Some a) r
          | Some _ => fill_positionals s o r
          end
      end
  end.

Lemma parse_arg_positional c a :
  (source_dir (parse_arg c a), output_file (parse_arg c a))
  = if String.prefix "-" a then (source_dir c, output_file c)
    else match source_dir c with
         | None => (Some a, output_file c)
         | Some _ => match output_file c with
                     | None => (source_dir c, Some a)
                     | Some _ => (source_dir c, output_file c)
                     end
         end.
Proof.
  unfold parse_arg. destruct (String.prefix "-" a) eqn:Ep.
  - repeat match goal with
           | |- context [if str_mem ?x ?l then _ else _] =>
               destruct (str_mem x l); [destruct c; reflexivity|]
           end.
    reflexivity.
  - repeat match goal with
           | |- context [if str_mem ?x ?l then _ else _] =>
               let E := fresh "E" in
               destruct (str_mem x l) eqn:E;
               [apply str_mem_In in E;
                repeat (destruct E as [<-|E]; [discriminate Ep|]); destruct E|]
           end.
    cbn. destruct c as [i t m s r [d|] [o|]]; reflexivity.
Qed.

Lemma fold_parse_arg_positionals l : forall c,
  (source_dir (fold_left parse_arg l c), output_file (fold_left parse_arg l c))
  = fill_positionals (source_dir c) (output_file c)
                     (filter (fun a => negb (String.prefix "-" a)) l).
Proof.
  induction l as [|a l IH]; intro c; [reflexivity|].
  cbn [fold_left]. rewrite IH.
  pose proof (parse_arg_positional c a) as E.
  cbn [filter]. destruct (String.prefix "-" a); cbn [negb].
  - injection E as -> ->. reflexivity.
  - destruct (source_dir c), (output_file c); injection E as -> ->; reflexivity.
Qed.

Lemma fill_positionals_full x y r : fill_positionals (Some x) (Some y) r = (Some x, Some y).
Proof. induction r; [reflexivity|exact IHr]. Qed.

Lemma In_str_mem x l : In x l -> str_mem x l = true.
Proof.
  intro H. unfold str_mem. apply existsb_exists. exists x. split; [exact H|].
  apply String.eqb_refl.
Qed.

Lemma parse_arg_sort_other c x :
  ~ In x TIME_FLAGS -> sort_by_time (parse_arg c x) = sort_by_time c.
Proof.
  intro Hx. unfold parse_arg.
  repeat match goal with
         | |- context [if str_mem x ?l then _ else _] =>
             let E := fresh "E" in
             destruct (str_mem x l) eqn:E;
             [first [destruct c; reflexivity
                    | apply str_mem_In in E; exfalso; apply Hx; cbn in E |- *; tauto]|]
         end.
  destruct c as [i t m s r [d|] [o|]]; cbn; destruct (negb _); reflexivity.
Qed.

Lemma fold_parse_arg_sort_other l : forall c,
  (forall x, In x l -> ~ In x TIME_FLAGS) ->
  sort_by_time (fold_left parse_arg l c) = sort_by_time c.
Proof.
  induction l as [|x l IH]; intros c Hl; [reflexivity|].
  cbn [fold_left]. rewrite IH by (intros y Hy; apply Hl; right; exact Hy).
  apply parse_arg_sort_other, Hl. left; reflexivity.
Qed.

Lemma parse_arg_sort_time c f :
  In f TIME_FLAGS -> sort_by_time (parse_arg c f) = negb (String.eqb f "--no-time").
Proof.
  intro Hf.
  repeat (destruct Hf as [<-|Hf]; [destruct c; reflexivity|]). destruct Hf.
Qed.

(** X17 ([ConfigManager.parse_cli_args], [merge_with_saved_settings],
    [CodeCollectorApp._determine_mode], [run]). The flags [-i],
    [--interactive], [-m], [--markdown], [--no-markdown], [-s],
    [--structure] and [--no-structure] have no effect on a run: adding one
    anywhere after the program name changes neither the files collected
    and selected, nor the exit code, nor what is saved. Every mode sets
    [interactive] itself, and step 4 forces Markdown with the structure. *)
Theorem layout_flags_have_no_effect prog a f b fs c root gi entries file k1 k2 keys :
  In f LAYOUT_FLAGS ->
  app_run (prog :: a ++ f :: b) fs c root gi entries file k1 k2 keys
  = app_run (prog :: a ++ b) fs c root gi entries file k1 k2 keys.
Proof.
  intro Hf. unfold app_run. cbv zeta.
  rewrite (determine_mode_layout prog a f b _ Hf), !user_preferences_write.
  destruct (config_for_mode_layout prog a f b (load_app_settings root file) k1 k2 Hf)
    as [Hs Hi].
  rewrite Hs, Hi. reflexivity.
Qed.

Lemma layout_flags_have_no_effect_witness :
  In "-i"%string LAYOUT_FLAGS
  /\ app_run ["codecollector"; "-i"]%string ex_app_fs ex_cfs ex_app_root None ex_app_entries
             ex_app_file "ENTER" "ENTER" [KEnter]
     = app_run ["codecollector"]%string ex_app_fs ex_cfs ex_app_root None ex_app_entries
               ex_app_file "ENTER" "ENTER" [KEnter].
Proof.
  split; [simpl; tauto|].
  apply (layout_flags_have_no_effect "codecollector"%string [] "-i"%string []).
  simpl; tauto.
Defined.

(** X18 ([CodeCollectorApp.run], [_reset_project_settings],
    [_interactive_file_selection], [_save_user_preferences]). A run that
    exits either leaves the settings file and [.gitignore] as they were
    (the settings file deleted under [--reset]), with code 0 or 1; or it
    exits with 0 after saving a non-empty selection of collected files
    with the run's sort order and interactive mode, Markdown and structure
    on, and after updating [.gitignore]. *)
Theorem run_effect_on_files argv fs c root gi entries file k1 k2 keys code file' gi' :
  app_run argv fs c root gi entries file k1 k2 keys = Exit code file' gi' ->
  let saved := load_app_settings root file in
  let cfg := config_for_mode argv saved k1 k2 in
  (file' = match determine_mode argv saved with RESET_AND_SETUP => None | _ => file end
   /\ gi' = gi /\ (code = 0 \/ code = 1))
  \/ (code = 0
      /\ exists sel, sel <> []
         /\ incl sel (scan_and_collect c root gi (sort_by_time cfg) entries)
         /\ file' = Some (written_file root sel (interactive cfg) (sort_by_time cfg))
         /\ gi' = update_gitignore gi).
Proof.
  intro H. unfold app_run in H. cbv zeta in H |- *.
  rewrite user_preferences_write in H.
  set (saved := load_app_settings root file) in *.
  set (cfg := config_for_mode argv saved k1 k2) in *.
  set (file1 := match determine_mode argv saved with RESET_AND_SETUP => None | _ => file end) in *.
  destruct (scan_and_collect c root gi (sort_by_time cfg) entries) as [|f0 fr] eqn:Ec.
  { injection H as <- <- <-. left. split; [reflexivity|]. split; [reflexivity|]. left; reflexivity. }
  destruct (interactive cfg).
  - destruct (start_selector fs (f0 :: fr) root (option_map fst file1)) as [st|] eqn:Es.
    + destruct (run keys st) as [[sel st']|] eqn:Er; [|discriminate].
      destruct sel as [|p0 ps].
      * injection H as <- <- <-. left. split; [reflexivity|]. split; [reflexivity|]. left; reflexivity.
      * injection H as <- <- <-. right. split; [reflexivity|].
        exists (p0 :: ps). split; [discriminate|]. split; [|split; reflexivity].
        destruct (run_result _ _ _ _ Er) as (L & HL & Hsel).
        pose proof (start_selector_files _ _ _ _ _ Es) as Hp.
        intros x Hx. rewrite Hsel in Hx.
        apply Permutation_in with (1 := Hp). rewrite <- HL.
        apply in_map_iff in Hx as ([y b0] & <- & Hy). apply filter_In in Hy as [Hy _].
        apply in_map with (f := fst) in Hy. exact Hy.
    + injection H as <- <- <-. left. split; [reflexivity|]. split; [reflexivity|]. right; reflexivity.
  - injection H as <- <- <-. right. split; [reflexivity|].
    exists (f0 :: fr). split; [discriminate|]. split; [apply incl_refl|]. split; reflexivity.
Qed.

Lemma run_effect_on_files_witness :
  app_run ["codecollector"; "--setup"]%string ex_app_fs ex_cfs ex_app_root None ex_app_entries
          ex_app_file "ENTER" "ESC" []
  = Exit 0 (Some (written_file ex_app_root ex_app_entries false true))
         (update_gitignore None)
  /\ exists sel, sel <> []
     /\ incl sel (scan_and_collect ex_cfs ex_app_root None true ex_app_entries)
     /\ Some (written_file ex_app_root ex_app_entries false true)
        = Some (written_file ex_app_root sel false true)
     /\ update_gitignore None = update_gitignore None.
Proof.
  assert (H : app_run ["codecollector"; "--setup"]%string ex_app_fs ex_cfs ex_app_root None
                ex_app_entries ex_app_file "ENTER" "ESC" []
              = Exit 0 (Some (written_file ex_app_root ex_app_entries false true))
                     (update_gitignore None)) by (vm_compute; reflexivity).
  split; [exact H|].
  destruct (run_effect_on_files _ _ _ _ _ _ _ _ _ _ _ _ _ H) as [(E & _) | (_ & sel & Hsel)].
  - vm_compute in E. discriminate E.
  - vm_compute in Hsel. exists sel. exact Hsel.
Defined.

(** X19 ([ProjectSettings.load_settings], [CodeCollectorApp._determine_mode],
    [ConfigManager.merge_with_saved_settings], [run]). When a settings
    file that a run wrote for [root] is read by the next run on [root],
    that run goes straight to the tree ([QUICK_RUN], no wizard). It uses
    the saved sort order and interactive mode, provided it is given no
    time flag and none of [--setup], [--quick] or [--reset]. *)
Theorem saved_preferences_reused root sel i s argv k1 k2 :
  any_in TIME_FLAGS argv = false ->
  str_mem "--setup" argv = false -> str_mem "--quick" argv = false ->
  str_mem "--reset" argv = false ->
  let saved := load_app_settings root (Some (written_file root sel i s)) in
  determine_mode argv saved = QUICK_RUN
  /\ sort_by_time (config_for_mode argv saved k1 k2) = s
  /\ interactive (config_for_mode argv saved k1 k2) = i.
Proof.
  intros Ht Hs Hq Hr saved.
  assert (Hl : saved = Some (written_file root sel i s)).
  { subst saved. unfold load_app_settings, written_file, save_user_preferences,
      save_settings, load_settings.
    cbn [full_path]. rewrite (proj2 (path_eqb_true root root) eq_refl). reflexivity. }
  assert (Hm : determine_mode argv saved = QUICK_RUN).
  { unfold determine_mode. rewrite Hs, Hq, Hr, Hl. reflexivity. }
  split; [exact Hm|]. unfold config_for_mode. rewrite Hm, Hl.
  unfold written_file. cbn [option_map snd sort_by_time interactive set_interactive].
  rewrite sort_by_time_merge, Ht. split; reflexivity.
Qed.

Lemma saved_preferences_reused_witness :
  any_in TIME_FLAGS ["codecollector"; "-i"]%string = false
  /\ determine_mode ["codecollector"; "-i"]%string
       (load_app_settings ex_app_root
          (Some (written_file ex_app_root ex_app_entries false true))) = QUICK_RUN
  /\ sort_by_time (config_for_mode ["codecollector"; "-i"]%string
       (load_app_settings ex_app_root
          (Some (written_file ex_app_root ex_app_entries false true))) "ESC" "ENTER") = true
  /\ interactive (config_for_mode ["codecollector"; "-i"]%string
       (load_app_settings ex_app_root
          (Some (written_file ex_app_root ex_app_entries false true))) "ESC" "ENTER") = false.
Proof.
  split; [reflexivity|].
  apply (saved_preferences_reused ex_app_root ex_app_entries false true
           ["codecollector"; "-i"]%string "ESC" "ENTER"); reflexivity.
Defined.

(** X20 ([ConfigManager.parse_cli_args]). The source directory is the
    first argument after the program name that does not start with ['-'],
    and the output file the second; any further one is ignored. An
    argument that starts with ['-'] is never taken as a path, whether the
    loop knows it as a flag or not. *)
Theorem parse_cli_args_positionals prog args :
  let pos := filter (fun a => negb (String.prefix "-" a)) args in
  source_dir (parse_cli_args (prog :: args)) = nth_error pos 0
  /\ output_file (parse_cli_args (prog :: args)) = nth_error pos 1.
Proof.
  intro pos. unfold parse_cli_args. cbn [tl].
  pose proof (fold_parse_arg_positionals args default_config) as E.
  cbn [source_dir output_file default_config] in E. fold pos in E.
  destruct pos as [|x [|y r]]; cbn in E |- *.
  - injection E as -> ->. split; reflexivity.
  - injection E as -> ->. split; reflexivity.
  - rewrite fill_positionals_full in E. injection E as -> ->. split; reflexivity.
Qed.

(** X21 ([ConfigManager.parse_cli_args], [merge_with_saved_settings],
    [CodeCollectorApp.run]). Of the time flags [-t], [--time],
    [--sort-time] and [--no-time], the last one given decides the sort
    order, over the saved preference, but only when the run goes straight
    to the tree. With [--quick] files are sorted by name, and in the
    wizard the first key decides (ENTER: by time). *)
Theorem last_time_flag_decides prog a f b saved k1 k2 :
  In f TIME_FLAGS -> (forall x, In x b -> ~ In x TIME_FLAGS) ->
  let argv := prog :: a ++ f :: b in
  sort_by_time (config_for_mode argv saved k1 k2)
  = match determine_mode argv saved with
    | QUICK_RUN => negb (String.eqb f "--no-time")
    | FORCE_QUICK => false
    | _ => String.eqb k1 "ENTER"
    end.
Proof.
  intros Hf Hb argv.
  assert (Hp : sort_by_time (parse_cli_args argv) = negb (String.eqb f "--no-time")).
  { unfold argv, parse_cli_args. cbn [tl]. rewrite fold_left_app. cbn [fold_left].
    rewrite fold_parse_arg_sort_other by exact Hb. apply parse_arg_sort_time, Hf. }
  assert (Ha : any_in TIME_FLAGS argv = true).
  { unfold any_in. apply existsb_exists. exists f. split; [exact Hf|].
    apply In_str_mem. unfold argv. right. apply in_or_app. right. left. reflexivity. }
  unfold config_for_mode. fold argv.
  destruct (determine_mode argv saved); try reflexivity.
  destruct saved as [[s p]|]; cbn [sort_by_time set_interactive];
    rewrite sort_by_time_merge; cbn [option_map]; rewrite ?Ha; exact Hp.
Qed.

Lemma last_time_flag_decides_witness :
  sort_by_time (config_for_mode ["codecollector"; "-t"; "--no-time"]%string
                  (load_app_settings ex_app_root ex_app_file) "ENTER" "ENTER") = false.
Proof.
  refine (eq_trans (last_time_flag_decides "codecollector"%string ["-t"%string]
                      "--no-time"%string [] (load_app_settings ex_app_root ex_app_file)
                      "ENTER" "ENTER" _ _) _).
  - cbn. tauto.
  - intros x [].
  - vm_compute. reflexivity.
Defined.
